(** * The single-tree model of xgboost: [include/xgboost/tree_model.h]

    A shallow embedding of [TreeParam], [TreeModel<TSplitCond, TNodeStat>],
    [RegTree] and the TreeSHAP path routines, together with the properties
    of the arena (allocation, tombstoning, collapse), of the binary codec
    ([Save] / [Load]), of the traversal ([GetNext], [Predict]) and of the
    attribution engine ([ExtendPath], [UnwindPath], [UnwoundPathSum],
    [TreeShap], [CalculateContributions]), and with those of the rest of
    the interface ([InitModel], [AddChilds], [GetDepth],
    [num_extra_nodes], [FVec::Fill], [FVec::Drop],
    [CalculateContributionsApprox]).

    Conventions.
    - A C++ [int] is a [Z] in [[INT_MIN, INT_MAX]]; signed overflow, which
      the language leaves undefined, aborts with [IntOverflow].  An
      [unsigned] is a [Z] in [[0, UINT_MAX]] and wraps.
    - A [std::vector] is a [list]; an access outside the vector aborts with
      [OutOfBounds].
    - A failed [CHECK] aborts with [CheckFailed].
    - Recursion that follows child links takes a fuel argument and aborts
      with [OutOfFuel] when it is used up. *)

From Stdlib Require Import ZArith List Lia Bool Arith Permutation Factorial.
From Stdlib Require Import Field QArith Qcanon.
From Stdlib Require Import SpecFloat.
From coqutil Require Import Byte Word.LittleEndianList.
Import ListNotations.
Local Open Scope Z_scope.

(* ================================================================= *)
(** ** Outcomes of a call *)

Inductive fault : Type :=
| CheckFailed
| OutOfBounds
| IntOverflow
| BadAlloc
| OutOfFuel.

Inductive outcome (A : Type) : Type :=
| Done (a : A)
| Abort (f : fault).
Arguments Done {A} a.
Arguments Abort {A} f.

Definition bind {A B : Type} (m : outcome A) (k : A -> outcome B) : outcome B :=
  match m with
  | Done a => k a
  | Abort f => Abort f
  end.

Declare Scope outcome_scope.
Delimit Scope outcome_scope with outcome.
Notation "x <- m ;; k" := (bind m (fun x => k))
  (at level 61, m at next level, right associativity) : outcome_scope.
Notation "' pat <- m ;; k" := (bind m (fun x => match x with pat => k end))
  (at level 61, pat pattern, m at next level, right associativity) : outcome_scope.
Notation "m ;;; k" := (bind m (fun _ => k))
  (at level 61, right associativity) : outcome_scope.
Local Open Scope outcome_scope.

(** [CHECK(b)] of dmlc's logging. *)
Definition CHECK (b : bool) : outcome unit :=
  if b then Done tt else Abort CheckFailed.

(* ================================================================= *)
(** ** Machine integers *)

Definition INT_MAX : Z := 2 ^ 31 - 1.
Definition INT_MIN : Z := - 2 ^ 31.
Definition UINT_MAX : Z := 2 ^ 32 - 1.

Definition in_int (z : Z) : bool := (INT_MIN <=? z) && (z <=? INT_MAX).
Definition in_unsigned (z : Z) : bool := (0 <=? z) && (z <=? UINT_MAX).

(** Conversion [int -> unsigned] and back (two's complement). *)
Definition to_unsigned (z : Z) : Z := z mod 2 ^ 32.
Definition to_int (z : Z) : Z := (z + 2 ^ 31) mod 2 ^ 32 - 2 ^ 31.

(** Signed arithmetic: a result outside [int] is undefined behaviour. *)
Definition int_of (z : Z) : outcome Z :=
  if in_int z then Done z else Abort IntOverflow.
Definition int_add (a b : Z) : outcome Z := int_of (a + b).
Definition int_sub (a b : Z) : outcome Z := int_of (a - b).
Definition int_mul (a b : Z) : outcome Z := int_of (a * b).

(* ================================================================= *)
(** ** Vectors *)

Section Vectors.
Context {A : Type}.

(** [v[i]] with an [int] or [unsigned] index. *)
Definition at_ (v : list A) (i : Z) : outcome A :=
  if i <? 0 then Abort OutOfBounds
  else match nth_error v (Z.to_nat i) with
       | Some a => Done a
       | None => Abort OutOfBounds
       end.

Fixpoint upd (v : list A) (n : nat) (a : A) : list A :=
  match v, n with
  | [], _ => []
  | _ :: v', O => a :: v'
  | x :: v', S n' => x :: upd v' n' a
  end.

(** [v[i] = a]. *)
Definition set_at (v : list A) (i : Z) (a : A) : outcome (list A) :=
  if i <? 0 then Abort OutOfBounds
  else if (Z.to_nat i <? length v)%nat then Done (upd v (Z.to_nat i) a)
  else Abort OutOfBounds.

(** [v.resize(n)] with [d] the value a new element takes; a negative [int]
    converts to a [size_t] no allocation can satisfy. *)
Definition resize (v : list A) (n : Z) (d : A) : outcome (list A) :=
  if n <? 0 then Abort BadAlloc
  else Done (firstn (Z.to_nat n) v ++ repeat d (Z.to_nat n - length v)).

(** [v.back()] and [v.pop_back()]. *)
Definition back (v : list A) : outcome A :=
  match rev v with
  | [] => Abort OutOfBounds
  | a :: _ => Done a
  end.
Definition pop_back (v : list A) : list A := removelast v.
Definition push_back (v : list A) (a : A) : list A := v ++ [a].

End Vectors.

(* ================================================================= *)
(** ** [TreeParam] *)

Record TreeParam : Type := {
  num_roots : Z;
  num_nodes : Z;
  num_deleted : Z;
  max_depth : Z;
  num_feature : Z;
  size_leaf_vector : Z;
  reserved : list Z
}.

(** [TreeParam()]: everything zeroed, then one root and one node. *)
Definition TreeParam_new : TreeParam :=
  {| num_roots := 1; num_nodes := 1; num_deleted := 0; max_depth := 0;
     num_feature := 0; size_leaf_vector := 0; reserved := repeat 0 31 |}.

Definition set_num_nodes (p : TreeParam) (n : Z) : TreeParam :=
  {| num_roots := num_roots p; num_nodes := n; num_deleted := num_deleted p;
     max_depth := max_depth p; num_feature := num_feature p;
     size_leaf_vector := size_leaf_vector p; reserved := reserved p |}.

Definition set_num_roots (p : TreeParam) (n : Z) : TreeParam :=
  {| num_roots := n; num_nodes := num_nodes p; num_deleted := num_deleted p;
     max_depth := max_depth p; num_feature := num_feature p;
     size_leaf_vector := size_leaf_vector p; reserved := reserved p |}.

Definition set_num_deleted (p : TreeParam) (n : Z) : TreeParam :=
  {| num_roots := num_roots p; num_nodes := num_nodes p; num_deleted := n;
     max_depth := max_depth p; num_feature := num_feature p;
     size_leaf_vector := size_leaf_vector p; reserved := reserved p |}.

(* ================================================================= *)
(** ** [TreeModel<TSplitCond, TNodeStat>]

    [bst_float] is the type of leaf values; in [RegTree] the split
    condition is a [bst_float] too, so the union [Info] is one value. *)

Section TreeModel.
Context {bst_float : Type}.
Context {TNodeStat : Type}.
(** [0.0f], a value-initialised [TNodeStat], and what an [int] or an [Info]
    left uninitialised by [Node()] happens to hold. *)
Variable float_zero : bst_float.
Variable stat_zero : TNodeStat.
Variable uninit_int : Z.
Variable uninit_info : bst_float.

Record Node : Type := {
  parent_ : Z;
  cleft_ : Z;
  cright_ : Z;
  sindex_ : Z;
  info_ : bst_float
}.

(** [Node() : sindex_(0)]: the other fields are not initialised. *)
Definition Node_new : Node :=
  {| parent_ := uninit_int; cleft_ := uninit_int; cright_ := uninit_int;
     sindex_ := 0; info_ := uninit_info |}.

Definition cleft (n : Node) : Z := cleft_ n.
Definition cright (n : Node) : Z := cright_ n.
Definition split_index (n : Node) : Z := Z.land (sindex_ n) (Z.shiftl 1 31 - 1).
Definition default_left (n : Node) : bool := negb (Z.shiftr (sindex_ n) 31 =? 0).
Definition cdefault (n : Node) : Z := if default_left n then cleft n else cright n.
Definition is_leaf (n : Node) : bool := cleft_ n =? -1.
Definition leaf_value (n : Node) : bst_float := info_ n.
Definition split_cond (n : Node) : bst_float := info_ n.
Definition parent (n : Node) : Z :=
  to_int (Z.land (to_unsigned (parent_ n)) (Z.shiftl 1 31 - 1)).
Definition is_left_child (n : Node) : bool :=
  negb (Z.land (to_unsigned (parent_ n)) (Z.shiftl 1 31) =? 0).
Definition is_deleted (n : Node) : bool := sindex_ n =? UINT_MAX.
Definition is_root (n : Node) : bool := parent_ n =? -1.

Definition set_right_child (n : Node) (nid : Z) : Node :=
  {| parent_ := parent_ n; cleft_ := cleft_ n; cright_ := nid;
     sindex_ := sindex_ n; info_ := info_ n |}.

Definition set_split (n : Node) (split_index : Z) (split_cond : bst_float)
  (default_left : bool) : Node :=
  {| parent_ := parent_ n; cleft_ := cleft_ n; cright_ := cright_ n;
     sindex_ := if default_left then Z.lor split_index (Z.shiftl 1 31) else split_index;
     info_ := split_cond |}.

Definition set_leaf (n : Node) (value : bst_float) (right : Z) : Node :=
  {| parent_ := parent_ n; cleft_ := -1; cright_ := right;
     sindex_ := sindex_ n; info_ := value |}.

Definition mark_delete (n : Node) : Node :=
  {| parent_ := parent_ n; cleft_ := cleft_ n; cright_ := cright_ n;
     sindex_ := UINT_MAX; info_ := info_ n |}.

Definition set_parent (n : Node) (pidx : Z) (is_left_child : bool) : Node :=
  {| parent_ := if is_left_child
                then to_int (Z.lor (to_unsigned pidx) (Z.shiftl 1 31)) else pidx;
     cleft_ := cleft_ n; cright_ := cright_ n;
     sindex_ := sindex_ n; info_ := info_ n |}.

Record TreeModel : Type := {
  nodes : list Node;
  deleted_nodes : list Z;
  stats : list TNodeStat;
  leaf_vector : list bst_float;
  param : TreeParam
}.

Definition with_nodes (t : TreeModel) (ns : list Node) : TreeModel :=
  {| nodes := ns; deleted_nodes := deleted_nodes t; stats := stats t;
     leaf_vector := leaf_vector t; param := param t |}.

Definition with_deleted (t : TreeModel) (dn : list Z) (nd : Z) : TreeModel :=
  {| nodes := nodes t; deleted_nodes := dn; stats := stats t;
     leaf_vector := leaf_vector t; param := set_num_deleted (param t) nd |}.

(** [TreeModel()]. *)
Definition TreeModel_new : TreeModel :=
  {| nodes := [Node_new]; deleted_nodes := []; stats := []; leaf_vector := [];
     param := set_num_deleted (set_num_roots (set_num_nodes TreeParam_new 1) 1) 0 |}.

(** [AllocNode()]: the id handed out and the tree after the call. *)
Definition AllocNode (t : TreeModel) : outcome (Z * TreeModel) :=
  if negb (num_deleted (param t) =? 0) then
    nd <- back (deleted_nodes t) ;;
    k <- int_sub (num_deleted (param t)) 1 ;;
    Done (nd, with_deleted t (pop_back (deleted_nodes t)) k)
  else
    let nd := num_nodes (param t) in
    n <- int_add (num_nodes (param t)) 1 ;;
    CHECK (n <? INT_MAX) ;;;
    ns <- resize (nodes t) n Node_new ;;
    ss <- resize (stats t) n stat_zero ;;
    m <- int_mul n (size_leaf_vector (param t)) ;;
    lv <- resize (leaf_vector t) m float_zero ;;
    Done (nd, {| nodes := ns; deleted_nodes := deleted_nodes t; stats := ss;
                 leaf_vector := lv; param := set_num_nodes (param t) n |}).

(** [DeleteNode(nid)]. *)
Definition DeleteNode (t : TreeModel) (nid : Z) : outcome TreeModel :=
  CHECK (num_roots (param t) <=? nid) ;;;
  let dn := push_back (deleted_nodes t) nid in
  n <- at_ (nodes t) nid ;;
  ns <- set_at (nodes t) nid (mark_delete n) ;;
  k <- int_add (num_deleted (param t)) 1 ;;
  Done (with_deleted (with_nodes t ns) dn k).

(** [ChangeToLeaf(rid, value)]. *)
Definition ChangeToLeaf (t : TreeModel) (rid : Z) (value : bst_float)
  : outcome TreeModel :=
  r <- at_ (nodes t) rid ;;
  l <- at_ (nodes t) (cleft r) ;;
  CHECK (is_leaf l) ;;;
  r <- at_ (nodes t) rid ;;
  c <- at_ (nodes t) (cright r) ;;
  CHECK (is_leaf c) ;;;
  r <- at_ (nodes t) rid ;;
  t1 <- DeleteNode t (cleft r) ;;
  r <- at_ (nodes t1) rid ;;
  t2 <- DeleteNode t1 (cright r) ;;
  r <- at_ (nodes t2) rid ;;
  ns <- set_at (nodes t2) rid (set_leaf r value (-1)) ;;
  Done (with_nodes t2 ns).

(** [CollapseToLeaf(rid, value)]; [fuel] bounds the nesting of calls. *)
Fixpoint CollapseToLeaf (fuel : nat) (t : TreeModel) (rid : Z) (value : bst_float)
  : outcome TreeModel :=
  match fuel with
  | O => Abort OutOfFuel
  | S fuel' =>
      r <- at_ (nodes t) rid ;;
      if is_leaf r then Done t
      else
        l <- at_ (nodes t) (cleft r) ;;
        t1 <- (if negb (is_leaf l)
               then CollapseToLeaf fuel' t (cleft r) float_zero
               else Done t) ;;
        r <- at_ (nodes t1) rid ;;
        c <- at_ (nodes t1) (cright r) ;;
        t2 <- (if negb (is_leaf c)
               then CollapseToLeaf fuel' t1 (cright r) float_zero
               else Done t1) ;;
        ChangeToLeaf t2 rid value
  end.

End TreeModel.
Arguments Node bst_float : clear implicits.
Arguments TreeModel bst_float TNodeStat : clear implicits.

(* ================================================================= *)
(** ** The byte stream of [dmlc::Stream]

    A stream is the list of bytes still to be read, or the bytes written so
    far.  Objects are written as their memory image; the host is taken to
    be little-endian with a 4-byte [int] and an 8-byte [uint64_t]. *)

Definition Stream : Type := list byte.

(** The memory image of a value of type [T]. *)
Class Raw (T : Type) : Type := {
  sizeof : nat;
  to_raw : T -> list byte;
  of_raw : list byte -> T
}.

Definition int_to_raw (z : Z) : list byte := le_split 4 z.
Definition int_of_raw (bs : list byte) : Z := to_int (le_combine bs).
Definition unsigned_to_raw (z : Z) : list byte := le_split 4 z.
Definition unsigned_of_raw (bs : list byte) : Z := le_combine bs.
Definition uint64_to_raw (z : Z) : list byte := le_split 8 z.
Definition uint64_of_raw (bs : list byte) : Z := le_combine bs.

(** [k] consecutive records of [n] bytes each. *)
Fixpoint chunks (n k : nat) (bs : list byte) : list (list byte) :=
  match k with
  | O => []
  | S k' => firstn n bs :: chunks n k' (skipn n bs)
  end.

(** [Stream::Read(ptr, size)]: the bytes obtained (at most [size]) and the
    rest of the stream. *)
Definition Read (fi : Stream) (size : nat) : list byte * Stream :=
  (firstn size fi, skipn size fi).

(** [Stream::Write(ptr, size)]. *)
Definition Write (fo : Stream) (bs : list byte) : Stream := fo ++ bs.

Section VectorIO.
Context {T : Type} {RT : Raw T}.

(** [Stream::Write(const std::vector<T>&)]: a [uint64_t] length, then the
    elements. *)
Definition Write_vec (fo : Stream) (v : list T) : Stream :=
  let fo := Write fo (uint64_to_raw (Z.of_nat (length v))) in
  if (length v =? 0)%nat then fo
  else Write fo (flat_map to_raw v).

(** [Stream::Read] into a [std::vector<T>]: [None] is the call returning
    false. *)
Definition Read_vec (fi : Stream) : option (list T * Stream) :=
  let '(hd, fi) := Read fi 8 in
  if negb (length hd =? 8)%nat then None
  else
    let sz := Z.to_nat (uint64_of_raw hd) in
    if (sz =? 0)%nat then Some ([], fi)
    else
      let '(bs, fi) := Read fi (sizeof * sz) in
      if (length bs =? sizeof * sz)%nat
      then Some (map of_raw (chunks sizeof sz bs), fi)
      else None.

End VectorIO.

(** The image of [TreeParam]: [6 + 31] ints. *)
Definition sizeof_TreeParam : nat := (31 + 6) * 4.

Definition TreeParam_to_raw (p : TreeParam) : list byte :=
  flat_map int_to_raw
    ([num_roots p; num_nodes p; num_deleted p; max_depth p; num_feature p;
      size_leaf_vector p] ++ reserved p).

Definition TreeParam_of_raw (bs : list byte) : TreeParam :=
  let ws := map int_of_raw (chunks 4 37 bs) in
  {| num_roots := nth 0 ws 0; num_nodes := nth 1 ws 0; num_deleted := nth 2 ws 0;
     max_depth := nth 3 ws 0; num_feature := nth 4 ws 0;
     size_leaf_vector := nth 5 ws 0; reserved := skipn 6 ws |}.

Section Codec.
Context {bst_float : Type} {TNodeStat : Type}.
Context {Raw_float : Raw bst_float} {Raw_stat : Raw TNodeStat}.
Variable float_zero : bst_float.
Variable stat_zero : TNodeStat.
Variable uninit_int : Z.
Variable uninit_info : bst_float.

(** The image of a [Node]: four ints and the union. *)
Definition sizeof_Node : nat := 4 * 4 + sizeof (T := bst_float).

Definition Node_to_raw (n : Node bst_float) : list byte :=
  int_to_raw (parent_ n) ++ int_to_raw (cleft_ n) ++ int_to_raw (cright_ n)
  ++ unsigned_to_raw (sindex_ n) ++ to_raw (info_ n).

Definition Node_of_raw (bs : list byte) : Node bst_float :=
  {| parent_ := int_of_raw (firstn 4 bs);
     cleft_ := int_of_raw (firstn 4 (skipn 4 bs));
     cright_ := int_of_raw (firstn 4 (skipn 8 bs));
     sindex_ := unsigned_of_raw (firstn 4 (skipn 12 bs));
     info_ := of_raw (skipn 16 bs) |}.

(** The loop of [Load] that rebuilds the free list: [count] iterations
    from index [i]. *)
Fixpoint scan_deleted (ns : list (Node bst_float)) (i : Z) (count : nat)
  (acc : list Z) : outcome (list Z) :=
  match count with
  | O => Done acc
  | S c =>
      n <- at_ ns i ;;
      scan_deleted ns (i + 1) c (if is_deleted n then push_back acc i else acc)
  end.

(** The first part of [Load(fi)] on the tree [t]: the parameter block and
    the records are read; the free list is still the one of [t]. *)
Definition Load_records (t : TreeModel bst_float TNodeStat) (fi : Stream)
  : outcome (TreeModel bst_float TNodeStat * Stream) :=
  let '(bs, fi) := Read fi sizeof_TreeParam in
  CHECK (length bs =? sizeof_TreeParam)%nat ;;;
  let p := TreeParam_of_raw bs in
  ns <- resize (nodes t) (num_nodes p) (Node_new uninit_int uninit_info) ;;
  ss <- resize (stats t) (num_nodes p) stat_zero ;;
  CHECK (negb (num_nodes p =? 0)) ;;;
  let '(bs, fi) := Read fi (sizeof_Node * length ns) in
  CHECK (length bs =? sizeof_Node * length ns)%nat ;;;
  let ns := map Node_of_raw (chunks sizeof_Node (length ns) bs) in
  let '(bs, fi) := Read fi (sizeof (T := TNodeStat) * length ss) in
  CHECK (length bs =? sizeof (T := TNodeStat) * length ss)%nat ;;;
  let ss := map of_raw (chunks (sizeof (T := TNodeStat)) (length ss) bs) in
  '(lv, fi) <- (if negb (size_leaf_vector p =? 0)
                then match Read_vec fi with
                     | Some r => Done r
                     | None => Abort CheckFailed
                     end
                else Done (leaf_vector t, fi)) ;;
  Done ({| nodes := ns; deleted_nodes := deleted_nodes t; stats := ss;
           leaf_vector := lv; param := p |}, fi).

(** [Load(fi)] on the tree [t]: the tree and the stream after the call.
    After the records, the free list is emptied and rebuilt from the
    non-root nodes that carry the deletion mark, and compared with
    [num_deleted]. *)
Definition Load (t : TreeModel bst_float TNodeStat) (fi : Stream)
  : outcome (TreeModel bst_float TNodeStat * Stream) :=
  '(t, fi) <- Load_records t fi ;;
  dn <- scan_deleted (nodes t) (num_roots (param t))
          (Z.to_nat (num_nodes (param t) - num_roots (param t))) [] ;;
  CHECK (to_int (Z.of_nat (length dn)) =? num_deleted (param t)) ;;;
  Done ({| nodes := nodes t; deleted_nodes := dn; stats := stats t;
           leaf_vector := leaf_vector t; param := param t |}, fi).

(** [Save(fo)]: the stream after the call. *)
Definition Save (t : TreeModel bst_float TNodeStat) (fo : Stream) : outcome Stream :=
  CHECK (num_nodes (param t) =? to_int (Z.of_nat (length (nodes t)))) ;;;
  CHECK (num_nodes (param t) =? to_int (Z.of_nat (length (stats t)))) ;;;
  let fo := Write fo (TreeParam_to_raw (param t)) in
  CHECK (negb (num_nodes (param t) =? 0)) ;;;
  let fo := Write fo (flat_map Node_to_raw (nodes t)) in
  let fo := Write fo (flat_map to_raw (firstn (length (nodes t)) (stats t))) in
  Done (if negb (size_leaf_vector (param t) =? 0)
        then Write_vec fo (leaf_vector t) else fo).

(** The states a tree goes through: built by the constructor, then changed
    by [AllocNode], [DeleteNode], [ChangeToLeaf], [CollapseToLeaf] and
    [Load], each returning normally. *)
Inductive reachable : TreeModel bst_float TNodeStat -> Prop :=
| reach_new :
    reachable (TreeModel_new uninit_int uninit_info)
| reach_AllocNode t nd t' :
    reachable t ->
    AllocNode float_zero stat_zero uninit_int uninit_info t = Done (nd, t') ->
    reachable t'
| reach_DeleteNode t nid t' :
    reachable t -> DeleteNode t nid = Done t' -> reachable t'
| reach_ChangeToLeaf t rid value t' :
    reachable t -> ChangeToLeaf t rid value = Done t' -> reachable t'
| reach_CollapseToLeaf t fuel rid value t' :
    reachable t -> CollapseToLeaf float_zero fuel t rid value = Done t' ->
    reachable t'
| reach_Load t fi t' fi' :
    reachable t -> Load t fi = Done (t', fi') -> reachable t'.

End Codec.
Arguments sizeof_Node bst_float {Raw_float}.

(* ================================================================= *)
(** ** The arithmetic of [bst_float]

    The operations the tree code applies to [bst_float] values.  The code
    is written once over this interface and read at two instances: IEEE
    binary32 (what the C++ computes) and the rationals (what it computes
    when no operation rounds). *)

Class Scalar (F : Type) : Type := {
  of_int : Z -> F;
  fadd : F -> F -> F;
  fsub : F -> F -> F;
  fmul : F -> F -> F;
  fdiv : F -> F -> F;
  fltb : F -> F -> bool;
  feqb : F -> F -> bool;
  (** the value of a [float] whose bits are those of the [int] [-1] *)
  fmissing : F
}.

Declare Scope scalar_scope.
Delimit Scope scalar_scope with F.
Infix "+" := fadd : scalar_scope.
Infix "-" := fsub : scalar_scope.
Infix "*" := fmul : scalar_scope.
Infix "/" := fdiv : scalar_scope.

(** [x != 0] *)
Definition fnonzero {F : Type} {SF : Scalar F} (x : F) : bool :=
  negb (feqb x (of_int 0)).

(** IEEE 754 binary32, round to nearest even. *)
Definition binary32 : Type := spec_float.
Definition b32_prec : Z := 24.
Definition b32_emax : Z := 128.

#[export] Instance Scalar_binary32 : Scalar binary32 := {
  of_int z := binary_normalize b32_prec b32_emax z 0 false;
  fadd := SFadd b32_prec b32_emax;
  fsub := SFsub b32_prec b32_emax;
  fmul := SFmul b32_prec b32_emax;
  fdiv := SFdiv b32_prec b32_emax;
  fltb := SFltb;
  feqb := SFeqb;
  fmissing := S754_nan
}.

(** Exact arithmetic on canonical rationals. *)
#[export] Instance Scalar_Qc : Scalar Qc := {
  of_int z := Q2Qc (inject_Z z);
  fadd := Qcplus;
  fsub := Qcminus;
  fmul := Qcmult;
  fdiv := Qcdiv;
  fltb x y := match Qccompare x y with Lt => true | _ => false end;
  feqb x y := if Qc_eq_dec x y then true else false;
  fmissing := Q2Qc 0
}.

(* ================================================================= *)
(** ** [RTreeNodeStat], [PathElement], [RegTree] *)

Section RegTree.
Context {F : Type} {SF : Scalar F}.
Variable uninit_path_int : Z.
Variable uninit_path_float : F.

Record RTreeNodeStat : Type := {
  loss_chg : F;
  sum_hess : F;
  base_weight : F;
  leaf_child_cnt : Z
}.

Record PathElement : Type := {
  feature_index : Z;
  zero_fraction : F;
  one_fraction : F;
  pweight : F
}.

(** [PathElement() {}] initialises nothing. *)
Definition PathElement_new : PathElement :=
  {| feature_index := uninit_path_int; zero_fraction := uninit_path_float;
     one_fraction := uninit_path_float; pweight := uninit_path_float |}.

Definition set_feature_index (e : PathElement) (i : Z) : PathElement :=
  {| feature_index := i; zero_fraction := zero_fraction e;
     one_fraction := one_fraction e; pweight := pweight e |}.
Definition set_zero_fraction (e : PathElement) (z : F) : PathElement :=
  {| feature_index := feature_index e; zero_fraction := z;
     one_fraction := one_fraction e; pweight := pweight e |}.
Definition set_one_fraction (e : PathElement) (o : F) : PathElement :=
  {| feature_index := feature_index e; zero_fraction := zero_fraction e;
     one_fraction := o; pweight := pweight e |}.
Definition set_pweight (e : PathElement) (w : F) : PathElement :=
  {| feature_index := feature_index e; zero_fraction := zero_fraction e;
     one_fraction := one_fraction e; pweight := w |}.

(** [RegTree : TreeModel<bst_float, RTreeNodeStat>] with its cache of
    node mean values. *)
Record RegTree : Type := {
  model : TreeModel F RTreeNodeStat;
  node_mean_values : list F
}.

Definition with_node_mean_values (t : RegTree) (v : list F) : RegTree :=
  {| model := model t; node_mean_values := v |}.

(** [operator[](nid)] and [stat(nid)], both taking an [int]. *)
Definition node_at (t : RegTree) (nid : Z) : outcome (Node F) := at_ (nodes (model t)) nid.
Definition stat (t : RegTree) (nid : Z) : outcome RTreeNodeStat := at_ (stats (model t)) nid.

(** *** [RegTree::FVec]

    An [Entry] is a union of a [float] and an [int] flag: one word of 32
    bits, read as either.  [missing] is the word whose bits are those of
    the flag [-1] (all ones; read as a float, a NaN); [present v] is any
    other word, the float [v].  [is_missing] compares the flag with [-1],
    so it holds of [missing] alone, whether [Init] or [Drop] wrote the
    flag or [Fill] copied a float that has these bits. *)
Inductive Entry : Type :=
| missing
| present (v : F).

Record FVec : Type := { data : list Entry }.

Definition FVec_Init (size : nat) : FVec := {| data := repeat missing size |}.
Definition FVec_size (feat : FVec) : Z := Z.of_nat (length (data feat)).
Definition FVec_fvalue (feat : FVec) (i : Z) : outcome F :=
  e <- at_ (data feat) i ;;
  Done (match e with missing => fmissing | present v => v end).
Definition FVec_is_missing (feat : FVec) (i : Z) : outcome bool :=
  e <- at_ (data feat) i ;;
  Done (match e with missing => true | present _ => false end).

(** *** Traversal *)

(** [GetNext(pid, fvalue, is_unknown)]. *)
Definition GetNext (t : RegTree) (pid : Z) (fvalue : F) (is_unknown : bool)
  : outcome Z :=
  n <- node_at t pid ;;
  let split_value := split_cond n in
  if is_unknown then
    n <- node_at t pid ;; Done (cdefault n)
  else if fltb fvalue split_value then
    n <- node_at t pid ;; Done (cleft n)
  else
    n <- node_at t pid ;; Done (cright n).

(** The loop of [GetLeafIndex]. *)
Fixpoint GetLeafIndex_loop (fuel : nat) (t : RegTree) (feat : FVec) (pid : Z)
  : outcome Z :=
  match fuel with
  | O => Abort OutOfFuel
  | S fuel' =>
      n <- node_at t pid ;;
      if is_leaf n then Done pid
      else
        let split_index := split_index n in
        fv <- FVec_fvalue feat split_index ;;
        um <- FVec_is_missing feat split_index ;;
        pid' <- GetNext t pid fv um ;;
        GetLeafIndex_loop fuel' t feat pid'
  end.

Definition GetLeafIndex (fuel : nat) (t : RegTree) (feat : FVec) (root_id : Z)
  : outcome Z :=
  GetLeafIndex_loop fuel t feat (to_int root_id).

Definition Predict (fuel : nat) (t : RegTree) (feat : FVec) (root_id : Z)
  : outcome F :=
  pid <- GetLeafIndex fuel t feat root_id ;;
  n <- node_at t pid ;;
  Done (leaf_value n).

(** [MaxDepth(nid)]. *)
Fixpoint MaxDepth (fuel : nat) (t : RegTree) (nid : Z) : outcome Z :=
  match fuel with
  | O => Abort OutOfFuel
  | S fuel' =>
      n <- node_at t nid ;;
      if is_leaf n then Done 0
      else
        dl <- MaxDepth fuel' t (cleft n) ;;
        dl <- int_add dl 1 ;;
        dr <- MaxDepth fuel' t (cright n) ;;
        dr <- int_add dr 1 ;;
        Done (Z.max dl dr)
  end.

(** *** The cache of node mean values *)

(** [FillNodeMeanValue(nid)]: the value returned and the tree after. *)
Fixpoint FillNodeMeanValue (fuel : nat) (t : RegTree) (nid : Z)
  : outcome (F * RegTree) :=
  match fuel with
  | O => Abort OutOfFuel
  | S fuel' =>
      node <- node_at t nid ;;
      '(result, t) <-
        (if is_leaf node then Done (leaf_value node, t)
         else
           '(ml, t) <- FillNodeMeanValue fuel' t (cleft node) ;;
           sl <- stat t (cleft node) ;;
           let result := (ml * sum_hess sl)%F in
           '(mr, t) <- FillNodeMeanValue fuel' t (cright node) ;;
           sr <- stat t (cright node) ;;
           let result := (result + mr * sum_hess sr)%F in
           sn <- stat t nid ;;
           Done ((result / sum_hess sn)%F, t)) ;;
      v <- set_at (node_mean_values t) nid result ;;
      Done (result, with_node_mean_values t v)
  end.

(** The loop of [FillNodeMeanValues] over the roots: [count] iterations
    from [root_id]. *)
Fixpoint FillNodeMeanValues_loop (fuel : nat) (t : RegTree) (root_id : Z)
  (count : nat) : outcome RegTree :=
  match count with
  | O => Done t
  | S c =>
      '(_, t) <- FillNodeMeanValue fuel t root_id ;;
      FillNodeMeanValues_loop fuel t (root_id + 1) c
  end.

(** [FillNodeMeanValues()]; [num_nodes] converts to a [size_t]. *)
Definition FillNodeMeanValues (fuel : nat) (t : RegTree) : outcome RegTree :=
  let num_nodes := num_nodes (param (model t)) mod 2 ^ 64 in
  if Z.of_nat (length (node_mean_values t)) =? num_nodes then Done t
  else
    v <- resize (node_mean_values t) num_nodes (of_int 0) ;;
    FillNodeMeanValues_loop fuel (with_node_mean_values t v) 0
      (Z.to_nat (num_roots (param (model t)))).

(** *** The decision path of TreeSHAP

    A [PathElement*] is the buffer it points into and an offset [p]. *)

(** The loop of [ExtendPath] for [i = k - 1] down to [0]. *)
Fixpoint ExtendPath_loop (k : nat) (buf : list PathElement) (p : Z)
  (unique_depth : Z) (zero_fraction one_fraction : F)
  : outcome (list PathElement) :=
  match k with
  | O => Done buf
  | S k' =>
      let i := Z.of_nat k' in
      ei <- at_ buf (p + i) ;;
      ei1 <- at_ buf (p + (i + 1)) ;;
      buf <- set_at buf (p + (i + 1))
               (set_pweight ei1
                  (pweight ei1 + one_fraction * pweight ei * of_int (i + 1)
                                 / of_int (unique_depth + 1))%F) ;;
      ei <- at_ buf (p + i) ;;
      buf <- set_at buf (p + i)
               (set_pweight ei
                  (zero_fraction * pweight ei * of_int (unique_depth - i)
                   / of_int (unique_depth + 1))%F) ;;
      ExtendPath_loop k' buf p unique_depth zero_fraction one_fraction
  end.

(** [ExtendPath(unique_path, unique_depth, zero_fraction, one_fraction,
    feature_index)]. *)
Definition ExtendPath (buf : list PathElement) (p : Z) (unique_depth : Z)
  (zero_fraction one_fraction : F) (feature_index : Z)
  : outcome (list PathElement) :=
  e <- at_ buf (p + unique_depth) ;;
  buf <- set_at buf (p + unique_depth) (set_feature_index e feature_index) ;;
  e <- at_ buf (p + unique_depth) ;;
  buf <- set_at buf (p + unique_depth) (set_zero_fraction e zero_fraction) ;;
  e <- at_ buf (p + unique_depth) ;;
  buf <- set_at buf (p + unique_depth) (set_one_fraction e one_fraction) ;;
  e <- at_ buf (p + unique_depth) ;;
  buf <- set_at buf (p + unique_depth)
           (set_pweight e (if unique_depth =? 0 then of_int 1 else of_int 0)) ;;
  ExtendPath_loop (Z.to_nat unique_depth) buf p unique_depth
    zero_fraction one_fraction.

(** The first loop of [UnwindPath] for [i = k - 1] down to [0]; the state
    is the buffer and [next_one_portion]. *)
Fixpoint UnwindPath_loop (k : nat) (buf : list PathElement) (p : Z)
  (unique_depth : Z) (zero_fraction one_fraction next_one_portion : F)
  : outcome (list PathElement) :=
  match k with
  | O => Done buf
  | S k' =>
      let i := Z.of_nat k' in
      if fnonzero one_fraction then
        ei <- at_ buf (p + i) ;;
        let tmp := pweight ei in
        buf <- set_at buf (p + i)
                 (set_pweight ei
                    (next_one_portion * of_int (unique_depth + 1)
                     / (of_int (i + 1) * one_fraction))%F) ;;
        ei <- at_ buf (p + i) ;;
        let next_one_portion :=
          (tmp - pweight ei * zero_fraction * of_int (unique_depth - i)
                 / of_int (unique_depth + 1))%F in
        UnwindPath_loop k' buf p unique_depth zero_fraction one_fraction
          next_one_portion
      else
        ei <- at_ buf (p + i) ;;
        buf <- set_at buf (p + i)
                 (set_pweight ei
                    ((pweight ei * of_int (unique_depth + 1))
                     / (zero_fraction * of_int (unique_depth - i)))%F) ;;
        UnwindPath_loop k' buf p unique_depth zero_fraction one_fraction
          next_one_portion
  end.

(** The second loop of [UnwindPath]: [count] iterations from [i]. *)
Fixpoint UnwindPath_shift (count : nat) (buf : list PathElement) (p : Z) (i : Z)
  : outcome (list PathElement) :=
  match count with
  | O => Done buf
  | S c =>
      e1 <- at_ buf (p + (i + 1)) ;;
      e <- at_ buf (p + i) ;;
      buf <- set_at buf (p + i) (set_feature_index e (feature_index e1)) ;;
      e1 <- at_ buf (p + (i + 1)) ;;
      e <- at_ buf (p + i) ;;
      buf <- set_at buf (p + i) (set_zero_fraction e (zero_fraction e1)) ;;
      e1 <- at_ buf (p + (i + 1)) ;;
      e <- at_ buf (p + i) ;;
      buf <- set_at buf (p + i) (set_one_fraction e (one_fraction e1)) ;;
      UnwindPath_shift c buf p (i + 1)
  end.

(** [UnwindPath(unique_path, unique_depth, path_index)]. *)
Definition UnwindPath (buf : list PathElement) (p : Z) (unique_depth : Z)
  (path_index : Z) : outcome (list PathElement) :=
  e <- at_ buf (p + path_index) ;;
  let one_fraction := one_fraction e in
  e <- at_ buf (p + path_index) ;;
  let zero_fraction := zero_fraction e in
  e <- at_ buf (p + unique_depth) ;;
  let next_one_portion := pweight e in
  buf <- UnwindPath_loop (Z.to_nat unique_depth) buf p unique_depth
           zero_fraction one_fraction next_one_portion ;;
  UnwindPath_shift (Z.to_nat (unique_depth - path_index)) buf p path_index.

(** The loop of [UnwoundPathSum] for [i = k - 1] down to [0]; the state is
    [next_one_portion] and [total]. *)
Fixpoint UnwoundPathSum_loop (k : nat) (buf : list PathElement) (p : Z)
  (unique_depth : Z) (zero_fraction one_fraction next_one_portion total : F)
  : outcome F :=
  match k with
  | O => Done total
  | S k' =>
      let i := Z.of_nat k' in
      if fnonzero one_fraction then
        let tmp := (next_one_portion * of_int (unique_depth + 1)
                    / (of_int (i + 1) * one_fraction))%F in
        let total := (total + tmp)%F in
        ei <- at_ buf (p + i) ;;
        let next_one_portion :=
          (pweight ei - tmp * zero_fraction
                        * (of_int (unique_depth - i) / of_int (unique_depth + 1)))%F in
        UnwoundPathSum_loop k' buf p unique_depth zero_fraction one_fraction
          next_one_portion total
      else
        ei <- at_ buf (p + i) ;;
        let total :=
          (total + (pweight ei / zero_fraction)
                   / (of_int (unique_depth - i) / of_int (unique_depth + 1)))%F in
        UnwoundPathSum_loop k' buf p unique_depth zero_fraction one_fraction
          next_one_portion total
  end.

(** [UnwoundPathSum(unique_path, unique_depth, path_index)]. *)
Definition UnwoundPathSum (buf : list PathElement) (p : Z) (unique_depth : Z)
  (path_index : Z) : outcome F :=
  e <- at_ buf (p + path_index) ;;
  let one_fraction := one_fraction e in
  e <- at_ buf (p + path_index) ;;
  let zero_fraction := zero_fraction e in
  e <- at_ buf (p + unique_depth) ;;
  let next_one_portion := pweight e in
  UnwoundPathSum_loop (Z.to_nat unique_depth) buf p unique_depth
    zero_fraction one_fraction next_one_portion (of_int 0).

(** *** [TreeShap] and [CalculateContributions] *)






End RegTree.
Arguments RTreeNodeStat F : clear implicits.
Arguments PathElement F : clear implicits.
Arguments RegTree F : clear implicits.
Arguments Entry F : clear implicits.
Arguments FVec F : clear implicits.

(* ================================================================= *)
(** ** The rest of the interface

    The members of [TreeModel] and [RegTree] that build and walk a tree:
    [InitModel], [AddChilds], [GetDepth], [num_extra_nodes],
    [FVec::Fill], [FVec::Drop] and [CalculateContributionsApprox].
    ([AddRightChild] names a member [right] that [Node] does not have; it is
    never instantiated and has no embedding.) *)

Section TreeModelBuild.
Context {bst_float : Type}.
Context {TNodeStat : Type}.
Variable float_zero : bst_float.
Variable stat_zero : TNodeStat.
Variable uninit_int : Z.
Variable uninit_info : bst_float.

Local Abbreviation Tree := (TreeModel bst_float TNodeStat).

(** [nodes[nid].cleft_ = nid'], the assignment [AddChilds] makes. *)
Definition set_left_child (n : Node bst_float) (nid : Z) : Node bst_float :=
  {| parent_ := parent_ n; cleft_ := nid; cright_ := cright_ n;
     sindex_ := sindex_ n; info_ := info_ n |}.

(** The loop of [InitModel]: [count] iterations from [i]. *)
Fixpoint InitModel_loop (count : nat) (ns : list (Node bst_float)) (i : Z)
  : outcome (list (Node bst_float)) :=
  match count with
  | O => Done ns
  | S c =>
      n <- at_ ns i ;;
      ns <- set_at ns i (set_leaf n float_zero (-1)) ;;
      n <- at_ ns i ;;
      ns <- set_at ns i (set_parent n (-1) true) ;;
      InitModel_loop c ns (i + 1)
  end.

(** [InitModel()]. *)
Definition InitModel (t : Tree) : outcome Tree :=
  let p := set_num_nodes (param t) (num_roots (param t)) in
  ns <- resize (nodes t) (num_nodes p) (Node_new uninit_int uninit_info) ;;
  ss <- resize (stats t) (num_nodes p) stat_zero ;;
  m <- int_mul (num_nodes p) (size_leaf_vector p) ;;
  lv <- resize (leaf_vector t) m float_zero ;;
  ns <- InitModel_loop (Z.to_nat (num_nodes p)) ns 0 ;;
  Done {| nodes := ns; deleted_nodes := deleted_nodes t; stats := ss;
          leaf_vector := lv; param := p |}.

(** [AddChilds(nid)]. *)
Definition AddChilds (t : Tree) (nid : Z) : outcome Tree :=
  '(pleft, t) <- AllocNode float_zero stat_zero uninit_int uninit_info t ;;
  '(pright, t) <- AllocNode float_zero stat_zero uninit_int uninit_info t ;;
  n <- at_ (nodes t) nid ;;
  ns <- set_at (nodes t) nid (set_left_child n pleft) ;;
  n <- at_ ns nid ;;
  ns <- set_at ns nid (set_right_child n pright) ;;
  n <- at_ ns nid ;;
  l <- at_ ns (cleft n) ;;
  ns <- set_at ns (cleft n) (set_parent l nid true) ;;
  n <- at_ ns nid ;;
  c <- at_ ns (cright n) ;;
  ns <- set_at ns (cright n) (set_parent c nid false) ;;
  Done (with_nodes t ns).

(** The loop of [GetDepth]; [fuel] bounds the number of iterations. *)
Fixpoint GetDepth_loop (fuel : nat) (t : Tree) (nid : Z) (pass_rchild : bool)
  (depth : Z) : outcome Z :=
  match fuel with
  | O => Abort OutOfFuel
  | S fuel' =>
      n <- at_ (nodes t) nid ;;
      if is_root n then Done depth
      else
        depth <- (if negb pass_rchild
                  then int_add depth 1
                  else
                    n <- at_ (nodes t) nid ;;
                    if is_left_child n then int_add depth 1 else Done depth) ;;
        n <- at_ (nodes t) nid ;;
        GetDepth_loop fuel' t (parent n) pass_rchild depth
  end.

(** [GetDepth(nid, pass_rchild)]. *)
Definition GetDepth (fuel : nat) (t : Tree) (nid : Z) (pass_rchild : bool)
  : outcome Z :=
  GetDepth_loop fuel t nid pass_rchild 0.

(** [num_extra_nodes()]. *)
Definition num_extra_nodes (t : Tree) : outcome Z :=
  d <- int_sub (num_nodes (param t)) (num_roots (param t)) ;;
  int_sub d (num_deleted (param t)).

End TreeModelBuild.

Section RegTreeWalk.
Context {F : Type} {SF : Scalar F}.

(** A [RowBatch::Inst] is an array of entries, each a feature index (a
    [bst_uint]) and a [bst_float], with its length.  [Fill] copies the
    float into the union, and [is_missing] later reads its 32 bits as the
    flag: the float is given here as the word that it is, [missing] when
    its bits are all ones, [present v] otherwise. *)
Definition Inst : Type := list (Z * Entry F).

(** [FVec::Fill(inst)]: an entry whose index is not below the size of the
    vector is skipped. *)
Fixpoint Fill (feat : FVec F) (inst : Inst) : outcome (FVec F) :=
  match inst with
  | [] => Done feat
  | (index, fvalue) :: inst' =>
      if FVec_size feat <=? index then Fill feat inst'
      else
        d <- set_at (data feat) index fvalue ;;
        Fill {| data := d |} inst'
  end.

(** [FVec::Drop(inst)]. *)
Fixpoint Drop (feat : FVec F) (inst : Inst) : outcome (FVec F) :=
  match inst with
  | [] => Done feat
  | (index, _) :: inst' =>
      if FVec_size feat <=? index then Drop feat inst'
      else
        d <- set_at (data feat) index missing ;;
        Drop {| data := d |} inst'
  end.

(** The loop of [CalculateContributionsApprox]; the state is [pid],
    [node_value], [split_index] (here [last_split]) and the
    contributions. *)
Fixpoint Approx_loop (fuel : nat) (t : RegTree F) (feat : FVec F) (pid : Z)
  (node_value : F) (last_split : Z) (out_contribs : list F)
  : outcome (Z * F * Z * list F) :=
  match fuel with
  | O => Abort OutOfFuel
  | S fuel' =>
      n <- node_at t pid ;;
      if is_leaf n then Done (pid, node_value, last_split, out_contribs)
      else
        n <- node_at t pid ;;
        let split_index := split_index n in
        fv <- FVec_fvalue feat split_index ;;
        um <- FVec_is_missing feat split_index ;;
        pid <- GetNext t pid fv um ;;
        new_value <- at_ (node_mean_values t) pid ;;
        x <- at_ out_contribs split_index ;;
        out_contribs <- set_at out_contribs split_index
                          (x + (new_value - node_value))%F ;;
        Approx_loop fuel' t feat pid new_value split_index out_contribs
  end.

(** [CalculateContributionsApprox(feat, root_id, out_contribs)]:
    [out_contribs] after the call; [uninit_split] is what the local
    [split_index] holds before the loop assigns it. *)
Definition CalculateContributionsApprox (uninit_split : Z) (fuel : nat)
  (t : RegTree F) (feat : FVec F) (root_id : Z) (out_contribs : list F)
  : outcome (list F) :=
  CHECK (0 <? Z.of_nat (length (node_mean_values t))) ;;;
  let pid := to_int root_id in
  node_value <- at_ (node_mean_values t) pid ;;
  x <- at_ out_contribs (FVec_size feat) ;;
  out_contribs <- set_at out_contribs (FVec_size feat) (x + node_value)%F ;;
  n <- node_at t pid ;;
  if is_leaf n then Done out_contribs
  else
    '(pid, node_value, split_index, out_contribs) <-
      Approx_loop fuel t feat pid node_value uninit_split out_contribs ;;
    n <- node_at t pid ;;
    let leaf_value := leaf_value n in
    x <- at_ out_contribs split_index ;;
    set_at out_contribs split_index (x + (leaf_value - node_value))%F.

End RegTreeWalk.

(* ================================================================= *)
(** ** Memory images of [bst_float] and [RTreeNodeStat] *)

(** The 32 bits of a binary32 value (a NaN is written as the quiet NaN with
    an empty payload). *)
Definition b32_to_bits (x : binary32) : Z :=
  match x with
  | S754_zero s => if s then 2 ^ 31 else 0
  | S754_infinity s => (if s then 2 ^ 31 else 0) + 255 * 2 ^ 23
  | S754_nan => 255 * 2 ^ 23 + 2 ^ 22
  | S754_finite s m e =>
      (if s then 2 ^ 31 else 0)
      + (if Zpos m <? 2 ^ 23 then Zpos m
         else (e + 150) * 2 ^ 23 + (Zpos m - 2 ^ 23))
  end.

Definition b32_of_bits (b : Z) : binary32 :=
  let s := Z.testbit b 31 in
  let e := (b / 2 ^ 23) mod 256 in
  let f := b mod 2 ^ 23 in
  if e =? 0 then
    match f with
    | Zpos m => S754_finite s m (-149)
    | _ => S754_zero s
    end
  else if e =? 255 then
    if f =? 0 then S754_infinity s else S754_nan
  else
    match f + 2 ^ 23 with
    | Zpos m => S754_finite s m (e - 150)
    | _ => S754_nan
    end.

#[export] Instance Raw_binary32 : Raw binary32 := {
  sizeof := 4;
  to_raw x := le_split 4 (b32_to_bits x);
  of_raw bs := b32_of_bits (le_combine bs)
}.

#[export] Instance Raw_RTreeNodeStat {F : Type} {RF : Raw F}
  : Raw (RTreeNodeStat F) := {
  sizeof := 3 * sizeof (T := F) + 4;
  to_raw s := to_raw (loss_chg s) ++ to_raw (sum_hess s)
              ++ to_raw (base_weight s) ++ int_to_raw (leaf_child_cnt s);
  of_raw bs :=
    let k := sizeof (T := F) in
    {| loss_chg := of_raw (firstn k bs);
       sum_hess := of_raw (firstn k (skipn k bs));
       base_weight := of_raw (firstn k (skipn (2 * k) bs));
       leaf_child_cnt := int_of_raw (skipn (3 * k) bs) |}
}.

(** *** Values that have a memory image *)

Definition int_ok (z : Z) : Prop := INT_MIN <= z <= INT_MAX.
Definition unsigned_ok (z : Z) : Prop := 0 <= z <= UINT_MAX.

(** [x] is a datum of its type: its image has the size of the type and
    reads back as [x]. *)
Definition raw_ok {T : Type} {RT : Raw T} (x : T) : Prop :=
  length (to_raw x) = sizeof /\ of_raw (to_raw x) = x.

Definition TreeParam_ok (p : TreeParam) : Prop :=
  int_ok (num_roots p) /\ int_ok (num_nodes p) /\ int_ok (num_deleted p) /\
  int_ok (max_depth p) /\ int_ok (num_feature p) /\
  int_ok (size_leaf_vector p) /\
  Forall int_ok (reserved p) /\ length (reserved p) = 31%nat.

Section WellFormed.
Context {bst_float : Type} {TNodeStat : Type}.
Context {Raw_float : Raw bst_float} {Raw_stat : Raw TNodeStat}.

Definition Node_ok (n : Node bst_float) : Prop :=
  int_ok (parent_ n) /\ int_ok (cleft_ n) /\ int_ok (cright_ n) /\
  unsigned_ok (sindex_ n) /\ raw_ok (info_ n).

Definition TreeModel_ok (t : TreeModel bst_float TNodeStat) : Prop :=
  TreeParam_ok (param t) /\ Forall Node_ok (nodes t) /\
  Forall raw_ok (stats t) /\ Forall raw_ok (leaf_vector t) /\
  Z.of_nat (length (leaf_vector t)) < 2 ^ 64.

(** The indices [lo, lo + count) whose node carries the deletion mark. *)
Definition marked_deleted (ns : list (Node bst_float)) (lo : Z) (count : nat)
  : list Z :=
  filter (fun i => match at_ ns i with
                   | Done n => is_deleted n
                   | Abort _ => false
                   end)
         (map (fun k => lo + Z.of_nat k) (seq 0 count)).

(** The non-root nodes of [t] that carry the deletion mark. *)
Definition marked_nonroot (t : TreeModel bst_float TNodeStat) : list Z :=
  marked_deleted (nodes t) (num_roots (param t))
    (Z.to_nat (num_nodes (param t) - num_roots (param t))).

(** The bytes [Save] writes for [t]. *)
Definition image (t : TreeModel bst_float TNodeStat) : list byte :=
  TreeParam_to_raw (param t)
  ++ flat_map Node_to_raw (nodes t)
  ++ flat_map to_raw (stats t)
  ++ (if negb (size_leaf_vector (param t) =? 0)
      then Write_vec [] (leaf_vector t) else []).

End WellFormed.

(* ================================================================= *)
(** * Properties *)

(** ** Outcomes, integers and vectors *)

Lemma bind_Done {A B : Type} (m : outcome A) (k : A -> outcome B) (b : B) :
  bind m k = Done b -> exists a, m = Done a /\ k a = Done b.
Proof.
  destruct m as [a|f]; simpl; intros H; [exists a; auto | discriminate].
Qed.

Lemma CHECK_Done (b : bool) (u : unit) : CHECK b = Done u -> b = true.
Proof. destruct b; simpl; [reflexivity | discriminate]. Qed.

Lemma int_of_Done (z r : Z) :
  int_of z = Done r -> r = z /\ INT_MIN <= z <= INT_MAX.
Proof.
  unfold int_of, in_int. destruct (andb _ _) eqn:E; [|discriminate].
  intros [= <-]. apply andb_prop in E. lia.
Qed.

Lemma int_of_in (z : Z) : INT_MIN <= z <= INT_MAX -> int_of z = Done z.
Proof.
  intros H. unfold int_of, in_int.
  replace (INT_MIN <=? z) with true by (symmetry; apply Z.leb_le; lia).
  replace (z <=? INT_MAX) with true by (symmetry; apply Z.leb_le; lia).
  reflexivity.
Qed.

Lemma to_int_id (z : Z) : INT_MIN <= z <= INT_MAX -> to_int z = z.
Proof.
  unfold to_int, INT_MIN, INT_MAX. intros H.
  assert (E : (z + 2 ^ 31) mod 2 ^ 32 = z + 2 ^ 31)
    by (apply Z.mod_small; lia).
  lia.
Qed.

Lemma to_int_range (z : Z) : INT_MIN <= to_int z <= INT_MAX.
Proof.
  unfold to_int, INT_MIN, INT_MAX.
  pose proof (Z.mod_pos_bound (z + 2 ^ 31) (2 ^ 32) ltac:(lia)). lia.
Qed.

Lemma to_int_mod (z : Z) : INT_MIN <= z <= INT_MAX -> to_int (z mod 2 ^ 32) = z.
Proof.
  unfold to_int, INT_MIN, INT_MAX. intros H.
  rewrite Zplus_mod_idemp_l. rewrite Z.mod_small; lia.
Qed.

Lemma to_unsigned_id (z : Z) : 0 <= z <= UINT_MAX -> to_unsigned z = z.
Proof. unfold to_unsigned, UINT_MAX. intros H. apply Z.mod_small. lia. Qed.

Section VectorFacts.
Context {A : Type}.
Implicit Types (v : list A) (a : A).

Lemma length_upd v n a : length (upd v n a) = length v.
Proof.
  revert n; induction v as [|x v IH]; intros [|n]; simpl; auto.
Qed.

Lemma nth_error_upd_eq v n a :
  (n < length v)%nat -> nth_error (upd v n a) n = Some a.
Proof.
  revert n; induction v as [|x v IH]; intros [|n]; simpl; intros H;
    try lia; auto. apply IH. lia.
Qed.

Lemma nth_error_upd_ne v n m a :
  n <> m -> nth_error (upd v n a) m = nth_error v m.
Proof.
  revert n m; induction v as [|x v IH]; intros [|n] [|m]; simpl; intros H;
    try congruence; auto.
Qed.

Lemma at_Done v i a :
  at_ v i = Done a -> 0 <= i /\ nth_error v (Z.to_nat i) = Some a.
Proof.
  unfold at_. destruct (i <? 0) eqn:E; [discriminate|].
  apply Z.ltb_ge in E. destruct (nth_error _ _); [|discriminate].
  intros [= ->]. auto.
Qed.

Lemma at_in v i a :
  0 <= i -> nth_error v (Z.to_nat i) = Some a -> at_ v i = Done a.
Proof.
  intros Hi H. unfold at_.
  replace (i <? 0) with false by (symmetry; apply Z.ltb_ge; lia).
  now rewrite H.
Qed.

Lemma at_Done_lt v i a : at_ v i = Done a -> 0 <= i < Z.of_nat (length v).
Proof.
  intros H. apply at_Done in H as [Hi H].
  assert (Z.to_nat i < length v)%nat by (apply nth_error_Some; congruence).
  lia.
Qed.

Lemma set_at_Done v i a v' :
  set_at v i a = Done v' ->
  0 <= i < Z.of_nat (length v) /\ v' = upd v (Z.to_nat i) a.
Proof.
  unfold set_at. destruct (i <? 0) eqn:E; [discriminate|].
  apply Z.ltb_ge in E.
  destruct (Nat.ltb _ _) eqn:E2; [|discriminate].
  apply Nat.ltb_lt in E2. intros [= <-]. split; [lia | reflexivity].
Qed.

Lemma set_at_in v i a :
  0 <= i < Z.of_nat (length v) -> set_at v i a = Done (upd v (Z.to_nat i) a).
Proof.
  intros H. unfold set_at.
  replace (i <? 0) with false by (symmetry; apply Z.ltb_ge; lia).
  replace (Nat.ltb _ _) with true by (symmetry; apply Nat.ltb_lt; lia).
  reflexivity.
Qed.

Lemma at_upd_eq v i a :
  0 <= i < Z.of_nat (length v) -> at_ (upd v (Z.to_nat i) a) i = Done a.
Proof.
  intros H. apply at_in; [lia|]. apply nth_error_upd_eq. lia.
Qed.

Lemma at_upd_ne v i j a :
  0 <= i -> i <> j -> at_ (upd v (Z.to_nat i) a) j = at_ v j.
Proof.
  intros Hi Hij. unfold at_. destruct (j <? 0) eqn:E; [reflexivity|].
  apply Z.ltb_ge in E. rewrite nth_error_upd_ne; [reflexivity | lia].
Qed.

Lemma back_push_back v a : back (push_back v a) = Done a.
Proof. unfold back, push_back. rewrite rev_app_distr. reflexivity. Qed.

Lemma pop_back_push_back v a : pop_back (push_back v a) = v.
Proof. unfold pop_back, push_back. apply removelast_last. Qed.

Lemma back_Done v a : back v = Done a -> v = push_back (pop_back v) a.
Proof.
  unfold back, push_back, pop_back. intros H.
  destruct (rev v) as [|x l] eqn:E; [discriminate|]. injection H as ->.
  apply (f_equal (@rev A)) in E. rewrite rev_involutive in E. simpl in E.
  subst v. now rewrite removelast_last.
Qed.

Lemma resize_Done v n d v' :
  resize v n d = Done v' ->
  0 <= n /\ v' = firstn (Z.to_nat n) v ++ repeat d (Z.to_nat n - length v).
Proof.
  unfold resize. destruct (n <? 0) eqn:E; [discriminate|].
  apply Z.ltb_ge in E. intros [= <-]. auto.
Qed.

Lemma resize_grow v n d :
  Z.of_nat (length v) <= n ->
  resize v n d = Done (v ++ repeat d (Z.to_nat n - length v)).
Proof.
  intros H. unfold resize.
  replace (n <? 0) with false by (symmetry; apply Z.ltb_ge; lia).
  rewrite firstn_all2 by lia. reflexivity.
Qed.

End VectorFacts.

(** Inversion of a successful monadic computation, one [bind] at a time. *)
Ltac inv_bind H :=
  let a := fresh "a" in
  let Ha := fresh "E" in
  apply bind_Done in H; destruct H as (a & Ha & H).

#[local] Arguments at_ : simpl never.
#[local] Arguments set_at : simpl never.
#[local] Arguments DeleteNode : simpl never.
#[local] Arguments ChangeToLeaf : simpl never.

Ltac case_eqb :=
  match goal with
  | |- context [?a =? ?b] => destruct (Z.eqb_spec a b)
  end.

(** Case analysis on the integer comparisons of the goal. *)
Ltac zcases :=
  repeat match goal with
         | |- context [?a <=? ?b] => destruct (Z.leb_spec a b)
         | |- context [?a <? ?b] => destruct (Z.ltb_spec a b)
         | |- context [?a =? ?b] => destruct (Z.eqb_spec a b)
         end;
  cbn [andb orb negb].

(** [lia] without the disequalities of the context. *)
Ltac bounds :=
  repeat match goal with H : _ <> _ |- _ => clear H end; lia.

Ltac inv_CHECK H :=
  let u := fresh "u" in
  let Hc := fresh "C" in
  apply bind_Done in H; destruct H as (u & Hc & H); apply CHECK_Done in Hc.

(* ================================================================= *)
(** ** The arena: [AllocNode], [DeleteNode], [ChangeToLeaf], [CollapseToLeaf] *)

Section ArenaFacts.
Context {bst_float : Type} {TNodeStat : Type}.
Variable float_zero : bst_float.
Variable stat_zero : TNodeStat.
Variable uninit_int : Z.
Variable uninit_info : bst_float.

Local Abbreviation Tree := (TreeModel bst_float TNodeStat).
Local Abbreviation AllocNode' := (AllocNode float_zero stat_zero uninit_int uninit_info).
Local Abbreviation CollapseToLeaf' := (CollapseToLeaf (TNodeStat := TNodeStat) float_zero).
Implicit Types (t : Tree) (n : Node bst_float).

(** The tree [DeleteNode t nid] returns. *)
Definition deleted_tree t (nid : Z) n : Tree :=
  {| nodes := upd (nodes t) (Z.to_nat nid) (mark_delete n);
     deleted_nodes := deleted_nodes t ++ [nid];
     stats := stats t;
     leaf_vector := leaf_vector t;
     param := set_num_deleted (param t) (num_deleted (param t) + 1) |}.

Lemma DeleteNode_Done t nid t' :
  DeleteNode t nid = Done t' ->
  exists n, num_roots (param t) <= nid /\ at_ (nodes t) nid = Done n /\
            INT_MIN <= num_deleted (param t) + 1 <= INT_MAX /\
            t' = deleted_tree t nid n.
Proof.
  unfold DeleteNode. intros H.
  inv_CHECK H. inv_bind H. inv_bind H. inv_bind H. injection H as <-.
  apply Z.leb_le in C. apply set_at_Done in E0 as [_ ->].
  apply int_of_Done in E1 as [-> R].
  exists a. repeat split; auto; lia.
Qed.

Lemma DeleteNode_in t nid n :
  num_roots (param t) <= nid -> at_ (nodes t) nid = Done n ->
  INT_MIN <= num_deleted (param t) + 1 <= INT_MAX ->
  DeleteNode t nid = Done (deleted_tree t nid n).
Proof.
  intros Hr Hn Hd. unfold DeleteNode.
  replace (num_roots (param t) <=? nid) with true
    by (symmetry; apply Z.leb_le; lia).
  simpl. rewrite Hn. simpl.
  rewrite set_at_in by (eapply at_Done_lt; eauto). simpl.
  unfold int_add. rewrite int_of_in by lia. reflexivity.
Qed.

(** The two branches of [AllocNode]. *)
Lemma AllocNode_reuse t nd t' :
  num_deleted (param t) <> 0 -> AllocNode' t = Done (nd, t') ->
  back (deleted_nodes t) = Done nd /\
  t' = with_deleted t (pop_back (deleted_nodes t)) (num_deleted (param t) - 1).
Proof.
  intros Hd. unfold AllocNode.
  replace (num_deleted (param t) =? 0) with false
    by (symmetry; apply Z.eqb_neq; lia).
  simpl. intros H. inv_bind H. inv_bind H. injection H as <- <-.
  apply int_of_Done in E0 as [-> _]. auto.
Qed.

Lemma AllocNode_mint t nd t' :
  num_deleted (param t) = 0 -> AllocNode' t = Done (nd, t') ->
  let k := num_nodes (param t) + 1 in
  nd = num_nodes (param t) /\ k < INT_MAX /\
  nodes t' = firstn (Z.to_nat k) (nodes t)
             ++ repeat (Node_new uninit_int uninit_info)
                  (Z.to_nat k - length (nodes t)) /\
  stats t' = firstn (Z.to_nat k) (stats t)
             ++ repeat stat_zero (Z.to_nat k - length (stats t)) /\
  leaf_vector t' =
    firstn (Z.to_nat (k * size_leaf_vector (param t))) (leaf_vector t)
    ++ repeat float_zero
         (Z.to_nat (k * size_leaf_vector (param t)) - length (leaf_vector t)) /\
  deleted_nodes t' = deleted_nodes t /\
  param t' = set_num_nodes (param t) k.
Proof.
  intros Hd. unfold AllocNode. rewrite Hd. simpl. intros H.
  inv_bind H. inv_CHECK H. inv_bind H. inv_bind H. inv_bind H. inv_bind H.
  injection H as <- <-. simpl.
  apply int_of_Done in E as [-> _]. apply Z.ltb_lt in C.
  apply resize_Done in E0 as [_ ->]. apply resize_Done in E1 as [_ ->].
  apply int_of_Done in E2 as [-> _]. apply resize_Done in E3 as [_ ->].
  repeat split; auto.
Qed.

(** [ChangeToLeaf]: what a successful call did. *)
Lemma ChangeToLeaf_Done t rid value t' :
  ChangeToLeaf t rid value = Done t' ->
  exists r l c t1 t2 r2,
    at_ (nodes t) rid = Done r /\
    at_ (nodes t) (cleft r) = Done l /\ is_leaf l = true /\
    at_ (nodes t) (cright r) = Done c /\ is_leaf c = true /\
    DeleteNode t (cleft r) = Done t1 /\
    (exists r1, at_ (nodes t1) rid = Done r1 /\
                DeleteNode t1 (cright r1) = Done t2) /\
    at_ (nodes t2) rid = Done r2 /\
    t' = with_nodes t2 (upd (nodes t2) (Z.to_nat rid) (set_leaf r2 value (-1))).
Proof.
  unfold ChangeToLeaf. intros H.
  inv_bind H. inv_bind H. inv_CHECK H. inv_bind H. inv_bind H. inv_CHECK H.
  inv_bind H. inv_bind H. inv_bind H. inv_bind H. inv_bind H. inv_bind H.
  injection H as <-.
  rewrite E in E1, E3. injection E1 as <-. injection E3 as <-.
  apply set_at_Done in E8 as [_ ->].
  exists a, a0, a2, a4, a6, a7. repeat split; auto.
  exists a5. auto.
Qed.

Lemma length_resized {A : Type} (v : list A) (k : nat) (d : A) :
  length (firstn k v ++ repeat d (k - length v)) = k.
Proof.
  rewrite length_app, length_firstn, repeat_length. lia.
Qed.

(** C6 (as amended).  Right after a successful [DeleteNode(x)] that leaves a
    nonzero deleted count, [AllocNode()] returns [x]: it takes [x] off the
    free list, decrements the deleted count, and leaves the node, stat and
    leaf-vector arrays and [num_nodes] as they are.  In general a successful
    [AllocNode()] leaves the arrays alone when the deleted count is nonzero;
    when it is zero it returns the old [num_nodes], increments [num_nodes]
    and resizes the node and stat arrays to [num_nodes] elements and the
    leaf vector to [num_nodes * size_leaf_vector] elements, which, when the
    three sizes agreed with [num_nodes] before, appends one node, one stat
    and [size_leaf_vector] leaf-vector entries. *)
Theorem AllocNode_after_DeleteNode t x t1 :
  INT_MIN <= num_deleted (param t) ->
  DeleteNode t x = Done t1 ->
  num_deleted (param t1) <> 0 ->
  (exists t2,
      AllocNode' t1 = Done (x, t2) /\
      nodes t2 = nodes t1 /\ stats t2 = stats t1 /\
      leaf_vector t2 = leaf_vector t1 /\
      num_nodes (param t2) = num_nodes (param t1) /\
      deleted_nodes t2 = deleted_nodes t /\
      num_deleted (param t2) = num_deleted (param t1) - 1) /\
  (forall s nd s',
      AllocNode' s = Done (nd, s') ->
      (num_deleted (param s) <> 0 ->
       nodes s' = nodes s /\ stats s' = stats s /\
       leaf_vector s' = leaf_vector s /\
       num_nodes (param s') = num_nodes (param s) /\
       num_deleted (param s') = num_deleted (param s) - 1) /\
      (num_deleted (param s) = 0 ->
       nd = num_nodes (param s) /\
       num_nodes (param s') = num_nodes (param s) + 1 /\
       Z.of_nat (length (nodes s')) = num_nodes (param s') /\
       Z.of_nat (length (stats s')) = num_nodes (param s') /\
       Z.of_nat (length (leaf_vector s')) =
         num_nodes (param s') * size_leaf_vector (param s) /\
       (Z.of_nat (length (nodes s)) = num_nodes (param s) ->
        Z.of_nat (length (stats s)) = num_nodes (param s) ->
        Z.of_nat (length (leaf_vector s)) =
          num_nodes (param s) * size_leaf_vector (param s) ->
        nodes s' = nodes s ++ [Node_new uninit_int uninit_info] /\
        stats s' = stats s ++ [stat_zero] /\
        leaf_vector s' =
          leaf_vector s
          ++ repeat float_zero (Z.to_nat (size_leaf_vector (param s)))))).
Proof.
  intros Hmin HD Hnz. split.
  - apply DeleteNode_Done in HD as (n & Hr & Hn & Hrange & ->).
    simpl in Hnz. unfold AllocNode. simpl.
    replace (num_deleted (param t) + 1 =? 0) with false
      by (symmetry; apply Z.eqb_neq; lia).
    simpl. change (deleted_nodes t ++ [x]) with (push_back (deleted_nodes t) x).
    rewrite back_push_back. simpl.
    unfold int_sub. rewrite int_of_in by lia. simpl.
    eexists. split; [reflexivity|]. simpl.
    rewrite pop_back_push_back. repeat split; auto.
  - intros s nd s' HA. split.
    + intros Hs. destruct (AllocNode_reuse _ _ _ Hs HA) as [_ ->]. simpl. auto.
    + intros Hs. pose proof (AllocNode_mint _ _ _ Hs HA) as H. simpl in H.
      destruct H as (-> & Hlt & Hn & Hst & Hlv & Hdn & Hp).
      unfold AllocNode in HA. rewrite Hs in HA. simpl in HA.
      inv_bind HA. inv_CHECK HA. inv_bind HA. inv_bind HA. inv_bind HA.
      inv_bind HA. clear HA.
      apply int_of_Done in E as [-> _].
      apply resize_Done in E0 as [Hk _]. apply int_of_Done in E2 as [-> _].
      apply resize_Done in E3 as [Hm _].
      rewrite Hp, Hn, Hst, Hlv. simpl. rewrite !length_resized.
      repeat split; try lia.
      * rewrite firstn_all2 by lia. f_equal.
        replace (Z.to_nat (num_nodes (param s) + 1) - length (nodes s))%nat
          with 1%nat by lia.
        reflexivity.
      * rewrite firstn_all2 by lia. f_equal.
        replace (Z.to_nat (num_nodes (param s) + 1) - length (stats s))%nat
          with 1%nat by lia.
        reflexivity.
      * assert (0 <= size_leaf_vector (param s)) by nia.
        rewrite firstn_all2 by nia. f_equal. f_equal. nia.
Qed.

(** C10.  On a node that is already a leaf, [CollapseToLeaf(rid, value)]
    returns at once and leaves the whole tree as it was: nothing is deleted,
    the deleted count is the same, and [rid] keeps the leaf value it had;
    [value] is not stored. *)
Theorem CollapseToLeaf_leaf_unchanged fuel t rid value n :
  at_ (nodes t) rid = Done n ->
  is_leaf n = true ->
  CollapseToLeaf' (S fuel) t rid value = Done t.
Proof.
  intros Hn Hl. simpl. rewrite Hn. simpl. rewrite Hl. reflexivity.
Qed.

(** A node is live when it is in the arena and does not carry the deletion
    mark. *)
Definition live t (i : Z) : Prop :=
  exists n, at_ (nodes t) i = Done n /\ is_deleted n = false.

(** [rid] roots a full subtree of depth 2: its children [cleft r] and
    [cright r] are internal and their four children are leaves; the seven
    nodes are distinct and the six below [rid] are not roots. *)
Definition depth2_subtree t (rid : Z) (r l c : Node bst_float) : Prop :=
  at_ (nodes t) rid = Done r /\ is_leaf r = false /\
  at_ (nodes t) (cleft r) = Done l /\ is_leaf l = false /\
  at_ (nodes t) (cright r) = Done c /\ is_leaf c = false /\
  (exists ll, at_ (nodes t) (cleft l) = Done ll /\ is_leaf ll = true) /\
  (exists lr, at_ (nodes t) (cright l) = Done lr /\ is_leaf lr = true) /\
  (exists rl, at_ (nodes t) (cleft c) = Done rl /\ is_leaf rl = true) /\
  (exists rr, at_ (nodes t) (cright c) = Done rr /\ is_leaf rr = true) /\
  NoDup [rid; cleft r; cright r; cleft l; cright l; cleft c; cright c] /\
  Forall (fun i => num_roots (param t) <= i)
    [cleft r; cright r; cleft l; cright l; cleft c; cright c].

Lemma is_deleted_mark_delete n : is_deleted (mark_delete n) = true.
Proof. reflexivity. Qed.

Lemma DeleteNode_spec t nid n :
  num_roots (param t) <= nid -> at_ (nodes t) nid = Done n ->
  INT_MIN <= num_deleted (param t) + 1 <= INT_MAX ->
  exists t',
    DeleteNode t nid = Done t' /\
    deleted_nodes t' = deleted_nodes t ++ [nid] /\
    param t' = set_num_deleted (param t) (num_deleted (param t) + 1) /\
    stats t' = stats t /\ leaf_vector t' = leaf_vector t /\
    (forall i, at_ (nodes t') i =
               if i =? nid then Done (mark_delete n) else at_ (nodes t) i).
Proof.
  intros Hr Hn Hd. exists (deleted_tree t nid n).
  split; [now apply DeleteNode_in|]. simpl. repeat split; auto.
  intros i. pose proof (at_Done_lt _ _ _ Hn) as Hlt.
  destruct (Z.eqb_spec i nid) as [->|Hne].
  - now apply at_upd_eq.
  - apply at_upd_ne; lia.
Qed.

Lemma ChangeToLeaf_spec t rid value r l c :
  at_ (nodes t) rid = Done r ->
  at_ (nodes t) (cleft r) = Done l -> is_leaf l = true ->
  at_ (nodes t) (cright r) = Done c -> is_leaf c = true ->
  cleft r <> cright r -> cleft r <> rid -> cright r <> rid ->
  num_roots (param t) <= cleft r -> num_roots (param t) <= cright r ->
  INT_MIN <= num_deleted (param t) -> num_deleted (param t) + 2 <= INT_MAX ->
  exists t',
    ChangeToLeaf t rid value = Done t' /\
    deleted_nodes t' = deleted_nodes t ++ [cleft r; cright r] /\
    param t' = set_num_deleted (param t) (num_deleted (param t) + 2) /\
    stats t' = stats t /\ leaf_vector t' = leaf_vector t /\
    (forall i, at_ (nodes t') i =
               if i =? rid then Done (set_leaf r value (-1))
               else if i =? cright r then Done (mark_delete c)
               else if i =? cleft r then Done (mark_delete l)
               else at_ (nodes t) i).
Proof.
  intros Hr Hl Hll Hc Hcl Hlc Hlr Hcr Rl Rc Dmin Dmax.
  destruct (DeleteNode_spec t (cleft r) l) as (t1 & D1 & F1 & P1 & S1 & V1 & N1);
    auto; try lia.
  assert (Hr1 : at_ (nodes t1) rid = Done r).
  { rewrite N1. destruct (Z.eqb_spec rid (cleft r)); [lia | auto]. }
  assert (Hc1 : at_ (nodes t1) (cright r) = Done c).
  { rewrite N1. destruct (Z.eqb_spec (cright r) (cleft r)); [lia | auto]. }
  destruct (DeleteNode_spec t1 (cright r) c) as (t2 & D2 & F2 & P2 & S2 & V2 & N2);
    auto; try (rewrite P1; simpl; lia).
  assert (Hr2 : at_ (nodes t2) rid = Done r).
  { rewrite N2. destruct (Z.eqb_spec rid (cright r)); [lia | auto]. }
  exists (with_nodes t2 (upd (nodes t2) (Z.to_nat rid) (set_leaf r value (-1)))).
  split.
  - unfold ChangeToLeaf. rewrite Hr; simpl. rewrite Hl; simpl.
    rewrite Hll; simpl. rewrite Hc; simpl. rewrite Hcl; simpl.
    rewrite D1; simpl. rewrite Hr1; simpl. rewrite D2; simpl.
    rewrite Hr2; simpl.
    rewrite set_at_in by (eapply at_Done_lt; eauto). reflexivity.
  - simpl. rewrite F2, F1, P2, P1, S2, S1, V2, V1. simpl.
    rewrite <- app_assoc. simpl.
    repeat split; auto.
    + unfold set_num_deleted. simpl. f_equal. lia.
    + intros i. pose proof (at_Done_lt _ _ _ Hr2) as Hlt.
      destruct (Z.eqb_spec i rid) as [->|Hne].
      * now apply at_upd_eq.
      * rewrite at_upd_ne by lia. rewrite N2.
        destruct (Z.eqb_spec i (cright r)); auto.
Qed.

(** At a node whose two children are leaves, [CollapseToLeaf] is
    [ChangeToLeaf]. *)
Lemma CollapseToLeaf_depth1 fuel t rid value r l c :
  at_ (nodes t) rid = Done r -> is_leaf r = false ->
  at_ (nodes t) (cleft r) = Done l -> is_leaf l = true ->
  at_ (nodes t) (cright r) = Done c -> is_leaf c = true ->
  CollapseToLeaf' (S fuel) t rid value = ChangeToLeaf t rid value.
Proof.
  intros Hr Hrl Hl Hll Hc Hcl. simpl.
  rewrite Hr; simpl. rewrite Hrl, Hl; simpl. rewrite Hll; simpl.
  rewrite Hr; simpl. rewrite Hc; simpl. rewrite Hcl. reflexivity.
Qed.

Lemma NoDup7 (a b c d e f g : Z) :
  NoDup [a; b; c; d; e; f; g] ->
  (a <> b /\ a <> c /\ a <> d /\ a <> e /\ a <> f /\ a <> g) /\
  (b <> c /\ b <> d /\ b <> e /\ b <> f /\ b <> g) /\
  (c <> d /\ c <> e /\ c <> f /\ c <> g) /\
  (d <> e /\ d <> f /\ d <> g) /\ (e <> f /\ e <> g) /\ f <> g.
Proof.
  intros H.
  repeat match goal with
         | H : NoDup (_ :: _) |- _ => inversion H; clear H; subst
         end.
  simpl in *. intuition congruence.
Qed.

(** C9 (as amended).  When [rid] roots a full subtree of depth 2 (two
    internal children, four leaves), [CollapseToLeaf(rid, value)] deletes
    six nodes: the four leaves and then the two internal nodes are appended
    to the free list, in the order left pair, right pair, children of
    [rid]; the deleted count grows by six; exactly these six leave the live
    set; and [rid] becomes a leaf holding [value], live if it was. *)
Theorem CollapseToLeaf_depth2 fuel t rid value r l c :
  depth2_subtree t rid r l c ->
  INT_MIN <= num_deleted (param t) ->
  num_deleted (param t) + 6 <= INT_MAX ->
  exists t',
    CollapseToLeaf' (S (S fuel)) t rid value = Done t' /\
    deleted_nodes t' =
      deleted_nodes t
      ++ [cleft l; cright l; cleft c; cright c; cleft r; cright r] /\
    num_deleted (param t') = num_deleted (param t) + 6 /\
    (forall i, live t' i <->
               live t i /\
               ~ In i [cleft l; cright l; cleft c; cright c; cleft r; cright r]) /\
    (exists r', at_ (nodes t') rid = Done r' /\ is_leaf r' = true /\
                leaf_value r' = value /\ is_deleted r' = is_deleted r) /\
    num_nodes (param t') = num_nodes (param t) /\
    stats t' = stats t /\ leaf_vector t' = leaf_vector t.
Proof.
  intros (Hr & Lr & Hl & Ll & Hc & Lc & (ll & Hll & Lll) & (lr & Hlr & Llr)
          & (rl & Hrl & Lrl) & (rr & Hrr & Lrr) & ND & RT) Dmin Dmax.
  apply NoDup7 in ND.
  destruct ND as ((n1 & n2 & n3 & n4 & n5 & n6) & (n7 & n8 & n9 & n10 & n11)
                  & (n12 & n13 & n14 & n15) & (n16 & n17 & n18)
                  & (n19 & n20) & n21).
  repeat match goal with
         | H : Forall _ (_ :: _) |- _ => inversion H; clear H; subst
         end.
  (* the left child *)
  destruct (ChangeToLeaf_spec t (cleft r) float_zero l ll lr)
    as (tA & CA & FA & PA & SA & VA & NA); auto; try bounds.
  assert (HrA : at_ (nodes tA) rid = Done r).
  { rewrite NA. repeat (case_eqb; try congruence); auto. }
  assert (HcA : at_ (nodes tA) (cright r) = Done c).
  { rewrite NA. repeat (case_eqb; try congruence); auto. }
  assert (HrlA : at_ (nodes tA) (cleft c) = Done rl).
  { rewrite NA. repeat (case_eqb; try congruence); auto. }
  assert (HrrA : at_ (nodes tA) (cright c) = Done rr).
  { rewrite NA. repeat (case_eqb; try congruence); auto. }
  (* the right child *)
  destruct (ChangeToLeaf_spec tA (cright r) float_zero c rl rr)
    as (tB & CB & FB & PB & SB & VB & NB); auto;
    try (rewrite PA; simpl; bounds).
  assert (HrB : at_ (nodes tB) rid = Done r).
  { rewrite NB. repeat (case_eqb; try congruence); auto. }
  assert (HlB : at_ (nodes tB) (cleft r) = Done (set_leaf l float_zero (-1))).
  { rewrite NB. repeat (case_eqb; try congruence).
    all: rewrite NA; repeat (case_eqb; try congruence); auto. }
  assert (HcB : at_ (nodes tB) (cright r) = Done (set_leaf c float_zero (-1))).
  { rewrite NB. repeat (case_eqb; try congruence); auto. }
  (* the node itself *)
  destruct (ChangeToLeaf_spec tB rid value r _ _ HrB HlB eq_refl HcB eq_refl)
    as (tC & CC & FC & PC & SC & VC & NC); auto;
    try (rewrite PB, PA; simpl; bounds).
  exists tC. split; [|split; [|split; [|split; [|split; [|split; [|split]]]]]].
  - change (CollapseToLeaf' (S (S fuel)) t rid value)
      with (r0 <- at_ (nodes t) rid ;;
            if is_leaf r0 then Done t
            else
              l0 <- at_ (nodes t) (cleft r0) ;;
              t1 <- (if negb (is_leaf l0)
                     then CollapseToLeaf' (S fuel) t (cleft r0) float_zero
                     else Done t) ;;
              r1 <- at_ (nodes t1) rid ;;
              c0 <- at_ (nodes t1) (cright r1) ;;
              t2 <- (if negb (is_leaf c0)
                     then CollapseToLeaf' (S fuel) t1 (cright r1) float_zero
                     else Done t1) ;;
              ChangeToLeaf t2 rid value).
    rewrite Hr; cbn [bind]. rewrite Lr, Hl; cbn [bind]. rewrite Ll; cbn [negb].
    rewrite (CollapseToLeaf_depth1 fuel t (cleft r) float_zero l ll lr); auto.
    rewrite CA; cbn [bind]. rewrite HrA; cbn [bind]. rewrite HcA; cbn [bind].
    rewrite Lc; cbn [negb].
    rewrite (CollapseToLeaf_depth1 fuel tA (cright r) float_zero c rl rr); auto.
    rewrite CB; cbn [bind]. exact CC.
  - rewrite FC, FB, FA. rewrite <- !app_assoc. reflexivity.
  - rewrite PC, PB, PA. simpl. bounds.
  - intros i. unfold live. rewrite NC, NB, NA.
    repeat (case_eqb; subst; try congruence);
      try (split;
           [ intros (nd & [= <-] & Hd); rewrite is_deleted_mark_delete in Hd;
             discriminate
           | intros [_ Hni]; exfalso; apply Hni; simpl; auto 10 ]).
    + rewrite Hr. split.
      * intros (nd & [= <-] & Hd).
        split; [exists r; auto | simpl; intuition congruence].
      * intros [(nd & [= <-] & Hd) _]. eexists; split; [reflexivity | exact Hd].
    + split; [intros H; split; [exact H | simpl; intuition congruence] | tauto].
  - exists (set_leaf r value (-1)). rewrite NC.
    rewrite Z.eqb_refl. repeat split; auto.
  - rewrite PC, PB, PA. reflexivity.
  - rewrite SC, SB, SA. reflexivity.
  - rewrite VC, VB, VA. reflexivity.
Qed.

End ArenaFacts.

(* ================================================================= *)
(** ** The codec: [Save] and [Load] *)

Lemma int_raw_roundtrip (z : Z) : int_ok z -> int_of_raw (int_to_raw z) = z.
Proof.
  intros H. unfold int_of_raw, int_to_raw. rewrite le_combine_split.
  change (Z.of_nat 4 * 8) with 32. now apply to_int_mod.
Qed.

Lemma unsigned_raw_roundtrip (z : Z) :
  unsigned_ok z -> unsigned_of_raw (unsigned_to_raw z) = z.
Proof.
  intros H. unfold unsigned_of_raw, unsigned_to_raw. rewrite le_combine_split.
  change (Z.of_nat 4 * 8) with 32. apply Z.mod_small.
  unfold unsigned_ok, UINT_MAX in H. lia.
Qed.

Lemma uint64_raw_roundtrip (z : Z) :
  0 <= z < 2 ^ 64 -> uint64_of_raw (uint64_to_raw z) = z.
Proof.
  intros H. unfold uint64_of_raw, uint64_to_raw. rewrite le_combine_split.
  change (Z.of_nat 8 * 8) with 64. now apply Z.mod_small.
Qed.

Lemma int_raw_range (bs : list byte) : int_ok (int_of_raw bs).
Proof. apply to_int_range. Qed.

Section ListFacts.
Context {A : Type}.
Implicit Types (a b : list A).

Lemma firstn_exact a b n : length a = n -> firstn n (a ++ b) = a.
Proof.
  intros <-. rewrite firstn_app, Nat.sub_diag, firstn_all. simpl.
  apply app_nil_r.
Qed.

Lemma skipn_exact a b n : length a = n -> skipn n (a ++ b) = b.
Proof.
  intros <-. rewrite skipn_app, Nat.sub_diag, skipn_all. reflexivity.
Qed.

Lemma skipn_past a b n m : length a = n -> skipn (n + m) (a ++ b) = skipn m b.
Proof.
  intros <-. rewrite skipn_app, skipn_all2 by lia. simpl. f_equal. lia.
Qed.

End ListFacts.

Lemma length_flat_map_const {A B : Type} (f : A -> list B) (n : nat) (l : list A) :
  Forall (fun x => length (f x) = n) l ->
  length (flat_map f l) = (n * length l)%nat.
Proof.
  induction 1 as [|x l Hx Hl IH]; simpl; [lia|].
  rewrite length_app, IH, Hx. lia.
Qed.

Lemma chunks_flat_map {A : Type} (f : A -> list byte) (n : nat) (l : list A)
  (rest : list byte) :
  Forall (fun x => length (f x) = n) l ->
  chunks n (length l) (flat_map f l ++ rest) = map f l.
Proof.
  induction 1 as [|x l Hx Hl IH]; simpl; [reflexivity|].
  rewrite <- app_assoc. rewrite firstn_exact, skipn_exact by assumption.
  now rewrite IH.
Qed.

Lemma chunks_flat_map_all {A : Type} (f : A -> list byte) (n k : nat)
  (l : list A) :
  Forall (fun x => length (f x) = n) l -> length l = k ->
  chunks n k (flat_map f l) = map f l.
Proof.
  intros H <-. rewrite <- (app_nil_r (flat_map f l)).
  now apply chunks_flat_map.
Qed.

Lemma map_roundtrip {A B : Type} (f : A -> B) (g : B -> A) (P : A -> Prop)
  (l : list A) :
  (forall x, P x -> g (f x) = x) -> Forall P l -> map g (map f l) = l.
Proof.
  intros H. induction 1 as [|x l Hx Hl IH]; simpl; [reflexivity|].
  now rewrite H, IH.
Qed.

Lemma TreeParam_raw_length (p : TreeParam) :
  length (reserved p) = 31%nat ->
  length (TreeParam_to_raw p) = sizeof_TreeParam.
Proof.
  intros H. unfold TreeParam_to_raw.
  rewrite (length_flat_map_const _ 4%nat).
  - rewrite length_app, H. reflexivity.
  - apply Forall_forall. intros x _. apply length_le_split.
Qed.

Lemma TreeParam_raw_roundtrip (p : TreeParam) :
  TreeParam_ok p -> TreeParam_of_raw (TreeParam_to_raw p) = p.
Proof.
  intros (H1 & H2 & H3 & H4 & H5 & H6 & HR & HL).
  unfold TreeParam_of_raw, TreeParam_to_raw.
  set (ws := [num_roots p; num_nodes p; num_deleted p; max_depth p;
              num_feature p; size_leaf_vector p] ++ reserved p).
  assert (L : length ws = 37%nat) by (unfold ws; rewrite length_app, HL; reflexivity).
  rewrite <- L. rewrite <- (app_nil_r (flat_map int_to_raw ws)).
  rewrite chunks_flat_map
    by (apply Forall_forall; intros x _; apply length_le_split).
  rewrite (map_roundtrip int_to_raw int_of_raw int_ok ws int_raw_roundtrip).
  - destruct p; reflexivity.
  - unfold ws. apply Forall_app. split; [|exact HR].
    repeat (apply Forall_cons; [assumption|]). apply Forall_nil.
Qed.

Section CodecFacts.
Context {bst_float : Type} {TNodeStat : Type}.
Context {Raw_float : Raw bst_float} {Raw_stat : Raw TNodeStat}.
Variable float_zero : bst_float.
Variable stat_zero : TNodeStat.
Variable uninit_int : Z.
Variable uninit_info : bst_float.

Local Abbreviation Tree := (TreeModel bst_float TNodeStat).
Local Abbreviation Load' := (Load stat_zero uninit_int uninit_info).
Local Abbreviation Load_records' := (Load_records stat_zero uninit_int uninit_info).
Implicit Types (t : Tree) (n : Node bst_float).

Lemma Node_raw_length n :
  Node_ok n -> length (Node_to_raw n) = sizeof_Node bst_float.
Proof.
  intros (_ & _ & _ & _ & [HL _]). unfold Node_to_raw, sizeof_Node.
  rewrite !length_app. unfold int_to_raw, unsigned_to_raw.
  rewrite !length_le_split, HL. lia.
Qed.

Lemma Node_raw_roundtrip n : Node_ok n -> Node_of_raw (Node_to_raw n) = n.
Proof.
  intros (H1 & H2 & H3 & H4 & [HL HR]). unfold Node_of_raw, Node_to_raw.
  assert (L : forall z, length (int_to_raw z) = 4%nat)
    by (intros; apply length_le_split).
  assert (L' : forall z, length (unsigned_to_raw z) = 4%nat)
    by (intros; apply length_le_split).
  rewrite (firstn_exact _ _ 4) by apply L.
  rewrite (skipn_exact _ _ 4) by apply L.
  rewrite (firstn_exact _ _ 4) by apply L.
  rewrite (skipn_past _ _ 4 4) by apply L.
  rewrite (skipn_exact _ _ 4) by apply L.
  rewrite (firstn_exact _ _ 4) by apply L.
  rewrite (skipn_past _ _ 4 8) by apply L.
  rewrite (skipn_past _ _ 4 4) by apply L.
  rewrite (skipn_exact _ _ 4) by apply L.
  rewrite (firstn_exact _ _ 4) by apply L'.
  rewrite (skipn_past _ _ 4 12) by apply L.
  rewrite (skipn_past _ _ 4 8) by apply L.
  rewrite (skipn_past _ _ 4 4) by apply L.
  rewrite (skipn_exact _ _ 4) by apply L'.
  rewrite !int_raw_roundtrip, unsigned_raw_roundtrip, HR by assumption.
  destruct n; reflexivity.
Qed.

(** The loop that rebuilds the free list collects the marked indices. *)
Lemma scan_deleted_marked (ns : list (Node bst_float)) (count : nat) :
  forall (lo : Z) (acc : list Z),
    (count <> O -> 0 <= lo /\ lo + Z.of_nat count <= Z.of_nat (length ns)) ->
    scan_deleted ns lo count acc = Done (acc ++ marked_deleted ns lo count).
Proof.
  induction count as [|c IH]; intros lo acc Hb.
  - simpl. now rewrite app_nil_r.
  - destruct Hb as [Hlo Hhi]; [congruence|].
    cbn [scan_deleted].
    destruct (nth_error ns (Z.to_nat lo)) as [n|] eqn:E.
    2:{ apply nth_error_None in E. lia. }
    rewrite (at_in _ _ _ Hlo E). cbn [bind].
    rewrite IH by lia.
    unfold marked_deleted. cbn [seq map filter].
    rewrite Z.add_0_r, (at_in _ _ _ Hlo E).
    rewrite <- seq_shift, map_map.
    replace (map (fun k => lo + 1 + Z.of_nat k) (seq 0 c))
      with (map (fun k => lo + Z.of_nat (S k)) (seq 0 c))
      by (apply map_ext; intros; lia).
    destruct (is_deleted n); unfold push_back; [rewrite <- app_assoc|];
      reflexivity.
Qed.

(** Whenever the loop returns, it returns the marked indices. *)
Lemma scan_deleted_Done (ns : list (Node bst_float)) (count : nat) :
  forall (lo : Z) (acc dn : list Z),
    scan_deleted ns lo count acc = Done dn ->
    dn = acc ++ marked_deleted ns lo count /\
    (count <> O -> 0 <= lo /\ lo + Z.of_nat count <= Z.of_nat (length ns)).
Proof.
  induction count as [|c IH]; intros lo acc dn H.
  - simpl in H. injection H as <-. split; [now rewrite app_nil_r | congruence].
  - cbn [scan_deleted] in H. inv_bind H.
    pose proof (at_Done_lt _ _ _ E) as Hlt.
    apply IH in H as [-> Hc].
    split.
    + unfold marked_deleted. cbn [seq map filter].
      rewrite Z.add_0_r, E. rewrite <- seq_shift, map_map.
      replace (map (fun k => lo + 1 + Z.of_nat k) (seq 0 c))
        with (map (fun k => lo + Z.of_nat (S k)) (seq 0 c))
        by (apply map_ext; intros; lia).
      destruct (is_deleted a); unfold push_back; [rewrite <- app_assoc|];
        reflexivity.
    + intros _. destruct c; [lia|]. specialize (Hc ltac:(congruence)). lia.
Qed.

Lemma marked_deleted_In (ns : list (Node bst_float)) (lo : Z) (count : nat) (i : Z) :
  In i (marked_deleted ns lo count) <->
  lo <= i < lo + Z.of_nat count /\
  exists n, at_ ns i = Done n /\ is_deleted n = true.
Proof.
  unfold marked_deleted. rewrite filter_In, in_map_iff. split.
  - intros [(k & <- & Hk) H]. apply in_seq in Hk. split; [lia|].
    destruct (at_ ns (lo + Z.of_nat k)); [eauto | discriminate].
  - intros [Hi (n & Hn & Hd)]. split.
    + exists (Z.to_nat (i - lo)). split; [lia|]. apply in_seq. lia.
    + now rewrite Hn.
Qed.

Lemma length_marked_deleted (ns : list (Node bst_float)) (lo : Z) (count : nat) :
  (length (marked_deleted ns lo count) <= count)%nat.
Proof.
  unfold marked_deleted.
  etransitivity; [apply filter_length_le|]. now rewrite length_map, length_seq.
Qed.

Lemma Write_vec_app {T : Type} {RT : Raw T} (fo : Stream) (v : list T) :
  Write_vec fo v = fo ++ Write_vec [] v.
Proof.
  unfold Write_vec, Write. destruct (length v =? 0)%nat; cbn [app];
    [reflexivity | now rewrite app_assoc].
Qed.

Lemma Read_vec_Write_vec {T : Type} {RT : Raw T} (v : list T) (rest : Stream) :
  Forall raw_ok v -> Z.of_nat (length v) < 2 ^ 64 ->
  Read_vec (Write_vec [] v ++ rest) = Some (v, rest).
Proof.
  intros Hv Hlen.
  assert (HL : Forall (fun x => length (to_raw x) = sizeof) v)
    by (eapply Forall_impl; [|exact Hv]; intros x [H _]; exact H).
  set (hdr := uint64_to_raw (Z.of_nat (length v))).
  set (body := if (length v =? 0)%nat then [] else flat_map to_raw v).
  assert (L8 : length hdr = 8%nat) by apply length_le_split.
  assert (Hs : Write_vec [] v ++ rest = hdr ++ body ++ rest).
  { unfold Write_vec, Write, body, hdr.
    destruct (length v =? 0)%nat; cbn [app]; rewrite <- ?app_assoc; reflexivity. }
  unfold Read_vec, Read. rewrite Hs.
  rewrite (firstn_exact hdr _ 8), (skipn_exact hdr _ 8) by exact L8.
  rewrite L8. cbn [Nat.eqb negb]. unfold hdr.
  rewrite uint64_raw_roundtrip, Nat2Z.id by lia.
  unfold body. destruct (length v =? 0)%nat eqn:E.
  - apply Nat.eqb_eq in E. destruct v; [|discriminate]. reflexivity.
  - assert (LB : length (flat_map to_raw v) = (sizeof * length v)%nat)
      by (apply length_flat_map_const; exact HL).
    rewrite (firstn_exact (flat_map to_raw v) rest), (skipn_exact (flat_map to_raw v) rest)
      by exact LB.
    rewrite LB, Nat.eqb_refl.
    rewrite <- (app_nil_r (flat_map to_raw v)).
    rewrite chunks_flat_map by exact HL.
    rewrite (map_roundtrip to_raw of_raw raw_ok v); auto.
    intros x [_ H]. exact H.
Qed.

Lemma num_nodes_of_raw_ok (bs : list byte) :
  int_ok (num_nodes (TreeParam_of_raw bs)).
Proof. unfold TreeParam_of_raw. cbn. apply int_raw_range. Qed.

(** [Save] on a well-formed tree writes its [image]. *)
Lemma Save_image t (fo : Stream) :
  TreeModel_ok t ->
  Z.of_nat (length (nodes t)) = num_nodes (param t) ->
  Z.of_nat (length (stats t)) = num_nodes (param t) ->
  num_nodes (param t) <> 0 ->
  Save t fo = Done (fo ++ image t).
Proof.
  intros (HP & _) Ln Ls Hnz.
  destruct HP as (_ & Hn & _).
  unfold Save, image, Write.
  rewrite Ln, Ls, to_int_id, Z.eqb_refl by exact Hn. cbn [CHECK bind].
  replace (num_nodes (param t) =? 0) with false
    by (symmetry; apply Z.eqb_neq; exact Hnz).
  cbn [negb CHECK bind].
  rewrite firstn_all2 by lia.
  destruct (negb (size_leaf_vector (param t) =? 0)).
  - rewrite Write_vec_app. now rewrite <- !app_assoc.
  - now rewrite app_nil_r, <- !app_assoc.
Qed.

(** [Load] of an image followed by anything. *)
Lemma Load_image t t0 (rest : Stream) :
  TreeModel_ok t ->
  Z.of_nat (length (nodes t)) = num_nodes (param t) ->
  Z.of_nat (length (stats t)) = num_nodes (param t) ->
  num_nodes (param t) <> 0 ->
  0 <= num_roots (param t) ->
  (size_leaf_vector (param t) = 0 -> leaf_vector t0 = leaf_vector t) ->
  Load' t0 (image t ++ rest) =
    (CHECK (Z.of_nat (length (marked_nonroot t)) =? num_deleted (param t)) ;;;
     Done ({| nodes := nodes t; deleted_nodes := marked_nonroot t;
              stats := stats t; leaf_vector := leaf_vector t;
              param := param t |}, rest)).
Proof.
  intros (HP & HN & HS & HV & HVL) Ln Ls Hnz Hroots Hlv.
  pose proof HP as (_ & Hn & Hd & _ & _ & _ & _ & HRL).
  assert (LP : length (TreeParam_to_raw (param t)) = sizeof_TreeParam)
    by (apply TreeParam_raw_length; exact HRL).
  assert (HNL : Forall (fun n => length (Node_to_raw n) = sizeof_Node bst_float)
                  (nodes t))
    by (eapply Forall_impl; [|exact HN]; intros n; apply Node_raw_length).
  assert (HSL : Forall (fun x => length (to_raw x) = sizeof (T := TNodeStat))
                  (stats t))
    by (eapply Forall_impl; [|exact HS]; intros x [H _]; exact H).
  assert (N0 : 0 <= num_nodes (param t)) by lia.
  unfold Load, Load_records, Read, image. rewrite <- !app_assoc.
  rewrite firstn_exact, skipn_exact by exact LP.
  rewrite LP, Nat.eqb_refl. cbn [CHECK bind].
  rewrite TreeParam_raw_roundtrip by exact HP.
  unfold resize.
  replace (num_nodes (param t) <? 0) with false
    by (symmetry; apply Z.ltb_ge; lia).
  cbn [bind].
  replace (num_nodes (param t) =? 0) with false
    by (symmetry; apply Z.eqb_neq; exact Hnz).
  cbn [negb CHECK bind]. rewrite !length_resized.
  set (k := Z.to_nat (num_nodes (param t))).
  assert (Kn : length (nodes t) = k) by (unfold k; lia).
  assert (Ks : length (stats t) = k) by (unfold k; lia).
  assert (LN : length (flat_map Node_to_raw (nodes t))
               = (sizeof_Node bst_float * k)%nat)
    by (rewrite <- Kn; apply length_flat_map_const; exact HNL).
  assert (LS : length (flat_map to_raw (stats t)) = (sizeof * k)%nat)
    by (rewrite <- Ks; apply length_flat_map_const; exact HSL).
  rewrite (firstn_exact (flat_map Node_to_raw (nodes t))),
    (skipn_exact (flat_map Node_to_raw (nodes t))) by exact LN.
  rewrite LN, Nat.eqb_refl. cbn [CHECK bind].
  rewrite (chunks_flat_map_all Node_to_raw _ k (nodes t)) by assumption.
  rewrite (map_roundtrip Node_to_raw Node_of_raw Node_ok (nodes t))
    by (auto using Node_raw_roundtrip).
  rewrite (firstn_exact (flat_map to_raw (stats t))),
    (skipn_exact (flat_map to_raw (stats t))) by exact LS.
  rewrite LS, Nat.eqb_refl. cbn [CHECK bind].
  rewrite (chunks_flat_map_all to_raw _ k (stats t)) by assumption.
  rewrite (map_roundtrip to_raw of_raw raw_ok (stats t))
    by (auto; intros x [_ H]; exact H).
  assert (Scan : scan_deleted (nodes t) (num_roots (param t))
                   (Z.to_nat (num_nodes (param t) - num_roots (param t))) []
                 = Done (marked_nonroot t)).
  { rewrite scan_deleted_marked; [reflexivity|]. intros Hc. lia. }
  destruct (size_leaf_vector (param t) =? 0) eqn:E; cbn [negb].
  - apply Z.eqb_eq in E. cbn [app bind nodes param stats leaf_vector].
    rewrite Scan. cbn [bind].
    rewrite to_int_id.
    2:{ pose proof (length_marked_deleted (nodes t) (num_roots (param t))
                      (Z.to_nat (num_nodes (param t) - num_roots (param t)))).
        unfold marked_nonroot, int_ok, INT_MIN, INT_MAX in *. lia. }
    rewrite Hlv by exact E. reflexivity.
  - rewrite Read_vec_Write_vec by assumption.
    cbn [bind nodes param stats leaf_vector]. rewrite Scan.
    cbn [bind].
    rewrite to_int_id.
    2:{ pose proof (length_marked_deleted (nodes t) (num_roots (param t))
                      (Z.to_nat (num_nodes (param t) - num_roots (param t)))).
        unfold marked_nonroot, int_ok, INT_MIN, INT_MAX in *. lia. }
    reflexivity.
Qed.

Lemma length_chunks (n k : nat) (bs : list byte) : length (chunks n k bs) = k.
Proof.
  revert bs; induction k as [|k IH]; intros bs; simpl; [reflexivity|].
  now rewrite IH.
Qed.

(** What [Load_records] guarantees about the tree it returns. *)
Lemma Load_records_Done t fi r fi1 :
  Load_records' t fi = Done (r, fi1) ->
  int_ok (num_nodes (param r)) /\ num_nodes (param r) <> 0 /\
  Z.of_nat (length (nodes r)) = num_nodes (param r) /\
  Z.of_nat (length (stats r)) = num_nodes (param r).
Proof.
  unfold Load_records, Read. intros H.
  set (p := TreeParam_of_raw (firstn sizeof_TreeParam fi)) in *.
  pose proof (num_nodes_of_raw_ok (firstn sizeof_TreeParam fi)) as Hp.
  fold p in Hp.
  inv_CHECK H. inv_bind H. inv_bind H. inv_CHECK H. inv_CHECK H. inv_CHECK H.
  inv_bind H. destruct a1 as [lv fi2]. injection H as <- <-.
  cbn [nodes stats param].
  apply resize_Done in E as [Hn ->]. apply resize_Done in E0 as [_ ->].
  rewrite !length_map, !length_chunks, !length_resized.
  apply negb_true_iff, Z.eqb_neq in C0. unfold int_ok in Hp.
  repeat split; auto; lia.
Qed.

(** What a successful [Load] guarantees about the free list. *)
Lemma Load_Done_free_list t fi t' fi' :
  Load' t fi = Done (t', fi') ->
  deleted_nodes t' = marked_nonroot t' /\
  Z.of_nat (length (deleted_nodes t')) = num_deleted (param t').
Proof.
  unfold Load. intros H. inv_bind H. destruct a as [r fi1].
  inv_bind H. inv_CHECK H. injection H as <- <-. cbn.
  apply Load_records_Done in E as (Hn & Hnz & Ln & _).
  apply scan_deleted_Done in E0 as [-> Hb]. cbn [app] in *.
  split; [reflexivity|].
  apply Z.eqb_eq in C. rewrite <- C. symmetry. apply to_int_id.
  pose proof (length_marked_deleted (nodes r) (num_roots (param r))
                (Z.to_nat (num_nodes (param r) - num_roots (param r)))).
  unfold int_ok, INT_MIN, INT_MAX in *. lia.
Qed.

(** C3.  Let [t] be a tree whose fields are data of their
    types, with [num_nodes] nonzero and equal to the sizes of the node and
    stat arrays (the preconditions of [Save]), with a nonnegative root
    count, and in which the non-root nodes carrying the deletion mark are as
    many as [num_deleted]: the bookkeeping of [DeleteNode], which the reuse
    path of [AllocNode] breaks.  Then [Save] writes the image of [t], and [Load]
    (on a tree [t0] whose leaf vector is that of [t] when the leaf-vector
    width is zero) reads it back, consuming exactly the image: the
    parameter block, every node, every stat and every leaf-vector entry
    are those of [t], and the rebuilt free list is as long as the stored
    deleted count. *)
Theorem Save_Load_roundtrip t t0 (fo rest : Stream) :
  TreeModel_ok t ->
  Z.of_nat (length (nodes t)) = num_nodes (param t) ->
  Z.of_nat (length (stats t)) = num_nodes (param t) ->
  num_nodes (param t) <> 0 ->
  0 <= num_roots (param t) ->
  Z.of_nat (length (marked_nonroot t)) = num_deleted (param t) ->
  (size_leaf_vector (param t) = 0 -> leaf_vector t0 = leaf_vector t) ->
  exists bytes t',
    Save t fo = Done (fo ++ bytes) /\
    Load' t0 (bytes ++ rest) = Done (t', rest) /\
    param t' = param t /\ nodes t' = nodes t /\ stats t' = stats t /\
    leaf_vector t' = leaf_vector t /\
    deleted_nodes t' = marked_nonroot t /\
    Z.of_nat (length (deleted_nodes t')) = num_deleted (param t).
Proof.
  intros Hok Ln Ls Hnz Hroots Hmark Hlv.
  exists (image t). eexists. split; [now apply Save_image|].
  rewrite Load_image by assumption.
  rewrite Hmark, Z.eqb_refl. cbn [CHECK bind].
  split; [reflexivity|]. cbn. repeat split; auto.
Qed.

(** C8.  [Load] aborts on a failed check when the stored [num_nodes] is 0.
    Once the records are read, it scans the indices from [num_roots] up to
    [num_nodes] for the deletion mark; when the number of marked nodes
    differs from the stored [num_deleted] it aborts on a failed check; and
    when it returns, the free list holds exactly the indices in
    [[num_roots, num_nodes)] whose node carries the mark, in increasing
    order, and is as long as [num_deleted]. *)
Theorem Load_integrity t (fi : Stream) :
  (num_nodes (TreeParam_of_raw (firstn sizeof_TreeParam fi)) = 0 ->
   Load' t fi = Abort CheckFailed) /\
  (forall r fi1 dn,
      Load_records' t fi = Done (r, fi1) ->
      scan_deleted (nodes r) (num_roots (param r))
        (Z.to_nat (num_nodes (param r) - num_roots (param r))) [] = Done dn ->
      Z.of_nat (length dn) <> num_deleted (param r) ->
      Load' t fi = Abort CheckFailed) /\
  (forall t' fi',
      Load' t fi = Done (t', fi') ->
      deleted_nodes t' = marked_nonroot t' /\
      Z.of_nat (length (deleted_nodes t')) = num_deleted (param t') /\
      forall i, In i (deleted_nodes t') <->
                num_roots (param t') <= i < num_nodes (param t') /\
                exists n, at_ (nodes t') i = Done n /\ is_deleted n = true).
Proof.
  split; [|split].
  - intros H0. unfold Load, Load_records, Read. rewrite H0.
    destruct (length (firstn sizeof_TreeParam fi) =? sizeof_TreeParam)%nat;
      reflexivity.
  - intros r fi1 dn HR HS Hne. unfold Load. rewrite HR. cbn [bind].
    rewrite HS. cbn [bind].
    apply Load_records_Done in HR as (Hn & Hnz & Ln & _).
    apply scan_deleted_Done in HS as [-> Hb]. cbn [app] in *.
    rewrite to_int_id.
    + replace (_ =? _) with false by (symmetry; apply Z.eqb_neq; exact Hne).
      reflexivity.
    + pose proof (length_marked_deleted (nodes r) (num_roots (param r))
                    (Z.to_nat (num_nodes (param r) - num_roots (param r)))).
      unfold int_ok, INT_MIN, INT_MAX in *. lia.
  - intros t' fi' H. destruct (Load_Done_free_list _ _ _ _ H) as [Hd Hl].
    split; [exact Hd|]. split; [exact Hl|].
    intros i. rewrite Hd. unfold marked_nonroot. rewrite marked_deleted_In.
    split; intros [Hi Hn]; (split; [lia | exact Hn]).
Qed.

Lemma CollapseToLeaf_free_list fuel :
  forall t rid value t',
    CollapseToLeaf float_zero fuel t rid value = Done t' ->
    Z.of_nat (length (deleted_nodes t)) = num_deleted (param t) ->
    Z.of_nat (length (deleted_nodes t')) = num_deleted (param t').
Proof.
  induction fuel as [|fuel IH]; intros t rid value t' H Hinv;
    [discriminate|].
  cbn [CollapseToLeaf] in H. inv_bind H.
  destruct (is_leaf a); [injection H as <-; exact Hinv|].
  inv_bind H. inv_bind H. inv_bind H. inv_bind H. inv_bind H.
  assert (H1 : Z.of_nat (length (deleted_nodes a1)) = num_deleted (param a1)).
  { destruct (negb (is_leaf a0)); [eapply IH; eauto | now injection E1 as <-]. }
  assert (H2 : Z.of_nat (length (deleted_nodes a4)) = num_deleted (param a4)).
  { destruct (negb (is_leaf a3)); [eapply IH; eauto | now injection E4 as <-]. }
  apply ChangeToLeaf_Done in H
    as (r & l & c & t1 & t2 & r2 & _ & _ & _ & _ & _ & D1 & (r1 & _ & D2) & _ & ->).
  apply DeleteNode_Done in D1 as (n1 & _ & _ & _ & ->).
  apply DeleteNode_Done in D2 as (n2 & _ & _ & _ & ->).
  cbn in *. rewrite !length_app. cbn. lia.
Qed.

(** C7.  In every state a tree reaches from the constructor through calls
    of [AllocNode], [DeleteNode], [ChangeToLeaf], [CollapseToLeaf] and
    [Load] that return normally, the free list is as long as
    [num_deleted]. *)
Theorem free_list_length_invariant t :
  reachable float_zero stat_zero uninit_int uninit_info t ->
  Z.of_nat (length (deleted_nodes t)) = num_deleted (param t).
Proof.
  induction 1 as [| t nd t' _ IH HA | t nid t' _ IH HD | t rid v t' _ IH HC
                  | t fuel rid v t' _ IH HC | t fi t' fi' _ IH HL].
  - reflexivity.
  - destruct (Z.eq_dec (num_deleted (param t)) 0) as [Hz|Hnz].
    + pose proof (AllocNode_mint _ _ _ _ _ _ _ Hz HA) as M. cbv zeta in M.
      destruct M as (_ & _ & _ & _ & _ & -> & ->). exact IH.
    + destruct (AllocNode_reuse _ _ _ _ _ _ _ Hnz HA) as [Hb ->].
      apply back_Done in Hb. rewrite Hb in IH. unfold push_back in IH.
      rewrite length_app in IH. cbn in *. lia.
  - apply DeleteNode_Done in HD as (n & _ & _ & _ & ->). cbn.
    rewrite length_app. cbn. lia.
  - apply ChangeToLeaf_Done in HC
      as (r & l & c & t1 & t2 & r2 & _ & _ & _ & _ & _ & D1 & (r1 & _ & D2) & _ & ->).
    apply DeleteNode_Done in D1 as (n1 & _ & _ & _ & ->).
    apply DeleteNode_Done in D2 as (n2 & _ & _ & _ & ->).
    cbn in *. rewrite !length_app. cbn. lia.
  - eapply CollapseToLeaf_free_list; eauto.
  - now destruct (Load_Done_free_list _ _ _ _ HL).
Qed.

End CodecFacts.

(* ================================================================= *)
(** ** Concrete trees *)

Module Demo.

Definition f32 (z : Z) : binary32 := of_int z.

Definition stat_of (h : binary32) : RTreeNodeStat binary32 :=
  {| loss_chg := f32 0; sum_hess := h; base_weight := f32 0;
     leaf_child_cnt := 0 |}.

Definition stat0 : RTreeNodeStat binary32 := stat_of (f32 0).

(** An internal node and a leaf. *)
Definition inner (parent left right sindex : Z) (cond : binary32)
  : Node binary32 :=
  {| parent_ := parent; cleft_ := left; cright_ := right; sindex_ := sindex;
     info_ := cond |}.
Definition leaf (parent : Z) (value : binary32) : Node binary32 :=
  {| parent_ := parent; cleft_ := -1; cright_ := -1; sindex_ := 0;
     info_ := value |}.

Definition param_of (n : Z) : TreeParam :=
  {| num_roots := 1; num_nodes := n; num_deleted := 0; max_depth := 0;
     num_feature := 2; size_leaf_vector := 0; reserved := repeat 0 31 |}.

Definition Tree : Type := TreeModel binary32 (RTreeNodeStat binary32).

(** A root with two leaves. *)
Definition tree3 : Tree :=
  {| nodes := [inner (-1) 1 2 0 (f32 1); leaf 0 (f32 10); leaf 0 (f32 20)];
     deleted_nodes := []; stats := [stat_of (f32 2); stat_of (f32 1); stat_of (f32 1)];
     leaf_vector := []; param := param_of 3 |}.

(** A full tree of depth 2 whose leaves hold 1, 2, 3 and 4. *)
Definition tree7 : Tree :=
  {| nodes := [inner (-1) 1 2 0 (f32 1); inner 0 3 4 1 (f32 1);
               inner 0 5 6 1 (f32 2);
               leaf 1 (f32 1); leaf 1 (f32 2); leaf 2 (f32 3); leaf 2 (f32 4)];
     deleted_nodes := [];
     stats := [stat_of (f32 4); stat_of (f32 2); stat_of (f32 2); stat_of (f32 1);
               stat_of (f32 1); stat_of (f32 1); stat_of (f32 1)];
     leaf_vector := []; param := param_of 7 |}.

Definition AllocNode_ : Tree -> outcome (Z * Tree) :=
  AllocNode (f32 0) stat0 0 (f32 0).
Definition CollapseToLeaf_ : nat -> Tree -> Z -> binary32 -> outcome Tree :=
  CollapseToLeaf (f32 0).
Definition Load_ : Tree -> Stream -> outcome (Tree * Stream) :=
  Load stat0 0 (f32 0).
Definition new_tree : Tree := TreeModel_new 0 (f32 0).

(** [tree3] after [DeleteNode(2)]. *)
Definition tree3_deleted : Tree :=
  {| nodes := [inner (-1) 1 2 0 (f32 1); leaf 0 (f32 10);
               mark_delete (leaf 0 (f32 20))];
     deleted_nodes := [2]; stats := stats tree3; leaf_vector := [];
     param := set_num_deleted (param_of 3) 1 |}.

(** [tree3] after [ChangeToLeaf(0, 5)]. *)
Definition tree3_changed : Tree :=
  {| nodes := [leaf (-1) (f32 5); mark_delete (leaf 0 (f32 10));
               mark_delete (leaf 0 (f32 20))];
     deleted_nodes := [1; 2]; stats := stats tree3; leaf_vector := [];
     param := set_num_deleted (param_of 3) 2 |}.

(** [tree3_changed] after [AllocNode()] has handed out node 2 again. *)
Definition tree3_realloc : Tree :=
  {| nodes := nodes tree3_changed; deleted_nodes := [1];
     stats := stats tree3; leaf_vector := [];
     param := set_num_deleted (param_of 3) 1 |}.

End Demo.

Ltac concrete_ok :=
  repeat match goal with
         | |- _ /\ _ => split
         | |- Forall _ [] => apply Forall_nil
         | |- Forall _ (_ :: _) => apply Forall_cons
         | |- Forall ?P ?l =>
             let l' := eval vm_compute in l in change (Forall P l')
         | |- TreeModel_ok _ => unfold TreeModel_ok
         | |- TreeParam_ok _ => unfold TreeParam_ok
         | |- Node_ok _ => unfold Node_ok
         | |- int_ok _ => unfold int_ok, INT_MIN, INT_MAX; simpl; lia
         | |- unsigned_ok _ => unfold unsigned_ok, UINT_MAX; simpl; lia
         | |- raw_ok _ => unfold raw_ok
         | |- _ => reflexivity
         | |- _ => simpl; lia
         end.

(** C6, the claim as stated fails on a freshly constructed tree:
    [AllocNode()] mints node 1 there, and while the node array grows by
    one, the stat array grows from 0 to 2 entries and the leaf vector does
    not grow. *)
Lemma AllocNode_fresh_growth :
  exists t',
    Demo.AllocNode_ Demo.new_tree = Done (1, t') /\
    length (nodes Demo.new_tree) = 1%nat /\ length (nodes t') = 2%nat /\
    length (stats Demo.new_tree) = 0%nat /\ length (stats t') = 2%nat /\
    length (leaf_vector Demo.new_tree) = 0%nat /\
    length (leaf_vector t') = 0%nat.
Proof. eexists. repeat split; reflexivity. Qed.

Lemma AllocNode_after_DeleteNode_witness :
  DeleteNode Demo.tree3 2 = Done Demo.tree3_deleted /\
  exists t2,
    Demo.AllocNode_ Demo.tree3_deleted = Done (2, t2) /\
    nodes t2 = nodes Demo.tree3_deleted /\
    deleted_nodes t2 = [].
Proof.
  assert (H1 : INT_MIN <= num_deleted (param Demo.tree3))
    by (unfold INT_MIN; simpl; lia).
  assert (H2 : DeleteNode Demo.tree3 2 = Done Demo.tree3_deleted)
    by reflexivity.
  assert (H3 : num_deleted (param Demo.tree3_deleted) <> 0)
    by (simpl; lia).
  split; [exact H2|].
  destruct (AllocNode_after_DeleteNode (Demo.f32 0) Demo.stat0 0 (Demo.f32 0)
              Demo.tree3 2 Demo.tree3_deleted H1 H2 H3)
    as [(t2 & HA & Hn & _ & _ & _ & Hd & _) _].
  exists t2. auto.
Defined.

(** C9, the claim as stated fails on the full tree of depth 2 with leaves
    1, 2, 3, 4: collapsing its root puts six nodes on the free list and
    leaves one live node out of seven. *)
Lemma CollapseToLeaf_depth2_six :
  exists t',
    Demo.CollapseToLeaf_ 3 Demo.tree7 0 (Demo.f32 9) = Done t' /\
    deleted_nodes t' = [3; 4; 5; 6; 1; 2] /\
    num_deleted (param t') = 6 /\
    map is_deleted (nodes Demo.tree7)
      = [false; false; false; false; false; false; false] /\
    map is_deleted (nodes t')
      = [false; true; true; true; true; true; true].
Proof. eexists. repeat split; reflexivity. Qed.

Lemma CollapseToLeaf_depth2_witness :
  exists t',
    Demo.CollapseToLeaf_ 2 Demo.tree7 0 (Demo.f32 9) = Done t' /\
    deleted_nodes t' = [3; 4; 5; 6; 1; 2] /\
    num_deleted (param t') = 6.
Proof.
  assert (S : depth2_subtree Demo.tree7 0
                (Demo.inner (-1) 1 2 0 (Demo.f32 1))
                (Demo.inner 0 3 4 1 (Demo.f32 1))
                (Demo.inner 0 5 6 1 (Demo.f32 2))).
  { unfold depth2_subtree.
    repeat match goal with
           | |- _ /\ _ => split
           | |- exists _, _ => eexists
           | |- NoDup _ => apply NoDup_cons; [simpl; lia|]
           | |- NoDup [] => apply NoDup_nil
           | |- Forall _ [] => apply Forall_nil
           | |- Forall _ (_ :: _) => apply Forall_cons; [simpl; lia|]
           | |- _ => reflexivity
           end. }
  assert (H1 : INT_MIN <= num_deleted (param Demo.tree7))
    by (unfold INT_MIN; simpl; lia).
  assert (H2 : num_deleted (param Demo.tree7) + 6 <= INT_MAX)
    by (unfold INT_MAX; simpl; lia).
  destruct (CollapseToLeaf_depth2 (Demo.f32 0) 0 Demo.tree7 0 (Demo.f32 9)
              _ _ _ S H1 H2)
    as (t' & HC & Hd & Hn & _).
  exists t'. auto.
Defined.

Lemma CollapseToLeaf_leaf_unchanged_witness :
  Demo.CollapseToLeaf_ 1 Demo.tree3 1 (Demo.f32 9) = Done Demo.tree3.
Proof.
  exact (CollapseToLeaf_leaf_unchanged (Demo.f32 0) 0 Demo.tree3 1 (Demo.f32 9)
           (Demo.leaf 0 (Demo.f32 10)) eq_refl eq_refl).
Defined.

(** C3, the round trip fails on a tree that meets the preconditions of
    [Save]: after [ChangeToLeaf(0, 5)] on a root with two leaves and one
    [AllocNode()], which hands out node 2 again without clearing its mark,
    node 2 is in use and [is_deleted] still holds of it, so two non-root
    nodes carry the deletion mark while [num_deleted] is 1; [Save] writes
    the tree and [Load] aborts on the bytes. *)
Lemma Save_Load_mismatch :
  ChangeToLeaf Demo.tree3 0 (Demo.f32 5) = Done Demo.tree3_changed /\
  Demo.AllocNode_ Demo.tree3_changed = Done (2, Demo.tree3_realloc) /\
  (exists bytes,
    Save Demo.tree3_realloc [] = Done bytes /\
    Demo.Load_ Demo.new_tree bytes = Abort CheckFailed) /\
  deleted_nodes Demo.tree3_realloc = [1] /\
  num_deleted (param Demo.tree3_realloc) = 1 /\
  marked_nonroot Demo.tree3_realloc = [1; 2] /\
  (exists n, at_ (nodes Demo.tree3_realloc) 2 = Done n /\ is_deleted n = true).
Proof.
  split; [reflexivity|]. split; [reflexivity|].
  split; [eexists; split; [reflexivity|]; vm_compute; reflexivity|].
  split; [reflexivity|]. split; [reflexivity|]. split; [reflexivity|].
  eexists. split; reflexivity.
Qed.

Lemma Save_Load_roundtrip_witness :
  exists bytes t',
    Save Demo.tree3_changed [] = Done bytes /\
    Demo.Load_ Demo.new_tree bytes = Done (t', []) /\
    nodes t' = nodes Demo.tree3_changed /\
    stats t' = stats Demo.tree3_changed /\
    deleted_nodes t' = [1; 2].
Proof.
  assert (Hok : TreeModel_ok Demo.tree3_changed) by concrete_ok.
  assert (Ln : Z.of_nat (length (nodes Demo.tree3_changed))
               = num_nodes (param Demo.tree3_changed)) by reflexivity.
  assert (Ls : Z.of_nat (length (stats Demo.tree3_changed))
               = num_nodes (param Demo.tree3_changed)) by reflexivity.
  assert (Hnz : num_nodes (param Demo.tree3_changed) <> 0) by (simpl; lia).
  assert (Hr : 0 <= num_roots (param Demo.tree3_changed)) by (simpl; lia).
  assert (Hm : Z.of_nat (length (marked_nonroot Demo.tree3_changed))
               = num_deleted (param Demo.tree3_changed)) by reflexivity.
  assert (Hlv : size_leaf_vector (param Demo.tree3_changed) = 0 ->
                leaf_vector Demo.new_tree = leaf_vector Demo.tree3_changed)
    by reflexivity.
  destruct (Save_Load_roundtrip Demo.stat0 0 (Demo.f32 0)
              Demo.tree3_changed Demo.new_tree [] [] Hok Ln Ls Hnz Hr Hm Hlv)
    as (bytes & t' & HS & HL & _ & Hn & Hs & _ & Hd & _).
  exists bytes, t'. rewrite app_nil_r in HL. auto.
Defined.

Lemma Load_integrity_witness :
  Demo.Load_ Demo.new_tree (repeat Byte.x00 148) = Abort CheckFailed.
Proof.
  exact (proj1 (Load_integrity Demo.stat0 0 (Demo.f32 0) Demo.new_tree
                  (repeat Byte.x00 148)) eq_refl).
Defined.

Lemma free_list_length_invariant_witness :
  reachable (Demo.f32 0) Demo.stat0 0 (Demo.f32 0) Demo.tree3_realloc /\
  Z.of_nat (length (deleted_nodes Demo.tree3_realloc))
  = num_deleted (param Demo.tree3_realloc).
Proof.
  assert (R : reachable (Demo.f32 0) Demo.stat0 0 (Demo.f32 0)
                Demo.tree3_realloc).
  { eapply reach_AllocNode with (t := Demo.tree3_changed) (nd := 2);
      [|reflexivity].
    eapply reach_ChangeToLeaf
      with (t := Demo.tree3) (rid := 0) (value := Demo.f32 5);
      [|reflexivity].
    eapply reach_Load
      with (t := Demo.new_tree) (fi := image Demo.tree3) (fi' := []);
      [apply reach_new|].
    vm_compute. reflexivity. }
  split; [exact R|].
  exact (free_list_length_invariant (Demo.f32 0) Demo.stat0 0 (Demo.f32 0)
           Demo.tree3_realloc R).
Defined.

(* ================================================================= *)
(** ** Traversal: [GetNext] *)

Lemma SFltb_irrefl (x : spec_float) : SFltb x x = false.
Proof.
  unfold SFltb, SFcompare. destruct x as [s|s| |s m e]; try reflexivity.
  - destruct s; reflexivity.
  - destruct s; rewrite Z.compare_refl, Pos.compare_cont_refl; reflexivity.
Qed.

Lemma default_left_set_split {F : Type} (n : Node F) (idx : Z) (cond : F)
  (dl : bool) :
  0 <= idx < 2 ^ 31 -> default_left (set_split n idx cond dl) = dl.
Proof.
  intros H. unfold default_left, set_split. cbn [sindex_].
  destruct dl.
  - rewrite Z.shiftr_lor. change (Z.shiftr (Z.shiftl 1 31) 31) with 1.
    rewrite Z.shiftr_div_pow2, Z.div_small by lia. reflexivity.
  - rewrite Z.shiftr_div_pow2, Z.div_small by lia. reflexivity.
Qed.

(** C2.  At a node [n] of the tree, [GetNext] returns [cdefault n] when the
    feature value is missing; otherwise it returns the left child when the
    value is less than the split condition and the right child when it is
    not, in particular when the two are equal.  [cdefault n] is the left
    child when the default-left flag is set and the right child otherwise,
    and the flag is the one [set_split] was given, whatever the split
    index stored beside it. *)
Theorem GetNext_routing (t : RegTree binary32) (pid : Z) (n : Node binary32)
  (fvalue : binary32) :
  node_at t pid = Done n ->
  GetNext t pid fvalue true = Done (cdefault n) /\
  (fltb fvalue (split_cond n) = true ->
   GetNext t pid fvalue false = Done (cleft n)) /\
  (fltb fvalue (split_cond n) = false ->
   GetNext t pid fvalue false = Done (cright n)) /\
  GetNext t pid (split_cond n) false = Done (cright n) /\
  cdefault n = (if default_left n then cleft n else cright n) /\
  (forall n0 idx cond dl,
      0 <= idx < 2 ^ 31 -> n = set_split n0 idx cond dl ->
      cdefault n = if dl then cleft n0 else cright n0).
Proof.
  intros Hn. unfold GetNext. rewrite Hn. cbn [bind].
  repeat split.
  - intros ->. reflexivity.
  - intros ->. reflexivity.
  - cbn [fltb Scalar_binary32]. now rewrite SFltb_irrefl.
  - intros n0 idx cond dl Hidx ->. unfold cdefault.
    rewrite default_left_set_split by exact Hidx. reflexivity.
Qed.

Module DemoReg.

(** The tree of the scenario of the specification: a split on feature 0 at
    0.5, then on the left a split on feature 1 at 1.5; leaves 1, 2 and 3;
    hessian sums 10 at the root, 6 and 4 below it, 1 and 5 at the two left
    leaves. *)
Definition half (z : Z) : binary32 := fdiv (of_int z) (of_int 2).

Definition tree5 : RegTree binary32 :=
  {| model :=
       {| nodes := [Demo.inner (-1) 1 2 0 (half 1); Demo.inner 0 3 4 1 (half 3);
                    Demo.leaf 0 (Demo.f32 3); Demo.leaf 1 (Demo.f32 1);
                    Demo.leaf 1 (Demo.f32 2)];
          deleted_nodes := [];
          stats := [Demo.stat_of (Demo.f32 10); Demo.stat_of (Demo.f32 6);
                    Demo.stat_of (Demo.f32 4); Demo.stat_of (Demo.f32 1);
                    Demo.stat_of (Demo.f32 5)];
          leaf_vector := []; param := Demo.param_of 5 |};
     node_mean_values := [] |}.

End DemoReg.

Lemma GetNext_routing_witness :
  GetNext DemoReg.tree5 0 (DemoReg.half 1) true = Done 2 /\
  GetNext DemoReg.tree5 0 (Demo.f32 0) false = Done 1 /\
  GetNext DemoReg.tree5 0 (DemoReg.half 1) false = Done 2.
Proof.
  pose proof (GetNext_routing DemoReg.tree5 0
                (Demo.inner (-1) 1 2 0 (DemoReg.half 1)) (DemoReg.half 1)
                eq_refl) as (H1 & _ & _ & H4 & _).
  pose proof (GetNext_routing DemoReg.tree5 0
                (Demo.inner (-1) 1 2 0 (DemoReg.half 1)) (Demo.f32 0)
                eq_refl) as (_ & H2 & _).
  split; [exact H1|]. split; [exact (H2 eq_refl) | exact H4].
Defined.

(* ================================================================= *)
(** ** The decision path: loops over the buffer *)

Lemma at_upd {A : Type} (v : list A) (i j : Z) (a : A) :
  0 <= i < Z.of_nat (length v) ->
  at_ (upd v (Z.to_nat i) a) j = if j =? i then Done a else at_ v j.
Proof.
  intros H. destruct (Z.eqb_spec j i) as [->|Hne].
  - now apply at_upd_eq.
  - apply at_upd_ne; lia.
Qed.

Lemma at_total {A : Type} (v : list A) (i : Z) :
  0 <= i < Z.of_nat (length v) -> exists a, at_ v i = Done a.
Proof.
  intros H. destruct (nth_error v (Z.to_nat i)) as [a|] eqn:E.
  - exists a. apply at_in; [lia | exact E].
  - apply nth_error_None in E. lia.
Qed.

Section PathLoops.
Context {F : Type} {SF : Scalar F}.
Implicit Types (buf : list (PathElement F)) (e : PathElement F).

(** In the branch taken when [one_fraction] is zero, the first loop of
    [UnwindPath] rescales each weight below [k] on its own. *)
Lemma UnwindPath_loop_cold (p D : Z) (z o : F) (k : nat) :
  forall buf next,
    0 <= p -> p + Z.of_nat k <= Z.of_nat (length buf) ->
    fnonzero o = false ->
    exists buf',
      UnwindPath_loop k buf p D z o next = Done buf' /\
      length buf' = length buf /\
      forall j,
        at_ buf' j =
        if (p <=? j) && (j <? p + Z.of_nat k) then
          e <- at_ buf j ;;
          Done (set_pweight e
                  (pweight e * of_int (D + 1)
                   / (z * of_int (D - (j - p))))%F)
        else at_ buf j.
Proof.
  induction k as [|k IH]; intros buf next Hp Hlen Ho.
  - exists buf. cbn [UnwindPath_loop]. repeat split.
    intros j. zcases; try lia; reflexivity.
  - cbn [UnwindPath_loop]. rewrite Ho.
    destruct (at_total buf (p + Z.of_nat k)) as [e He]; [lia|].
    rewrite He. cbn [bind]. rewrite set_at_in by lia. cbn [bind].
    set (buf1 := upd buf _ _).
    destruct (IH buf1 next Hp) as (buf' & HL & Hlen' & Hat); auto.
    { unfold buf1. rewrite length_upd. lia. }
    exists buf'. split; [exact HL|]. split.
    { rewrite Hlen'. unfold buf1. apply length_upd. }
    intros j. rewrite Hat. unfold buf1. rewrite !at_upd by lia.
    zcases; subst; try lia; try reflexivity.
    rewrite He. cbn [bind].
    replace (D - (p + Z.of_nat k - p)) with (D - Z.of_nat k) by lia.
    reflexivity.
Qed.

(** The second loop of [UnwindPath] moves feature and fractions of the
    elements above [i] down one slot and leaves every weight in place. *)
Lemma UnwindPath_shift_spec (p : Z) (count : nat) :
  forall buf i,
    0 <= p -> 0 <= i ->
    p + i + Z.of_nat count < Z.of_nat (length buf) ->
    exists buf',
      UnwindPath_shift count buf p i = Done buf' /\
      length buf' = length buf /\
      forall j,
        at_ buf' j =
        if (p + i <=? j) && (j <? p + i + Z.of_nat count) then
          e <- at_ buf j ;;
          e1 <- at_ buf (j + 1) ;;
          Done {| feature_index := feature_index e1;
                  zero_fraction := zero_fraction e1;
                  one_fraction := one_fraction e1;
                  pweight := pweight e |}
        else at_ buf j.
Proof.
  induction count as [|c IH]; intros buf i Hp Hi Hlen.
  - exists buf. cbn [UnwindPath_shift]. repeat split.
    intros j. zcases; try lia; reflexivity.
  - cbn [UnwindPath_shift].
    destruct (at_total buf (p + i)) as [e He]; [lia|].
    destruct (at_total buf (p + (i + 1))) as [e1 He1]; [lia|].
    assert (Hne : (p + (i + 1) =? p + i) = false) by (apply Z.eqb_neq; lia).
    repeat (first [ rewrite at_upd by (rewrite ?length_upd; lia)
                  | rewrite Hne | rewrite Z.eqb_refl | rewrite He
                  | rewrite He1
                  | rewrite set_at_in by (rewrite ?length_upd; lia) ];
            cbn [bind]).
    set (buf1 := upd (upd (upd buf _ _) _ _) _ _).
    assert (L1 : length buf1 = length buf)
      by (unfold buf1; now rewrite !length_upd).
    assert (A1 : forall j, at_ buf1 j =
                           if j =? p + i
                           then Done {| feature_index := feature_index e1;
                                        zero_fraction := zero_fraction e1;
                                        one_fraction := one_fraction e1;
                                        pweight := pweight e |}
                           else at_ buf j).
    { intros j. unfold buf1. rewrite !at_upd by (rewrite ?length_upd; lia).
      destruct (j =? p + i); reflexivity. }
    clearbody buf1.
    destruct (IH buf1 (i + 1) Hp) as (buf' & HL & Hlen' & Hat); try lia.
    exists buf'. split; [exact HL|]. split; [lia|].
    intros j. rewrite Hat, !A1.
    zcases; subst; try lia; try reflexivity.
    rewrite He. cbn [bind].
    replace (p + i + 1) with (p + (i + 1)) by lia. rewrite He1. reflexivity.
Qed.

End PathLoops.

(* ================================================================= *)
(** ** Division by a zero fraction in binary32 *)

Definition is_zero32 (x : binary32) : bool :=
  match x with S754_zero _ => true | _ => false end.

Definition is_finite32 (x : binary32) : bool :=
  match x with S754_zero _ | S754_finite _ _ _ => true | _ => false end.

Definition zero_or_nan32 (x : binary32) : bool :=
  match x with S754_zero _ | S754_nan => true | _ => false end.

Lemma fnonzero_zero32 (x : binary32) : is_zero32 x = true -> fnonzero x = false.
Proof. destruct x as [s|s| |s m e]; try discriminate. reflexivity. Qed.

Lemma mul_zero32 (z y : binary32) :
  is_zero32 z = true -> zero_or_nan32 (z * y)%F = true.
Proof.
  destruct z as [s|s| |s m e]; try discriminate. intros _.
  destruct y as [s'|s'| |s' m' e']; reflexivity.
Qed.

Lemma div_zero32 (x y : binary32) :
  zero_or_nan32 y = true -> is_finite32 (x / y)%F = false.
Proof.
  destruct y as [s|s| |s m e]; try discriminate; intros _;
    destruct x as [s'|s'| |s' m' e']; reflexivity.
Qed.

Lemma div_nonfinite32 (x y : binary32) :
  is_finite32 x = false -> is_finite32 (x / y)%F = false.
Proof.
  destruct x as [s|s| |s m e]; try discriminate; intros _;
    destruct y as [s'|s'| |s' m' e']; reflexivity.
Qed.

Lemma add_nonfinite32_r (x y : binary32) :
  is_finite32 y = false -> is_finite32 (x + y)%F = false.
Proof.
  destruct y as [s|s| |s m e]; try discriminate; intros _;
    destruct x as [s'|s'| |s' m' e']; try reflexivity;
    destruct s, s'; reflexivity.
Qed.

Lemma add_nonfinite32_l (x y : binary32) :
  is_finite32 x = false -> is_finite32 (x + y)%F = false.
Proof.
  destruct x as [s|s| |s m e]; try discriminate; intros _;
    destruct y as [s'|s'| |s' m' e']; try reflexivity;
    destruct s, s'; reflexivity.
Qed.

Lemma UnwoundPathSum_loop_zero32 (p D : Z) (z o : binary32) (k : nat) :
  forall (buf : list (PathElement binary32)) next total,
    0 <= p -> p + Z.of_nat k <= Z.of_nat (length buf) ->
    is_zero32 o = true -> is_zero32 z = true ->
    k <> O \/ is_finite32 total = false ->
    exists r, UnwoundPathSum_loop k buf p D z o next total = Done r /\
              is_finite32 r = false.
Proof.
  induction k as [|k IH]; intros buf next total Hp Hlen Ho Hz Hk.
  - destruct Hk as [Hk|Hk]; [congruence|]. exists total. auto.
  - cbn [UnwoundPathSum_loop]. rewrite (fnonzero_zero32 o Ho).
    destruct (at_total buf (p + Z.of_nat k)) as [e He]; [lia|].
    rewrite He. cbn [bind]. apply IH; auto; try lia.
    right. apply add_nonfinite32_r, div_nonfinite32, div_zero32.
    destruct z; try discriminate. reflexivity.
Qed.

Module DemoPath.

(** A path of depth 1 whose second element has both fractions zero, as
    [ExtendPath] leaves it. *)
Definition zero_path : list (PathElement binary32) :=
  [ {| feature_index := -1; zero_fraction := Demo.f32 1;
       one_fraction := Demo.f32 1; pweight := Demo.f32 0 |};
    {| feature_index := 0; zero_fraction := Demo.f32 0;
       one_fraction := Demo.f32 0; pweight := Demo.f32 0 |} ].

End DemoPath.

(* ================================================================= *)
(** ** Exact arithmetic

    What the remaining properties need of the arithmetic: the operations
    form a field of characteristic 0 in which [of_int] is the embedding of
    the integers and [feqb] decides equality.  The rationals are such a
    field; binary32 is not (its operations round). *)

Class ExactScalar (F : Type) {SF : Scalar F} : Prop := {
  exact_field :
    field_theory (of_int 0) (of_int 1) fadd fmul fsub
      (fun x => fsub (of_int 0) x) fdiv (fun x => fdiv (of_int 1) x) eq;
  of_int_add : forall a b, of_int (a + b) = fadd (of_int a) (of_int b);
  of_int_mul : forall a b, of_int (a * b) = fmul (of_int a) (of_int b);
  of_int_neq0 : forall a, a <> 0 -> of_int a <> of_int 0;
  feqb_eq : forall x y, feqb x y = true <-> x = y
}.

Lemma Q2Qc_inject_Z_inj (a b : Z) :
  Q2Qc (inject_Z a) = Q2Qc (inject_Z b) -> a = b.
Proof.
  intros H. apply Q2Qc_eq_iff in H. unfold Qeq, inject_Z in H. cbn in H. lia.
Qed.

#[export] Instance ExactScalar_Qc : ExactScalar Qc.
Proof.
  split.
  - split; [split|..]; cbn;
      change (Q2Qc (inject_Z 0)) with 0%Qc;
      change (Q2Qc (inject_Z 1)) with 1%Qc; intros; try ring.
    + discriminate.
    + unfold Qcdiv. ring.
    + unfold Qcdiv. rewrite Qcmult_1_l. now apply Qcmult_inv_l.
  - intros a b. cbn. unfold Qcplus. apply Q2Qc_eq_iff. cbn [this Q2Qc].
    rewrite !Qred_correct, inject_Z_plus. reflexivity.
  - intros a b. cbn. unfold Qcmult. apply Q2Qc_eq_iff. cbn [this Q2Qc].
    rewrite !Qred_correct, inject_Z_mult. reflexivity.
  - intros a Ha H. apply Q2Qc_inject_Z_inj in H. contradiction.
  - intros x y. cbn. destruct (Qc_eq_dec x y); split; congruence.
Qed.

Section ExactAlgebra.
Context {F : Type} {SF : Scalar F} {EF : ExactScalar F}.

Add Field exact_scalar_field : exact_field.

Local Open Scope scalar_scope.
Local Notation "0" := (of_int 0%Z) : scalar_scope.
Local Notation "1" := (of_int 1%Z) : scalar_scope.

(** The embedding of a natural number. *)
Definition N (n : nat) : F := of_int (Z.of_nat n).

Lemma of_int_sub (a b : Z) : of_int (a - b)%Z = of_int a - of_int b.
Proof.
  replace a with ((a - b) + b)%Z at 2 by lia. rewrite of_int_add. ring.
Qed.

Lemma N_0 : N 0 = 0.
Proof. reflexivity. Qed.

Lemma N_S (n : nat) : N (S n) = N n + 1.
Proof. unfold N. rewrite Nat2Z.inj_succ, <- Z.add_1_r. apply of_int_add. Qed.

Lemma N_neq0 (n : nat) : n <> O -> N n <> 0.
Proof. intros H. apply of_int_neq0. lia. Qed.

Lemma N_mul (a b : nat) : N (a * b) = N a * N b.
Proof. unfold N. rewrite Nat2Z.inj_mul. apply of_int_mul. Qed.

Lemma N_fact_S (n : nat) : N (fact (S n)) = (N n + 1) * N (fact n).
Proof. cbn [fact]. change (fact n + n * fact n)%nat with (S n * fact n)%nat.
  now rewrite N_mul, N_S. Qed.

Lemma N_fact_neq0 (n : nat) : N (fact n) <> 0.
Proof. apply N_neq0. apply fact_neq_0. Qed.


Lemma fnonzero_true (x : F) : fnonzero x = true <-> x <> 0.
Proof.
  unfold fnonzero. rewrite negb_true_iff. split.
  - intros H E. apply feqb_eq in E. congruence.
  - intros H. destruct (feqb x 0) eqn:E; [|reflexivity].
    apply feqb_eq in E. contradiction.
Qed.

Lemma fnonzero_false (x : F) : fnonzero x = false <-> x = 0.
Proof.
  unfold fnonzero. rewrite negb_false_iff. apply feqb_eq.
Qed.

(** *** Finite sums *)










(** *** The weights of a path

    [epoly r k] is the coefficient of [t^k] in the product of the
    [z + o t] over the pairs [(z, o)] of [r]. *)
Fixpoint epoly (r : list (F * F)) (k : nat) : F :=
  match r with
  | [] => match k with O => 1 | S _ => 0 end
  | (z, o) :: r' =>
      z * epoly r' k + match k with O => 0 | S k' => o * epoly r' k' end
  end.

(** [k! (n - k)! / (n + 1)!] *)
Definition wcoef (n k : nat) : F :=
  N (fact k) * N (fact (n - k)) / N (fact (S n)).

(** The weight that [k] ones carry on a path with the fractions [r]. *)
Definition cw (r : list (F * F)) (k : nat) : F :=
  wcoef (length r) k * epoly r k.

(** One step of the recurrence of [ExtendPath] at depth [D]. *)
Definition ext (D : nat) (z o : F) (V : nat -> F) (k : nat) : F :=
  (z * V k * of_int (Z.of_nat D - Z.of_nat k) + o * V (pred k) * N k)
  / N (S D).

Lemma of_int_nat_sub (a b : nat) :
  of_int (Z.of_nat a - Z.of_nat b) = N a - N b.
Proof. apply of_int_sub. Qed.

Lemma N_minus (a b : nat) : (b <= a)%nat -> N (a - b) = N a - N b.
Proof. intros H. unfold N. rewrite Nat2Z.inj_sub by exact H. apply of_int_sub. Qed.

Lemma epoly_above (r : list (F * F)) :
  forall k, (length r < k)%nat -> epoly r k = 0.
Proof.
  induction r as [|[z o] r IH]; intros k Hk; cbn [epoly length] in *.
  - destruct k; [lia | reflexivity].
  - destruct k as [|k]; [lia|]. rewrite !IH by lia. ring.
Qed.

Lemma epoly_perm (r r' : list (F * F)) :
  Permutation r r' -> forall k, epoly r k = epoly r' k.
Proof.
  induction 1 as [| [z o] r r' _ IH | [z o] [z' o'] r | r r' r'' _ IH1 _ IH2];
    intros k.
  - reflexivity.
  - cbn [epoly]. rewrite IH. destruct k; [reflexivity | now rewrite IH].
  - cbn [epoly]. destruct k as [|[|k]]; ring.
  - now rewrite IH1, IH2.
Qed.

Lemma cw_perm (r r' : list (F * F)) :
  Permutation r r' -> forall k, cw r k = cw r' k.
Proof.
  intros H k. unfold cw.
  now rewrite (Permutation_length H), (epoly_perm _ _ H).
Qed.

Lemma wcoef_z (n k : nat) :
  (k <= n)%nat ->
  wcoef n k * (N (S n) - N k) / N (S (S n)) = wcoef (S n) k.
Proof.
  intros H. unfold wcoef.
  replace (S n - k)%nat with (S (n - k)) by lia.
  rewrite (N_fact_S (n - k)), (N_fact_S (S n)), (N_minus n k H), !N_S.
  pose proof (N_fact_neq0 (S n)). pose proof (N_neq0 (S (S n)) ltac:(lia)) as H2.
  rewrite !N_S in H2. field. auto.
Qed.

Lemma wcoef_o (n k : nat) :
  (k <= n)%nat ->
  wcoef n k * N (S k) / N (S (S n)) = wcoef (S n) (S k).
Proof.
  intros H. unfold wcoef.
  replace (S n - S k)%nat with (n - k)%nat by lia.
  rewrite (N_fact_S k), (N_fact_S (S n)), !N_S.
  pose proof (N_fact_neq0 (S n)). pose proof (N_neq0 (S (S n)) ltac:(lia)) as H2.
  rewrite !N_S in H2. field. auto.
Qed.

(** Extending the canonical weights of [r] by [(z, o)] gives the canonical
    weights of [(z, o) :: r]. *)
Lemma cw_ext (r : list (F * F)) (z o : F) (k : nat) :
  (k <= S (length r))%nat ->
  ext (S (length r)) z o (cw r) k = cw ((z, o) :: r) k.
Proof.
  intros Hk. unfold ext, cw. cbn [length epoly].
  set (n := length r) in *.
  pose proof (N_neq0 (S (S n)) ltac:(lia)) as H2.
  rewrite of_int_nat_sub.
  destruct k as [|k].
  - cbn [pred]. rewrite <- (wcoef_z n 0) by lia. rewrite N_0. field. exact H2.
  - cbn [pred]. rewrite <- (wcoef_o n k) by lia.
    destruct (Nat.eq_dec k n) as [->|Hne].
    + rewrite (epoly_above r (S n)) by (fold n; lia). field. exact H2.
    + assert (E : wcoef n (S k) * (N (S n) - N (S k)) = wcoef n k * N (S k)).
      { transitivity (wcoef (S n) (S k) * N (S (S n))).
        - rewrite <- (wcoef_z n (S k)) by lia. field. exact H2.
        - rewrite <- (wcoef_o n k) by lia. field. exact H2. }
      replace (z * (wcoef n (S k) * epoly r (S k)) * (N (S n) - N (S k)))
        with (z * epoly r (S k) * (wcoef n (S k) * (N (S n) - N (S k))))
        by ring.
      rewrite E. field. exact H2.
Qed.




(** [r] without its element of index [i]. *)
Definition remove_nth {A : Type} (i : nat) (l : list A) : list A :=
  firstn i l ++ skipn (S i) l.

Lemma length_remove_nth {A : Type} (i : nat) (l : list A) :
  (i < length l)%nat -> length (remove_nth i l) = pred (length l).
Proof.
  intros H. unfold remove_nth. rewrite length_app, length_firstn, length_skipn. lia.
Qed.









End ExactAlgebra.

(* ================================================================= *)
(** ** The decision path: [ExtendPath] *)

Section PathElements.
Context {F : Type} {SF : Scalar F}.
Implicit Types (buf : list (PathElement F)) (e : PathElement F).

(** The element of the buffer at offset [j] (an arbitrary element outside
    the buffer). *)
Definition elt buf (j : Z) : PathElement F :=
  match at_ buf j with
  | Done e => e
  | Abort _ => PathElement_new 0 (of_int 0)
  end.

Lemma at_elt buf (j : Z) :
  0 <= j < Z.of_nat (length buf) -> at_ buf j = Done (elt buf j).
Proof.
  intros H. unfold elt. destruct (at_total buf j H) as [e ->]. reflexivity.
Qed.

Lemma elt_upd buf (i j : Z) e :
  0 <= i < Z.of_nat (length buf) ->
  elt (upd buf (Z.to_nat i) e) j = if j =? i then e else elt buf j.
Proof.
  intros H. unfold elt. rewrite at_upd by exact H.
  destruct (j =? i); reflexivity.
Qed.

Lemma elt_ext buf buf' :
  length buf' = length buf -> (forall j, at_ buf' j = at_ buf j) ->
  forall j, elt buf' j = elt buf j.
Proof. intros _ H j. unfold elt. now rewrite H. Qed.

Lemma set_pweight_twice e (x y : F) :
  set_pweight (set_pweight e x) y = set_pweight e y.
Proof. reflexivity. Qed.

Lemma set_pweight_same e : set_pweight e (pweight e) = e.
Proof. destruct e; reflexivity. Qed.

(** The weight [ExtendPath_loop] leaves at offset [j], with [top] the
    offset of the element the loop starts below. *)
Definition extended_weight buf (p D : Z) (z o : F) (top j : Z) : F :=
  let scaled :=
    if j =? top then pweight (elt buf j)
    else (z * pweight (elt buf j) * of_int (D - (j - p)) / of_int (D + 1))%F in
  if j =? p then scaled
  else (scaled + o * pweight (elt buf (j - 1)) * of_int (j - p)
                 / of_int (D + 1))%F.

Lemma ExtendPath_loop_spec (p D : Z) (z o : F) (k : nat) :
  forall buf,
    0 <= p -> p + Z.of_nat k < Z.of_nat (length buf) ->
    exists buf',
      ExtendPath_loop k buf p D z o = Done buf' /\
      length buf' = length buf /\
      forall j,
        elt buf' j =
        if (p <=? j) && (j <=? p + Z.of_nat k)
        then set_pweight (elt buf j)
               (extended_weight buf p D z o (p + Z.of_nat k) j)
        else elt buf j.
Proof.
  induction k as [|k IH]; intros buf Hp Hlen.
  - exists buf. cbn [ExtendPath_loop]. repeat split. intros j.
    unfold extended_weight. zcases; try lia; try reflexivity.
    subst. now rewrite set_pweight_same.
  - cbn [ExtendPath_loop].
    rewrite (at_elt buf (p + Z.of_nat k)) by lia. cbn [bind].
    rewrite (at_elt buf (p + (Z.of_nat k + 1))) by lia. cbn [bind].
    rewrite set_at_in by lia. cbn [bind].
    rewrite at_upd by lia.
    replace (p + Z.of_nat k =? p + (Z.of_nat k + 1)) with false
      by (symmetry; apply Z.eqb_neq; lia).
    rewrite (at_elt buf (p + Z.of_nat k)) by lia. cbn [bind].
    rewrite set_at_in by (rewrite length_upd; lia). cbn [bind].
    set (buf1 := upd (upd buf _ _) _ _).
    assert (L1 : length buf1 = length buf)
      by (unfold buf1; now rewrite !length_upd).
    assert (E1 : forall j,
               elt buf1 j =
               if j =? p + Z.of_nat k
               then set_pweight (elt buf (p + Z.of_nat k))
                      (z * pweight (elt buf (p + Z.of_nat k))
                       * of_int (D - Z.of_nat k) / of_int (D + 1))%F
               else if j =? p + (Z.of_nat k + 1)
                    then set_pweight (elt buf (p + (Z.of_nat k + 1)))
                           (pweight (elt buf (p + (Z.of_nat k + 1)))
                            + o * pweight (elt buf (p + Z.of_nat k))
                              * of_int (Z.of_nat k + 1) / of_int (D + 1))%F
                    else elt buf j).
    { intros j. unfold buf1. rewrite !elt_upd by (rewrite ?length_upd; lia).
      reflexivity. }
    clearbody buf1.
    destruct (IH buf1 Hp) as (buf' & HL & Hlen' & He); [lia|].
    exists buf'. split; [exact HL|]. split; [lia|].
    intros j. rewrite He. unfold extended_weight. rewrite !E1.
    replace (p + Z.of_nat (S k)) with (p + (Z.of_nat k + 1)) by lia.
    zcases; subst; try lia; try reflexivity; cbn [pweight set_pweight];
      rewrite ?set_pweight_twice;
      repeat match goal with
             | |- context [of_int ?a] =>
                 progress replace a with (Z.of_nat k + 1) by lia
             | |- context [of_int ?a] =>
                 progress replace a with (D - Z.of_nat k) by lia
             | |- context [elt buf ?a] =>
                 progress replace a with (p + Z.of_nat k) by lia
             end;
      try reflexivity.
Qed.

(** The buffer once [ExtendPath] has written the new element. *)
Definition ExtendPath_init buf (p D : Z) (z o : F) (f : Z) : list (PathElement F) :=
  upd buf (Z.to_nat (p + D))
    {| feature_index := f; zero_fraction := z; one_fraction := o;
       pweight := if D =? 0 then of_int 1 else of_int 0 |}.

Lemma ExtendPath_spec buf (p D : Z) (z o : F) (f : Z) :
  0 <= p -> 0 <= D -> p + D < Z.of_nat (length buf) ->
  let buf0 := ExtendPath_init buf p D z o f in
  exists buf',
    ExtendPath buf p D z o f = Done buf' /\
    length buf' = length buf /\
    forall j,
      elt buf' j =
      if (p <=? j) && (j <=? p + D)
      then set_pweight (elt buf0 j) (extended_weight buf0 p D z o (p + D) j)
      else elt buf0 j.
Proof.
  intros Hp HD Hlen buf0.
  assert (E0 : ExtendPath buf p D z o f
               = ExtendPath_loop (Z.to_nat D) buf0 p D z o).
  { unfold ExtendPath.
    repeat (first [ rewrite at_upd by (rewrite ?length_upd; lia)
                  | rewrite Z.eqb_refl
                  | rewrite (at_elt buf (p + D)) by lia
                  | rewrite set_at_in by (rewrite ?length_upd; lia) ];
            cbn [bind]).
    f_equal. unfold buf0, ExtendPath_init.
    apply nth_error_ext. intros n.
    destruct (Nat.eq_dec n (Z.to_nat (p + D))) as [->|Hn].
    - rewrite !nth_error_upd_eq by (rewrite ?length_upd; lia). reflexivity.
    - rewrite !nth_error_upd_ne by lia. reflexivity. }
  assert (L0 : length buf0 = length buf)
    by (unfold buf0, ExtendPath_init; apply length_upd).
  destruct (ExtendPath_loop_spec p D z o (Z.to_nat D) buf0 Hp)
    as (buf' & HL & Hlen' & He); [lia|].
  exists buf'. rewrite E0. split; [exact HL|]. split; [lia|].
  intros j. rewrite He. rewrite Z2Nat.id by lia. reflexivity.
Qed.

(** *** [UnwindPath]: what does not depend on the arithmetic *)

(** Feature and fractions of an element, without its weight. *)
Definition same_split e e' : Prop :=
  feature_index e = feature_index e' /\ zero_fraction e = zero_fraction e' /\
  one_fraction e = one_fraction e'.

Lemma same_split_refl e : same_split e e.
Proof. repeat split. Qed.

Lemma same_split_trans e1 e2 e3 :
  same_split e1 e2 -> same_split e2 e3 -> same_split e1 e3.
Proof. unfold same_split. intuition congruence. Qed.

(** The first loop of [UnwindPath] returns and changes only weights, and
    only below [k]. *)
Lemma UnwindPath_loop_frame (p D : Z) (z o : F) (k : nat) :
  forall buf next,
    0 <= p -> p + Z.of_nat k <= Z.of_nat (length buf) ->
    exists buf',
      UnwindPath_loop k buf p D z o next = Done buf' /\
      length buf' = length buf /\
      forall j,
        same_split (elt buf' j) (elt buf j) /\
        (j < p \/ p + Z.of_nat k <= j -> elt buf' j = elt buf j).
Proof.
  induction k as [|k IH]; intros buf next Hp Hlen.
  - exists buf. cbn [UnwindPath_loop]. repeat split.
  - cbn [UnwindPath_loop].
    destruct (fnonzero o).
    + rewrite (at_elt buf (p + Z.of_nat k)) by lia. cbn [bind].
      rewrite set_at_in by lia. cbn [bind].
      rewrite at_upd, Z.eqb_refl by lia. cbn [bind].
      set (buf1 := upd buf _ _).
      match goal with
      | |- context [UnwindPath_loop k buf1 p D z o ?n] =>
          destruct (IH buf1 n Hp) as (buf' & HL & Hlen' & He)
      end.
      { unfold buf1. rewrite length_upd. lia. }
      exists buf'. split; [exact HL|]. split.
      { rewrite Hlen'. apply length_upd. }
      intros j. destruct (He j) as [S1 U1]. unfold buf1 in S1, U1.
      rewrite elt_upd in S1, U1 by lia. split.
      * destruct (Z.eqb_spec j (p + Z.of_nat k)) as [Hj|Hne]; [|exact S1].
        eapply same_split_trans; [exact S1|]. rewrite Hj. repeat split.
      * intros Hj. rewrite U1 by lia.
        destruct (Z.eqb_spec j (p + Z.of_nat k)); [lia | reflexivity].
    + rewrite (at_elt buf (p + Z.of_nat k)) by lia. cbn [bind].
      rewrite set_at_in by lia. cbn [bind].
      set (buf1 := upd buf _ _).
      destruct (IH buf1 next Hp) as (buf' & HL & Hlen' & He).
      { unfold buf1. rewrite length_upd. lia. }
      exists buf'. split; [exact HL|]. split.
      { rewrite Hlen'. apply length_upd. }
      intros j. destruct (He j) as [S1 U1]. unfold buf1 in S1, U1.
      rewrite elt_upd in S1, U1 by lia. split.
      * destruct (Z.eqb_spec j (p + Z.of_nat k)) as [Hj|Hne]; [|exact S1].
        eapply same_split_trans; [exact S1|]. rewrite Hj. repeat split.
      * intros Hj. rewrite U1 by lia.
        destruct (Z.eqb_spec j (p + Z.of_nat k)); [lia | reflexivity].
Qed.

(** The element [UnwindPath] leaves at offset [j], given the buffer [buf1]
    its first loop left. *)
Definition shifted_element buf1 (p D i j : Z) : PathElement F :=
  if (p + i <=? j) && (j <? p + D)
  then {| feature_index := feature_index (elt buf1 (j + 1));
          zero_fraction := zero_fraction (elt buf1 (j + 1));
          one_fraction := one_fraction (elt buf1 (j + 1));
          pweight := pweight (elt buf1 j) |}
  else elt buf1 j.

(** [UnwindPath] is its first loop followed by the shift. *)
Lemma UnwindPath_struct buf (p D i : Z) :
  0 <= p -> 0 <= i <= D -> p + D < Z.of_nat (length buf) ->
  exists buf1 buf',
    UnwindPath_loop (Z.to_nat D) buf p D (zero_fraction (elt buf (p + i)))
      (one_fraction (elt buf (p + i))) (pweight (elt buf (p + D)))
    = Done buf1 /\
    UnwindPath buf p D i = Done buf' /\
    length buf1 = length buf /\ length buf' = length buf /\
    forall j, elt buf' j = shifted_element buf1 p D i j.
Proof.
  intros Hp Hi Hlen.
  destruct (UnwindPath_loop_frame p D (zero_fraction (elt buf (p + i)))
              (one_fraction (elt buf (p + i))) (Z.to_nat D) buf
              (pweight (elt buf (p + D))) Hp)
    as (buf1 & HL & L1 & _); [lia|].
  destruct (UnwindPath_shift_spec p (Z.to_nat (D - i)) buf1 i Hp)
    as (buf' & HS & L2 & A2); try lia.
  exists buf1, buf'. split; [exact HL|]. split.
  { unfold UnwindPath. rewrite (at_elt buf (p + i)) by lia. cbn [bind].
    rewrite (at_elt buf (p + D)) by lia. cbn [bind]. rewrite HL. exact HS. }
  split; [exact L1|]. split; [lia|].
  intros j. unfold shifted_element, elt at 1. rewrite A2.
  replace (p + i + Z.of_nat (Z.to_nat (D - i))) with (p + D) by lia.
  zcases; try reflexivity.
  rewrite (at_elt buf1 j), (at_elt buf1 (j + 1)) by lia. reflexivity.
Qed.

(** The compaction: whatever the arithmetic, [UnwindPath] at [i] brings
    feature and fractions of every element above [i] down one slot and
    leaves those of the elements below [i] alone. *)
Lemma UnwindPath_compacts buf (p D i : Z) :
  0 <= p -> 0 <= i <= D -> p + D < Z.of_nat (length buf) ->
  exists buf',
    UnwindPath buf p D i = Done buf' /\ length buf' = length buf /\
    (forall j, i <= j < D ->
               same_split (elt buf' (p + j)) (elt buf (p + (j + 1)))) /\
    (forall j, 0 <= j < i -> same_split (elt buf' (p + j)) (elt buf (p + j))) /\
    (forall j, j < p \/ p + D <= j -> elt buf' j = elt buf j).
Proof.
  intros Hp Hi Hlen.
  destruct (UnwindPath_struct buf p D i Hp Hi Hlen)
    as (buf1 & buf' & HL & HU & L1 & L2 & He).
  destruct (UnwindPath_loop_frame p D (zero_fraction (elt buf (p + i)))
              (one_fraction (elt buf (p + i))) (Z.to_nat D) buf
              (pweight (elt buf (p + D))) Hp)
    as (buf1' & HL' & _ & Hf); [lia|].
  rewrite HL in HL'. injection HL' as <-.
  exists buf'. split; [exact HU|]. split; [exact L2|].
  split; [|split].
  - intros j Hj. rewrite He. unfold shifted_element. zcases; try lia.
    destruct (Hf (p + j + 1)) as [(S1 & S2 & S3) _].
    replace (p + (j + 1)) with (p + j + 1) by lia.
    repeat split; assumption.
  - intros j Hj. rewrite He. unfold shifted_element. zcases; try lia.
    apply Hf.
  - intros j Hj. rewrite He. unfold shifted_element. zcases; try lia.
    all: apply Hf; lia.
Qed.

(** [ExtendPath] writes feature and fractions of the new element and
    keeps those of the elements below it. *)
Lemma ExtendPath_split buf (p D : Z) (z o : F) (f : Z) :
  0 <= p -> 0 <= D -> p + D < Z.of_nat (length buf) ->
  exists buf',
    ExtendPath buf p D z o f = Done buf' /\
    length buf' = length buf /\
    (forall j, j < p \/ p + D < j -> elt buf' j = elt buf j) /\
    (forall j, p <= j < p + D -> same_split (elt buf' j) (elt buf j)) /\
    feature_index (elt buf' (p + D)) = f /\
    zero_fraction (elt buf' (p + D)) = z /\
    one_fraction (elt buf' (p + D)) = o.
Proof.
  intros Hp HD Hlen.
  destruct (ExtendPath_spec buf p D z o f Hp HD Hlen) as (buf' & HE & L & He).
  assert (E0 : forall j,
             elt (ExtendPath_init buf p D z o f) j =
             if j =? p + D
             then {| feature_index := f; zero_fraction := z; one_fraction := o;
                     pweight := if D =? 0 then of_int 1 else of_int 0 |}
             else elt buf j).
  { intros j. unfold ExtendPath_init. rewrite elt_upd by lia. reflexivity. }
  exists buf'. split; [exact HE|]. split; [exact L|].
  repeat split; try intros j Hj; rewrite He, E0; zcases; try lia; reflexivity.
Qed.

(** Both loops of [UnwoundPathSum] return. *)
Lemma UnwoundPathSum_loop_returns (p D : Z) (z o : F) (k : nat) :
  forall buf next total,
    0 <= p -> p + Z.of_nat k <= Z.of_nat (length buf) ->
    exists w, UnwoundPathSum_loop k buf p D z o next total = Done w.
Proof.
  induction k as [|k IH]; intros buf next total Hp Hlen.
  - exists total. reflexivity.
  - cbn [UnwoundPathSum_loop].
    rewrite (at_elt buf (p + Z.of_nat k)) by lia.
    destruct (fnonzero o); cbn [bind]; apply IH; lia.
Qed.

Lemma UnwoundPathSum_returns buf (p D i : Z) :
  0 <= p -> 0 <= i <= D -> p + D < Z.of_nat (length buf) ->
  exists w, UnwoundPathSum buf p D i = Done w.
Proof.
  intros Hp Hi Hlen. unfold UnwoundPathSum.
  rewrite (at_elt buf (p + i)) by lia. cbn [bind].
  rewrite (at_elt buf (p + D)) by lia. cbn [bind].
  apply UnwoundPathSum_loop_returns; lia.
Qed.

End PathElements.

(* ================================================================= *)
(** ** The two divisions of [UnwindPath] and [UnwoundPathSum]

    Which branch the loops take, and what they divide by, read off their
    results. *)

Section Divisions.
Context {F : Type} {SF : Scalar F}.
Implicit Types (buf : list (PathElement F)) (e : PathElement F).

(** In the branch taken when [one_fraction] is not zero, the first loop of
    [UnwindPath] leaves at the top position [next_one_portion] scaled and
    divided by [one_fraction]. *)
Lemma UnwindPath_loop_hot_top (p D : Z) (z o : F) (k : nat) buf next :
  0 <= p -> p + Z.of_nat (S k) <= Z.of_nat (length buf) ->
  fnonzero o = true ->
  exists buf',
    UnwindPath_loop (S k) buf p D z o next = Done buf' /\
    length buf' = length buf /\
    pweight (elt buf' (p + Z.of_nat k))
    = (next * of_int (D + 1) / (of_int (Z.of_nat k + 1) * o))%F.
Proof.
  intros Hp Hlen Ho. cbn [UnwindPath_loop]. rewrite Ho.
  rewrite (at_elt buf (p + Z.of_nat k)) by lia. cbn [bind].
  rewrite set_at_in by lia. cbn [bind].
  rewrite at_upd, Z.eqb_refl by lia. cbn [bind].
  set (buf1 := upd buf _ _).
  match goal with
  | |- context [UnwindPath_loop k buf1 p D z o ?n] =>
      destruct (UnwindPath_loop_frame p D z o k buf1 n Hp)
        as (buf' & HL & L & Hf)
  end.
  { unfold buf1. rewrite length_upd. lia. }
  exists buf'. split; [exact HL|]. split.
  { rewrite L. unfold buf1. apply length_upd. }
  destruct (Hf (p + Z.of_nat k)) as [_ ->]; [|lia].
  unfold buf1. rewrite elt_upd, Z.eqb_refl by lia. reflexivity.
Qed.

(** The sum that [UnwoundPathSum] returns when [one_fraction] is zero: the
    weights below [k], from the top down, each divided by
    [zero_fraction]. *)
Definition unwound_cold_sum buf (p D : Z) (z : F) (k : nat) (total : F) : F :=
  fold_left
    (fun tot i =>
       (tot + pweight (elt buf (p + Z.of_nat i)) / z
              / (of_int (D - Z.of_nat i) / of_int (D + 1)))%F)
    (rev (seq 0 k)) total.

Lemma UnwoundPathSum_loop_cold (p D : Z) (z o : F) (k : nat) :
  forall buf next total,
    0 <= p -> p + Z.of_nat k <= Z.of_nat (length buf) ->
    fnonzero o = false ->
    UnwoundPathSum_loop k buf p D z o next total
    = Done (unwound_cold_sum buf p D z k total).
Proof.
  induction k as [|k IH]; intros buf next total Hp Hlen Ho.
  - reflexivity.
  - cbn [UnwoundPathSum_loop]. rewrite Ho.
    rewrite (at_elt buf (p + Z.of_nat k)) by lia. cbn [bind].
    rewrite IH by (auto; lia).
    unfold unwound_cold_sum. rewrite seq_S, rev_app_distr. reflexivity.
Qed.

End Divisions.

(** C5.  In [UnwindPath] and [UnwoundPathSum] the test [one_fraction != 0]
    decides what is divided by.  When it holds the weights are divided by
    [one_fraction]: [UnwindPath] leaves at the top position the weight of
    the last element scaled and divided by it, and at depth 1
    [UnwoundPathSum] returns that quotient.  When it fails nothing divides
    by [one_fraction], and the division by [zero_fraction] is made
    whatever its value: [UnwindPath] leaves in every weight the old weight
    scaled and divided by [zero_fraction] times the distance to the top,
    and [UnwoundPathSum] returns the sum of the weights each divided by
    [zero_fraction].  So when both fractions are zero a division by zero
    is made: [UnwoundPathSum] returns a NaN or an infinity and
    [UnwindPath] leaves one in every weight. *)
Theorem zero_fractions_divide_by_zero (buf : list (PathElement binary32))
  (p unique_depth path_index : Z) (e eD : PathElement binary32) :
  0 <= p -> 1 <= unique_depth -> 0 <= path_index <= unique_depth ->
  p + unique_depth < Z.of_nat (length buf) ->
  at_ buf (p + path_index) = Done e ->
  at_ buf (p + unique_depth) = Done eD ->
  exists buf' total,
    UnwindPath buf p unique_depth path_index = Done buf' /\
    UnwoundPathSum buf p unique_depth path_index = Done total /\
    (fnonzero (one_fraction e) = true ->
     pweight (elt buf' (p + (unique_depth - 1)))
     = (pweight eD * of_int (unique_depth + 1)
        / (of_int unique_depth * one_fraction e))%F /\
     (unique_depth = 1 ->
      total = (of_int 0 + pweight eD * of_int 2
                          / (of_int 1 * one_fraction e))%F)) /\
    (fnonzero (one_fraction e) = false ->
     (forall k, 0 <= k < unique_depth ->
                pweight (elt buf' (p + k))
                = (pweight (elt buf (p + k)) * of_int (unique_depth + 1)
                   / (zero_fraction e * of_int (unique_depth - k)))%F) /\
     total = unwound_cold_sum buf p unique_depth (zero_fraction e)
               (Z.to_nat unique_depth) (of_int 0)) /\
    (is_zero32 (one_fraction e) = true -> is_zero32 (zero_fraction e) = true ->
     is_finite32 total = false /\
     forall k, 0 <= k < unique_depth ->
               is_finite32 (pweight (elt buf' (p + k))) = false).
Proof.
  intros Hp HD Hi Hlen He HeD.
  assert (Ee : elt buf (p + path_index) = e) by (unfold elt; now rewrite He).
  assert (EeD : elt buf (p + unique_depth) = eD) by (unfold elt; now rewrite HeD).
  destruct (UnwindPath_struct buf p unique_depth path_index Hp Hi Hlen)
    as (buf1 & buf' & HL & HU & L1 & L' & Hs).
  rewrite Ee, EeD in HL.
  assert (Hw : forall j, pweight (elt buf' j) = pweight (elt buf1 j)).
  { intros j. rewrite Hs. unfold shifted_element.
    destruct (_ && _); reflexivity. }
  assert (HT : UnwoundPathSum buf p unique_depth path_index
               = UnwoundPathSum_loop (Z.to_nat unique_depth) buf p unique_depth
                   (zero_fraction e) (one_fraction e) (pweight eD) (of_int 0)).
  { unfold UnwoundPathSum. rewrite He, HeD. reflexivity. }
  destruct (UnwoundPathSum_returns buf p unique_depth path_index Hp Hi Hlen)
    as (total & HS).
  exists buf', total. split; [exact HU|]. split; [exact HS|].
  rewrite HT in HS.
  assert (Cold : fnonzero (one_fraction e) = false ->
                 (forall k, 0 <= k < unique_depth ->
                    pweight (elt buf' (p + k))
                    = (pweight (elt buf (p + k)) * of_int (unique_depth + 1)
                       / (zero_fraction e * of_int (unique_depth - k)))%F) /\
                 total = unwound_cold_sum buf p unique_depth (zero_fraction e)
                           (Z.to_nat unique_depth) (of_int 0)).
  { intros Ho. split.
    - intros k Hk.
      destruct (UnwindPath_loop_cold p unique_depth (zero_fraction e)
                  (one_fraction e) (Z.to_nat unique_depth) buf (pweight eD))
        as (buf1' & HL' & _ & A1); try lia; [exact Ho|].
      rewrite HL in HL'. injection HL' as <-.
      rewrite Hw. unfold elt at 1. rewrite A1.
      rewrite (at_elt buf (p + k)) by lia.
      zcases; try lia. cbn [bind pweight set_pweight].
      replace (unique_depth - (p + k - p)) with (unique_depth - k) by lia.
      reflexivity.
    - rewrite UnwoundPathSum_loop_cold in HS by (auto; lia).
      now injection HS. }
  split; [|split; [exact Cold|]].
  - intros Ho.
    destruct (UnwindPath_loop_hot_top p unique_depth (zero_fraction e)
                (one_fraction e) (Z.to_nat (unique_depth - 1)) buf (pweight eD))
      as (buf1' & HL' & _ & W); try lia; [exact Ho|].
    replace (S (Z.to_nat (unique_depth - 1))) with (Z.to_nat unique_depth)
      in HL' by lia.
    rewrite HL in HL'. injection HL' as <-.
    rewrite Z2Nat.id in W by lia. split.
    + rewrite Hw, W. do 3 f_equal. lia.
    + intros ->. change (Z.to_nat 1) with 1%nat in HS.
      cbn [UnwoundPathSum_loop] in HS.
      rewrite Ho in HS. cbn [Z.of_nat] in HS.
      rewrite (at_elt buf (p + 0)) in HS by lia. cbn [bind] in HS.
      now injection HS.
  - intros Ho Hz.
    destruct (Cold (fnonzero_zero32 _ Ho)) as (Wk & ->). split.
    + destruct (UnwoundPathSum_loop_zero32 p unique_depth (zero_fraction e)
                  (one_fraction e) (Z.to_nat unique_depth) buf (pweight eD)
                  (of_int 0)) as (r & Hr & Fr); auto; try lia.
      rewrite UnwoundPathSum_loop_cold in Hr
        by (auto using fnonzero_zero32; lia).
      injection Hr as <-. exact Fr.
    + intros k Hk. rewrite (Wk k Hk). apply div_zero32, mul_zero32. exact Hz.
Qed.

(* ================================================================= *)
(** ** The decision path in exact arithmetic *)

Section ExactPath.
Context {F : Type} {SF : Scalar F} {EF : ExactScalar F}.
Implicit Types (buf : list (PathElement F)) (e : PathElement F).

Add Field exact_path_field : exact_field.

Local Open Scope scalar_scope.
Local Notation "0" := (of_int 0%Z) : scalar_scope.
Local Notation "1" := (of_int 1%Z) : scalar_scope.

Lemma of_int_succ (n : nat) : of_int (Z.of_nat n + 1) = N n + 1.
Proof. rewrite of_int_add. reflexivity. Qed.

(** [ExtendPath] at depth [D >= 1] applies [ext] to the weights. *)
Lemma ExtendPath_exact buf (p : Z) (D : nat) (z o : F) (f : Z) (V : nat -> F) :
  0 <= p -> p + Z.of_nat D < Z.of_nat (length buf) ->
  (forall k, (k < D)%nat -> pweight (elt buf (p + Z.of_nat k)) = V k) ->
  exists buf',
    ExtendPath buf p (Z.of_nat D) z o f = Done buf' /\
    length buf' = length buf /\
    (forall j, j < p \/ p + Z.of_nat D < j -> elt buf' j = elt buf j) /\
    (forall k, (k < D)%nat ->
               same_split (elt buf' (p + Z.of_nat k)) (elt buf (p + Z.of_nat k))) /\
    feature_index (elt buf' (p + Z.of_nat D)) = f /\
    zero_fraction (elt buf' (p + Z.of_nat D)) = z /\
    one_fraction (elt buf' (p + Z.of_nat D)) = o /\
    (D = O -> pweight (elt buf' p) = 1) /\
    (D <> O -> forall k, (k <= D)%nat ->
                         pweight (elt buf' (p + Z.of_nat k)) = ext D z o V k).
Proof.
  intros Hp Hlen HV.
  destruct (ExtendPath_spec buf p (Z.of_nat D) z o f Hp ltac:(lia) Hlen)
    as (buf' & HE & HL & He).
  exists buf'. split; [exact HE|]. split; [exact HL|].
  assert (E0 : forall j,
             elt (ExtendPath_init buf p (Z.of_nat D) z o f) j =
             if j =? p + Z.of_nat D
             then {| feature_index := f; zero_fraction := z; one_fraction := o;
                     pweight := if Z.of_nat D =? 0 then 1 else 0 |}
             else elt buf j).
  { intros j. unfold ExtendPath_init. rewrite elt_upd by lia. reflexivity. }
  repeat split.
  - intros j Hj. rewrite He, E0. zcases; try lia; reflexivity.
  - rewrite He, E0. zcases; try lia; reflexivity.
  - rewrite He, E0. zcases; try lia; reflexivity.
  - rewrite He, E0. zcases; try lia; reflexivity.
  - rewrite He, E0. zcases; try lia; reflexivity.
  - rewrite He, E0. zcases; try lia; reflexivity.
  - rewrite He, E0. zcases; try lia; reflexivity.
  - intros ->. rewrite He. unfold extended_weight. rewrite !E0.
    cbn [Z.of_nat]. zcases; try lia. reflexivity.
  - intros HD k Hk. rewrite He. unfold extended_weight. rewrite !E0.
    pose proof (N_neq0 (S D) ltac:(lia)) as HN. rewrite N_S in HN.
    unfold ext. rewrite of_int_nat_sub, N_S.
    zcases; try lia; cbn [pweight set_pweight];
      rewrite ?of_int_succ, ?of_int_sub;
      fold (N D);
      repeat match goal with
             | |- context [of_int (p + Z.of_nat k - p)] =>
                 replace (p + Z.of_nat k - p)%Z with (Z.of_nat k) by lia;
                 fold (N k)
             | |- context [elt buf (p + Z.of_nat k - 1)] =>
                 replace (p + Z.of_nat k - 1)%Z
                   with (p + Z.of_nat (pred k))%Z by lia
             | |- context [of_int (p + Z.of_nat D)] => rewrite of_int_add
             | |- context [of_int (p + Z.of_nat k)] => rewrite of_int_add
             end;
      rewrite ?HV by lia.
    all: unfold N in *.
    all: try (assert (Hk0 : k = O) by lia; subst k; cbn [Z.of_nat pred];
              field; exact HN).
    all: try (assert (HkD : k = D) by lia; subst k; field; exact HN).
    all: try (field; exact HN).
Qed.

(** The first loop of [UnwindPath], taken on weights that an extension by
    [(z, o)] made of [V]: it gives [V] back. *)
Lemma UnwindPath_loop_exact (p : Z) (D : nat) (z o : F) (V : nat -> F)
  (k : nat) :
  forall buf next,
    0 <= p -> p + Z.of_nat k <= Z.of_nat (length buf) -> (k <= D)%nat ->
    o <> 0 \/ z <> 0 ->
    (forall j, (j < k)%nat ->
               pweight (elt buf (p + Z.of_nat j)) = ext D z o V j) ->
    next = o * V (pred k) * N k / N (S D) ->
    exists buf',
      UnwindPath_loop k buf p (Z.of_nat D) z o next = Done buf' /\
      length buf' = length buf /\
      forall j,
        elt buf' j =
        if (p <=? j) && (j <? p + Z.of_nat k)
        then set_pweight (elt buf j) (V (Z.to_nat (j - p)))
        else elt buf j.
Proof.
  pose proof (N_neq0 (S D) ltac:(lia)) as HN.
  induction k as [|k IH]; intros buf next Hp Hlen HkD Hoz HW Hnext.
  - exists buf. cbn [UnwindPath_loop]. repeat split. intros j.
    zcases; try lia; reflexivity.
  - cbn [UnwindPath_loop].
    pose proof (N_neq0 (S k) ltac:(lia)) as HNk.
    assert (HDk : N D - N k <> 0).
    { rewrite <- N_minus by lia. apply N_neq0. lia. }
    assert (Wk : pweight (elt buf (p + Z.of_nat k)) = ext D z o V k)
      by (apply HW; lia).
    destruct (fnonzero o) eqn:Eo.
    + apply fnonzero_true in Eo.
      rewrite (at_elt buf (p + Z.of_nat k)) by lia. cbn [bind].
      rewrite set_at_in by lia. cbn [bind].
      rewrite at_upd, Z.eqb_refl by lia. cbn [bind pweight set_pweight].
      set (buf1 := upd buf _ _).
      assert (Vk : (next * of_int (Z.of_nat D + 1)
                    / (of_int (Z.of_nat k + 1) * o)) = V k).
      { rewrite Hnext, !of_int_succ. cbn [pred]. rewrite !N_S in *.
        field. repeat split; assumption. }
      match goal with
      | |- context [UnwindPath_loop k buf1 _ _ z o ?n] =>
          destruct (IH buf1 n Hp) as (buf' & HL & Hlen' & He)
      end; auto; try lia.
      { unfold buf1. rewrite length_upd. lia. }
      { intros j Hj. unfold buf1. rewrite elt_upd by lia.
        zcases; try lia. apply HW. lia. }
      { rewrite Vk, Wk. unfold ext. rewrite of_int_nat_sub, of_int_succ.
        rewrite !N_S in *. field. exact HN. }
      exists buf'. split; [exact HL|]. split.
      { rewrite Hlen'. apply length_upd. }
      intros j. rewrite He. unfold buf1. rewrite elt_upd by lia.
      zcases; subst; try lia; try reflexivity.
      rewrite Vk. do 2 f_equal. lia.
    + apply fnonzero_false in Eo. subst o.
      destruct Hoz as [Hoz|Hz]; [congruence|].
      rewrite (at_elt buf (p + Z.of_nat k)) by lia. cbn [bind].
      rewrite set_at_in by lia. cbn [bind].
      set (buf1 := upd buf _ _).
      destruct (IH buf1 next Hp) as (buf' & HL & Hlen' & He); auto; try lia.
      { unfold buf1. rewrite length_upd. lia. }
      { intros j Hj. unfold buf1. rewrite elt_upd by lia.
        zcases; try lia. apply HW. lia. }
      { rewrite Hnext. field. exact HN. }
      exists buf'. split; [exact HL|]. split.
      { rewrite Hlen'. apply length_upd. }
      intros j. rewrite He. unfold buf1. rewrite elt_upd by lia.
      zcases; subst; try lia; try reflexivity.
      rewrite Wk. unfold ext.
      rewrite !of_int_nat_sub, of_int_succ. rewrite !N_S in *.
      replace (Z.to_nat (p + Z.of_nat k - p)) with k by lia.
      f_equal. field. repeat split; assumption.
Qed.

(** [UnwindPath] at [i], on a path whose weights an extension by the
    fractions of element [i] made of [V]: the weights below [D] are [V]
    again, and the elements above [i] have moved down. *)
Lemma UnwindPath_exact buf (p : Z) (D : nat) (i : Z) (V : nat -> F) :
  0 <= p -> 0 <= i <= Z.of_nat D -> p + Z.of_nat D < Z.of_nat (length buf) ->
  let z := zero_fraction (elt buf (p + i)) in
  let o := one_fraction (elt buf (p + i)) in
  o <> 0 \/ z <> 0 ->
  (forall k, (k <= D)%nat ->
             pweight (elt buf (p + Z.of_nat k)) = ext D z o V k) ->
  exists buf',
    UnwindPath buf p (Z.of_nat D) i = Done buf' /\
    length buf' = length buf /\
    (forall k, (k < D)%nat -> pweight (elt buf' (p + Z.of_nat k)) = V k) /\
    (forall j, i <= j < Z.of_nat D ->
               same_split (elt buf' (p + j)) (elt buf (p + (j + 1)))) /\
    (forall j, 0 <= j < i -> same_split (elt buf' (p + j)) (elt buf (p + j))) /\
    (forall j, j < p \/ p + Z.of_nat D <= j -> elt buf' j = elt buf j).
Proof.
  intros Hp Hi Hlen z o Hoz HW.
  destruct (UnwindPath_compacts buf p (Z.of_nat D) i Hp Hi Hlen)
    as (buf' & HU & L & C1 & C2 & C3).
  exists buf'. split; [exact HU|]. split; [exact L|].
  split; [|auto].
  destruct (UnwindPath_struct buf p (Z.of_nat D) i Hp Hi Hlen)
    as (buf1 & buf'' & HL & HU' & L1 & _ & He).
  rewrite HU in HU'. injection HU' as <-.
  pose proof (N_neq0 (S D) ltac:(lia)) as HN.
  destruct (UnwindPath_loop_exact p D z o V D buf
              (pweight (elt buf (p + Z.of_nat D))) Hp)
    as (buf1' & HL' & _ & H1); auto; try lia.
  { intros j Hj. apply HW. lia. }
  { rewrite HW by lia. unfold ext. rewrite of_int_nat_sub. field. exact HN. }
  rewrite Nat2Z.id in HL. fold z o in HL. rewrite HL in HL'.
  injection HL' as <-.
  intros k Hk. rewrite He. unfold shifted_element.
  assert (E : pweight (elt buf1 (p + Z.of_nat k)) = V k).
  { rewrite H1. zcases; try lia. cbn [pweight set_pweight]. f_equal. lia. }
  zcases; try lia; cbn [pweight]; exact E.
Qed.



(** *** Paths with canonical weights *)

Lemma same_split_eq e e' :
  same_split e e' -> pweight e = pweight e' -> e = e'.
Proof.
  destruct e, e'. unfold same_split. cbn. intros (-> & -> & ->) ->. reflexivity.
Qed.

Lemma remove_nth_perm {A : Type} (d : A) (i : nat) (l : list A) :
  (i < length l)%nat -> Permutation l (nth i l d :: remove_nth i l).
Proof.
  intros H. unfold remove_nth.
  assert (E : nth_error l i = Some (nth i l d)) by (apply nth_error_nth'; exact H).
  rewrite <- (firstn_skipn_middle i l E) at 1.
  symmetry. apply Permutation_middle.
Qed.

Lemma nth_remove_nth {A : Type} (d : A) (i k : nat) (l : list A) :
  (i < length l)%nat ->
  nth k (remove_nth i l) d = if (k <? i)%nat then nth k l d else nth (S k) l d.
Proof.
  intros H. unfold remove_nth.
  destruct (Nat.ltb_spec k i) as [Hk|Hk].
  - rewrite app_nth1 by (rewrite length_firstn; lia).
    rewrite nth_firstn. destruct (Nat.ltb_spec k i); [reflexivity | lia].
  - rewrite app_nth2 by (rewrite length_firstn; lia).
    rewrite length_firstn, nth_skipn. f_equal. lia.
Qed.

Lemma map_remove_nth {A B : Type} (f : A -> B) (i : nat) (l : list A) :
  map f (remove_nth i l) = remove_nth i (map f l).
Proof. unfold remove_nth. now rewrite map_app, firstn_map, skipn_map. Qed.


(** The canonical weights of [r] are an extension, by any one of its
    elements, of those of the others. *)
Lemma cw_remove (r : list (F * F)) (i : nat) (z o : F) (k : nat) :
  (i < length r)%nat -> nth i r (0, 0) = (z, o) -> (k <= length r)%nat ->
  cw r k = ext (length r) z o (cw (remove_nth i r)) k.
Proof.
  intros Hi E Hk.
  rewrite (cw_perm _ _ (remove_nth_perm (0, 0) i r Hi)), E.
  pose proof (length_remove_nth i r Hi) as L.
  replace (length r) with (S (length (remove_nth i r))) by lia.
  symmetry. apply cw_ext. lia.
Qed.

(** Feature and fractions of an element. *)
Definition split_of e : Z * (F * F) :=
  (feature_index e, (zero_fraction e, one_fraction e)).

Lemma same_split_of e e' : same_split e e' -> split_of e = split_of e'.
Proof. unfold same_split, split_of. intros (-> & -> & ->). reflexivity. Qed.

(** The path at offset [p] holds, after the element of the root, the
    features and fractions [r] in this order, with the weights that
    extending the path of the root by them gives. *)
Definition path_ok buf (p : Z) (r : list (Z * (F * F))) : Prop :=
  0 <= p /\ p + Z.of_nat (length r) < Z.of_nat (length buf) /\
  (forall k, (k < length r)%nat ->
             split_of (elt buf (p + Z.of_nat (S k))) = nth k r (0%Z, (0, 0))) /\
  (forall k, (k <= length r)%nat ->
             pweight (elt buf (p + Z.of_nat k)) = cw (map snd r) k).


(** Unwinding at element [S i] of a canonical path gives the canonical
    path of the other elements. *)
Lemma UnwindPath_path_ok buf (p : Z) r (i : nat) :
  path_ok buf p r -> (i < length r)%nat ->
  one_fraction (elt buf (p + Z.of_nat (S i))) <> 0
  \/ zero_fraction (elt buf (p + Z.of_nat (S i))) <> 0 ->
  exists buf',
    UnwindPath buf p (Z.of_nat (length r)) (Z.of_nat (S i)) = Done buf' /\
    length buf' = length buf /\
    path_ok buf' p (remove_nth i r) /\
    feature_index (elt buf' p) = feature_index (elt buf p) /\
    (forall j, j < p \/ p + Z.of_nat (length r) <= j -> elt buf' j = elt buf j).
Proof.
  intros (Hp & Hlen & Hs & Hw) Hi Hoz.
  pose proof (Hs i Hi) as Ei.
  destruct (nth i r (0%Z, (0, 0))) as [fi [zi oi]] eqn:En.
  assert (Ez : zero_fraction (elt buf (p + Z.of_nat (S i))) = zi)
    by exact (f_equal (fun x => fst (snd x)) Ei).
  assert (Eo : one_fraction (elt buf (p + Z.of_nat (S i))) = oi)
    by exact (f_equal (fun x => snd (snd x)) Ei).
  destruct (UnwindPath_exact buf p (length r) (Z.of_nat (S i))
              (cw (remove_nth i (map snd r))) Hp ltac:(lia) Hlen)
    as (buf' & HU & L & W & C1 & C2 & C3).
  { exact Hoz. }
  { intros k Hk. rewrite Hw by exact Hk. rewrite Ez, Eo.
    rewrite <- (length_map snd r). apply cw_remove.
    - rewrite length_map. exact Hi.
    - change (0, 0) with (snd (0%Z, (@of_int F SF 0, @of_int F SF 0))).
      rewrite map_nth, En. reflexivity.
    - rewrite length_map. exact Hk. }
  exists buf'. split; [exact HU|]. split; [exact L|].
  pose proof (length_remove_nth i r Hi) as LR.
  split; [|split; [|exact C3]].
  - split; [exact Hp|]. split; [lia|]. split.
    + intros k Hk. rewrite nth_remove_nth by exact Hi.
      destruct (Nat.ltb_spec k i) as [Hki|Hki].
      * rewrite (same_split_of _ _ (C2 (Z.of_nat (S k)) ltac:(lia))).
        apply Hs. lia.
      * rewrite (same_split_of _ _ (C1 (Z.of_nat (S k)) ltac:(lia))).
        replace (Z.of_nat (S k) + 1)%Z with (Z.of_nat (S (S k))) by lia.
        apply Hs. lia.
    + intros k Hk. rewrite map_remove_nth. apply W. lia.
  - pose proof (C2 0%Z ltac:(lia)) as S0. rewrite Z.add_0_r in S0.
    apply S0.
Qed.





(** In exact arithmetic, and for fractions [z] and [o] that are not both
    zero, extending a path of depth [D], whatever its state, by an element
    and unwinding at the position of this element gives back the [D]
    earlier elements, weights included. *)
Lemma UnwindPath_restores_path buf (p : Z) (D : nat) (z o : F) (f : Z) :
  0 <= p -> p + Z.of_nat D < Z.of_nat (length buf) ->
  o <> 0 \/ z <> 0 ->
  exists buf1 buf2,
    ExtendPath buf p (Z.of_nat D) z o f = Done buf1 /\
    UnwindPath buf1 p (Z.of_nat D) (Z.of_nat D) = Done buf2 /\
    length buf2 = length buf /\
    (forall k, (k < D)%nat ->
               elt buf2 (p + Z.of_nat k) = elt buf (p + Z.of_nat k)) /\
    (forall j, j < p \/ p + Z.of_nat D < j -> elt buf2 j = elt buf j).
Proof.
  intros Hp Hlen Hoz.
  destruct (ExtendPath_exact buf p D z o f
              (fun k => pweight (elt buf (p + Z.of_nat k))) Hp Hlen)
    as (buf1 & HE & L1 & Fr & Sp & Ef & Ez & Eo & W0 & W).
  { reflexivity. }
  exists buf1.
  destruct D as [|D'].
  - destruct (UnwindPath_compacts buf1 p 0 0 Hp ltac:(lia))
      as (buf2 & HU & L2 & _ & _ & C3).
    { cbn [Z.of_nat] in *. lia. }
    exists buf2. cbn [Z.of_nat] in *.
    split; [exact HE|]. split; [exact HU|]. split; [lia|]. split.
    + intros k Hk. lia.
    + intros j Hj. rewrite C3 by lia. apply Fr. lia.
  - set (D := S D') in *.
    destruct (UnwindPath_exact buf1 p D (Z.of_nat D)
                (fun k => pweight (elt buf (p + Z.of_nat k))) Hp
                ltac:(lia) ltac:(lia))
      as (buf2 & HU & L2 & W2 & _ & C2 & C3).
    { rewrite Ez, Eo. exact Hoz. }
    { rewrite Ez, Eo. apply W. unfold D. lia. }
    exists buf2. split; [exact HE|]. split; [exact HU|]. split; [lia|]. split.
    + intros k Hk. apply same_split_eq.
      * eapply same_split_trans; [apply C2; lia | apply Sp; exact Hk].
      * now apply W2.
    + intros j Hj. rewrite C3 by lia. apply Fr. lia.
Qed.

End ExactPath.

(** C4 (as amended).  In any arithmetic, single precision included:
    extending a path of depth [D], whatever its state, by an element and
    unwinding at the position of this element returns, gives back feature
    and fractions of the [D] earlier elements and leaves the buffer around
    the path alone; and [UnwindPath] at any position [i] moves feature and
    fractions of every element after [i] down one slot and keeps those of
    the elements before [i].  The weights come back only in exact
    arithmetic, for fractions [z] and [o] that are not both zero: there the
    [D] earlier elements are given back whole, and at the position [S i] of
    an earlier element of a path that carries the weights of its fractions
    [r], unwinding gives the path that carries the weights of [r] without
    its element [i]. *)
Theorem UnwindPath_inverts_ExtendPath {F : Type} {SF : Scalar F}
  (buf : list (PathElement F)) (p : Z) (D : nat) (z o : F) (f : Z) :
  0 <= p -> p + Z.of_nat D < Z.of_nat (length buf) ->
  (exists buf1 buf2,
      ExtendPath buf p (Z.of_nat D) z o f = Done buf1 /\
      UnwindPath buf1 p (Z.of_nat D) (Z.of_nat D) = Done buf2 /\
      length buf2 = length buf /\
      (forall k, (k < D)%nat ->
                 same_split (elt buf2 (p + Z.of_nat k))
                            (elt buf (p + Z.of_nat k))) /\
      (forall j, j < p \/ p + Z.of_nat D < j -> elt buf2 j = elt buf j) /\
      (ExactScalar F -> o <> of_int 0 \/ z <> of_int 0 ->
       forall k, (k < D)%nat ->
                 elt buf2 (p + Z.of_nat k) = elt buf (p + Z.of_nat k))) /\
  (forall b i,
      length b = length buf -> 0 <= i <= Z.of_nat D ->
      exists b',
        UnwindPath b p (Z.of_nat D) i = Done b' /\
        length b' = length b /\
        (forall j, i <= j < Z.of_nat D ->
                   same_split (elt b' (p + j)) (elt b (p + (j + 1)))) /\
        (forall j, 0 <= j < i -> same_split (elt b' (p + j)) (elt b (p + j))) /\
        (forall j, j < p \/ p + Z.of_nat D <= j -> elt b' j = elt b j)) /\
  (ExactScalar F ->
   forall b r i,
      path_ok b p r -> length r = D -> (i < D)%nat ->
      one_fraction (elt b (p + Z.of_nat (S i))) <> of_int 0
      \/ zero_fraction (elt b (p + Z.of_nat (S i))) <> of_int 0 ->
      exists b',
        UnwindPath b p (Z.of_nat D) (Z.of_nat (S i)) = Done b' /\
        path_ok b' p (remove_nth i r)).
Proof.
  intros Hp Hlen. split; [|split].
  - destruct (ExtendPath_split buf p (Z.of_nat D) z o f Hp ltac:(lia) Hlen)
      as (buf1 & HE & L1 & Fr & Sp & _).
    destruct (UnwindPath_compacts buf1 p (Z.of_nat D) (Z.of_nat D) Hp
                ltac:(lia) ltac:(lia))
      as (buf2 & HU & L2 & _ & C2 & C3).
    exists buf1, buf2. split; [exact HE|]. split; [exact HU|].
    split; [lia|]. split; [|split].
    + intros k Hk.
      eapply same_split_trans; [apply C2; lia | apply Sp; lia].
    + intros j Hj. rewrite C3 by lia. apply Fr. lia.
    + intros EF Hoz k Hk.
      destruct (UnwindPath_restores_path buf p D z o f Hp Hlen Hoz)
        as (buf1' & buf2' & HE' & HU' & _ & R & _).
      rewrite HE in HE'. injection HE' as <-.
      rewrite HU in HU'. injection HU' as <-.
      now apply R.
  - intros b i Lb Hi.
    apply (UnwindPath_compacts b p (Z.of_nat D) i Hp Hi). lia.
  - intros EF b r i Hok Lr Hi Hnz. subst D.
    destruct (UnwindPath_path_ok b p r i Hok Hi Hnz) as (b' & HU & _ & Hok' & _).
    exists b'. auto.
Qed.

(** *** A path in single precision and in exact arithmetic *)

Module DemoUnwind.

Definition ratio {F : Type} {SF : Scalar F} (a b : Z) : F :=
  fdiv (of_int a) (of_int b).

Definition blank {F : Type} {SF : Scalar F} : PathElement F :=
  PathElement_new 0 (of_int 0).

(** What a call leaves, or the buffer as it was when the call aborts. *)
Definition after {F : Type} (buf : list (PathElement F))
  (call : outcome (list (PathElement F))) : list (PathElement F) :=
  match call with Done buf' => buf' | Abort _ => buf end.

Section Paths.
Context {F : Type} {SF : Scalar F}.

(** The path of the root ... *)
Definition path0 : list (PathElement F) :=
  after [] (ExtendPath [blank; blank; blank] 0 0 (of_int 1) (of_int 1) (-1)).
(** ... extended by a split on feature 3 that 3/5 of the weight follows. *)
Definition path1 : list (PathElement F) :=
  after [] (ExtendPath path0 0 1 (ratio 3 5) (of_int 1) 3).

End Paths.

End DemoUnwind.

(** C4, the claim as stated fails in single precision, where the weights
    come back rounded: on the path of the root extended by a split that 3/5
    of the weight follows, an extension at depth 2 by the fractions 5/6 and
    0, unwound at once, leaves 0.49999997 where the weight was 0.5; and an
    extension of the path of the root by two zero fractions unwinds to a
    weight that is not a number. *)
Lemma UnwindPath_rounding :
  exists b2 b3 c1 c2 : list (PathElement binary32),
    ExtendPath DemoUnwind.path1 0 2 (DemoUnwind.ratio 5 6) (of_int 0) 5 = Done b2 /\
    UnwindPath b2 0 2 2 = Done b3 /\
    pweight (elt DemoUnwind.path1 1) = S754_finite false 8388608 (-24) /\
    pweight (elt b3 1) = S754_finite false 16777215 (-25) /\
    ExtendPath DemoUnwind.path0 0 1 (of_int 0) (of_int 0) 3 = Done c1 /\
    UnwindPath c1 0 1 1 = Done c2 /\
    pweight (elt DemoUnwind.path0 0) = of_int 1 /\
    pweight (elt c2 0) = S754_nan.
Proof.
  do 4 eexists. repeat split; try reflexivity.
Qed.

Lemma UnwindPath_inverts_ExtendPath_witness :
  (exists buf1 buf2 : list (PathElement binary32),
     ExtendPath DemoUnwind.path1 0 2 (DemoUnwind.ratio 5 6) (of_int 0) 5
     = Done buf1 /\
     UnwindPath buf1 0 2 2 = Done buf2 /\
     length buf2 = length (DemoUnwind.path1 (F:=binary32)) /\
     (forall k, (k < 2)%nat ->
                same_split (elt buf2 (0 + Z.of_nat k))
                           (elt DemoUnwind.path1 (0 + Z.of_nat k))) /\
     (forall j, j < 0 \/ 0 + 2 < j -> elt buf2 j = elt DemoUnwind.path1 j)) /\
  (exists buf1 buf2 : list (PathElement Qc),
     ExtendPath DemoUnwind.path1 0 2 (DemoUnwind.ratio 5 6) (of_int 0) 5
     = Done buf1 /\
     UnwindPath buf1 0 2 2 = Done buf2 /\
     length buf2 = length (DemoUnwind.path1 (F:=Qc)) /\
     (forall k, (k < 2)%nat ->
                elt buf2 (0 + Z.of_nat k) = elt DemoUnwind.path1 (0 + Z.of_nat k)) /\
     (forall j, j < 0 \/ 0 + 2 < j -> elt buf2 j = elt DemoUnwind.path1 j)).
Proof.
  split.
  - destruct (UnwindPath_inverts_ExtendPath (F:=binary32) DemoUnwind.path1 0 2
                (DemoUnwind.ratio 5 6) (of_int 0) 5)
      as ((buf1 & buf2 & HE & HU & L & Sp & Fr & _) & _).
    + lia.
    + vm_compute. reflexivity.
    + exists buf1, buf2. auto.
  - destruct (UnwindPath_inverts_ExtendPath (F:=Qc) DemoUnwind.path1 0 2
                (DemoUnwind.ratio 5 6) (of_int 0) 5)
      as ((buf1 & buf2 & HE & HU & L & _ & Fr & Ex) & _).
    + lia.
    + vm_compute. reflexivity.
    + exists buf1, buf2. split; [exact HE|]. split; [exact HU|].
      split; [exact L|]. split; [|exact Fr].
      apply Ex; [exact ExactScalar_Qc|].
      right. intros H. apply (f_equal this) in H. vm_compute in H.
      discriminate H.
Defined.

Lemma zero_fractions_divide_by_zero_witness :
  ExtendPath
    [ {| feature_index := -1; zero_fraction := Demo.f32 1;
         one_fraction := Demo.f32 1; pweight := Demo.f32 1 |};
      {| feature_index := 7; zero_fraction := Demo.f32 7;
         one_fraction := Demo.f32 7; pweight := Demo.f32 7 |} ]
    0 1 (Demo.f32 0) (Demo.f32 0) 0 = Done DemoPath.zero_path /\
  (exists buf' total,
     UnwindPath DemoPath.zero_path 0 1 1 = Done buf' /\
     UnwoundPathSum DemoPath.zero_path 0 1 1 = Done total /\
     is_finite32 total = false /\
     is_finite32 (pweight (elt buf' 0)) = false) /\
  (exists buf' total,
     UnwindPath (F:=binary32) DemoUnwind.path1 0 1 1 = Done buf' /\
     UnwoundPathSum (F:=binary32) DemoUnwind.path1 0 1 1 = Done total /\
     pweight (elt buf' 0)
     = fdiv (fmul (pweight (elt DemoUnwind.path1 1)) (of_int 2))
            (fmul (of_int 1) (of_int 1)) /\
     total = of_int 1).
Proof.
  split; [reflexivity|]. split.
  - destruct (zero_fractions_divide_by_zero DemoPath.zero_path 0 1 1
                {| feature_index := 0; zero_fraction := Demo.f32 0;
                   one_fraction := Demo.f32 0; pweight := Demo.f32 0 |}
                {| feature_index := 0; zero_fraction := Demo.f32 0;
                   one_fraction := Demo.f32 0; pweight := Demo.f32 0 |})
      as (buf' & total & HU & HT & _ & _ & Z);
      try reflexivity; try (simpl; lia).
    destruct (Z eq_refl eq_refl) as (Ft & Fw).
    exists buf', total. split; [exact HU|]. split; [exact HT|].
    split; [exact Ft|]. apply (Fw 0). lia.
  - destruct (zero_fractions_divide_by_zero DemoUnwind.path1 0 1 1
                (elt DemoUnwind.path1 1) (elt DemoUnwind.path1 1))
      as (buf' & total & HU & HT & Hot & _ & _);
      try (vm_compute; reflexivity); try lia.
    assert (Ho : fnonzero (one_fraction (elt (F:=binary32) DemoUnwind.path1 1))
                 = true) by (vm_compute; reflexivity).
    destruct (Hot Ho) as (W & T).
    exists buf', total. split; [exact HU|]. split; [exact HT|].
    split; [exact W|]. rewrite (T eq_refl). vm_compute. reflexivity.
Defined.

(* ================================================================= *)
(** ** The attributions of [TreeShap] in exact arithmetic *)

Section Attribution.
Context {F : Type} {SF : Scalar F} {EF : ExactScalar F}.
Implicit Types (buf : list (PathElement F)) (e : PathElement F).
Implicit Types (phi : list F) (r : list (Z * (F * F))).

Add Field attribution_field : exact_field.

Local Open Scope scalar_scope.
Local Notation "0" := (of_int 0%Z) : scalar_scope.
Local Notation "1" := (of_int 1%Z) : scalar_scope.






(** *** The invariant of the path *)







(** *** The loop of [TreeShap] at a leaf *)




(** *** Entering [TreeShap]: the copy and the extension *)




(** *** Undoing an earlier split on the same feature *)







(** *** Subtrees and the room they need *)

(** The side a feature vector takes at a node. *)
Definition goes_left (n : Node F) (x : Entry F) : bool :=
  match x with
  | missing => default_left n
  | present v => fltb v (split_cond n)
  end.

(** [subtree_eval t feat nid h pred mean]: below [nid] the links of [t]
    form a tree of height [h], with two distinct children at every split,
    a feature of [feat] to split on and a hessian sum that is not zero at
    every node; [pred] is the value of the leaf that [feat] reaches and
    [mean] the mean of the leaf values, a child weighing its hessian sum
    over the one of its parent.  The children are named by the side [feat]
    takes: [hot] is the child it reaches. *)
Inductive subtree_eval (t : RegTree F) (feat : FVec F)
  : Z -> nat -> F -> F -> Prop :=
| eval_leaf nid n :
    (0 <= nid <= INT_MAX)%Z -> node_at t nid = Done n -> is_leaf n = true ->
    subtree_eval t feat nid O (leaf_value n) (leaf_value n)
| eval_inner nid n (x : Entry F) hot cold sn sh sc hh hc pred predc meanh meanc :
    (0 <= nid <= INT_MAX)%Z -> node_at t nid = Done n -> is_leaf n = false ->
    (0 <= cleft n <= INT_MAX)%Z -> (0 <= cright n <= INT_MAX)%Z ->
    cleft n <> cright n ->
    at_ (data feat) (split_index n) = Done x ->
    hot = (if goes_left n x then cleft n else cright n) ->
    cold = (if goes_left n x then cright n else cleft n) ->
    stat t nid = Done sn -> stat t hot = Done sh -> stat t cold = Done sc ->
    sum_hess sn <> 0 -> sum_hess sh <> 0 -> sum_hess sc <> 0 ->
    subtree_eval t feat hot hh pred meanh ->
    subtree_eval t feat cold hc predc meanc ->
    subtree_eval t feat nid (S (Nat.max hh hc)) pred
      ((meanh * sum_hess sh + meanc * sum_hess sc) / sum_hess sn).





Lemma split_index_range (n : Node F) : (0 <= split_index n <= INT_MAX)%Z.
Proof.
  unfold split_index, INT_MAX.
  change (Z.shiftl 1 31 - 1)%Z with (Z.ones 31). rewrite Z.land_ones by lia.
  pose proof (Z.mod_pos_bound (sindex_ n) (2 ^ 31) ltac:(lia)). lia.
Qed.


(** *** [TreeShap] on a subtree *)




(** *** [Predict], [MaxDepth] and the cache on a subtree *)

Lemma subtree_children (n : Node F) (x : Entry F) (hot cold : Z) :
  hot = (if goes_left n x then cleft n else cright n) ->
  cold = (if goes_left n x then cright n else cleft n) ->
  (cleft n = hot /\ cright n = cold) \/ (cleft n = cold /\ cright n = hot).
Proof. intros -> ->. destruct (goes_left n x); auto. Qed.



(** [FillNodeMeanValue] computes the [mean] of [subtree_eval] and stores it
    in the cache. *)
Lemma FillNodeMeanValue_spec (t : RegTree F) (feat : FVec F)
  (nid : Z) (h : nat) (pred mean : F) :
  subtree_eval t feat nid h pred mean ->
  forall (fuel : nat) (t1 : RegTree F),
    (h < fuel)%nat -> model t1 = model t ->
    length (node_mean_values t1) = length (nodes (model t)) ->
    exists t2,
      FillNodeMeanValue fuel t1 nid = Done (mean, t2) /\
      model t2 = model t /\
      length (node_mean_values t2) = length (nodes (model t)) /\
      at_ (node_mean_values t2) nid = Done mean.
Proof.
  induction 1 as [nid n Hnid Hn Hleaf
                 | nid n x hot cold sn sh sc hh hc pred predc meanh meanc
                     Hnid Hn Hleaf Hcl Hcr Hne Hx Ehot Ecold Hsn Hsh Hsc
                     Nn Nh Nc _ IHh _ IHc];
    intros fuel t1 Hfuel Hm Hlen; (destruct fuel as [|fuel]; [lia|]);
    cbn [FillNodeMeanValue]; unfold node_at, stat in *; rewrite Hm, Hn;
    cbn [bind]; rewrite Hleaf; pose proof (at_Done_lt _ _ _ Hn) as Hlt.
  - cbn [bind]. rewrite set_at_in by lia. cbn [bind].
    eexists. split; [reflexivity|]. cbn [model node_mean_values with_node_mean_values].
    split; [exact Hm|]. split; [rewrite length_upd; exact Hlen|].
    apply at_upd_eq. lia.
  - assert (Hfill : forall a b ma mb sa sb (t1 : RegTree F),
               model t1 = model t ->
               length (node_mean_values t1) = length (nodes (model t)) ->
               (forall t1 : RegTree F,
                   model t1 = model t ->
                   length (node_mean_values t1) = length (nodes (model t)) ->
                   exists t2,
                     FillNodeMeanValue fuel t1 a = Done (ma, t2) /\
                     model t2 = model t /\
                     length (node_mean_values t2) = length (nodes (model t)) /\
                     at_ (node_mean_values t2) a = Done ma) ->
               (forall t1 : RegTree F,
                   model t1 = model t ->
                   length (node_mean_values t1) = length (nodes (model t)) ->
                   exists t2,
                     FillNodeMeanValue fuel t1 b = Done (mb, t2) /\
                     model t2 = model t /\
                     length (node_mean_values t2) = length (nodes (model t)) /\
                     at_ (node_mean_values t2) b = Done mb) ->
               at_ (stats (model t)) a = Done sa ->
               at_ (stats (model t)) b = Done sb ->
               exists t2,
                 ('(ml, t) <- FillNodeMeanValue fuel t1 a ;;
                  sl <- at_ (stats (model t)) a ;;
                  '(mr, t) <- FillNodeMeanValue fuel t b ;;
                  sr <- at_ (stats (model t)) b ;;
                  sn <- at_ (stats (model t)) nid ;;
                  Done ((ml * sum_hess sl + mr * sum_hess sr) / sum_hess sn, t))
                 = Done ((ma * sum_hess sa + mb * sum_hess sb) / sum_hess sn, t2) /\
                 model t2 = model t /\
                 length (node_mean_values t2) = length (nodes (model t))).
    { intros a b ma mb sa sb t0 Hm0 Hl0 Ha Hb Hsa Hsb.
      destruct (Ha t0 Hm0 Hl0) as (ta & HFa & Hma & Hla & _).
      destruct (Hb ta Hma Hla) as (tb & HFb & Hmb & Hlb & _).
      exists tb. rewrite HFa. cbn [bind]. rewrite Hma, Hsa. cbn [bind].
      rewrite HFb. cbn [bind]. rewrite Hmb, Hsb, Hsn. cbn [bind]. auto. }
    destruct (subtree_children n x hot cold Ehot Ecold) as [(El & Er) | (El & Er)];
      rewrite El, Er.
    + destruct (Hfill hot cold meanh meanc sh sc t1 Hm Hlen) as (t2 & HF & Hm2 & Hl2);
        auto; try (intros; apply IHh || apply IHc; auto; lia).
      rewrite HF. cbn [bind]. rewrite set_at_in by lia. cbn [bind].
      eexists. split; [reflexivity|].
      cbn [model node_mean_values with_node_mean_values].
      split; [exact Hm2|]. split; [rewrite length_upd; exact Hl2|].
      apply at_upd_eq. lia.
    + destruct (Hfill cold hot meanc meanh sc sh t1 Hm Hlen) as (t2 & HF & Hm2 & Hl2);
        auto; try (intros; apply IHh || apply IHc; auto; lia).
      rewrite HF. cbn [bind]. rewrite set_at_in by lia. cbn [bind].
      replace ((meanc * sum_hess sc + meanh * sum_hess sh) / sum_hess sn)
        with ((meanh * sum_hess sh + meanc * sum_hess sc) / sum_hess sn)
        by (field; exact Nn).
      eexists. split; [reflexivity|].
      cbn [model node_mean_values with_node_mean_values].
      split; [exact Hm2|]. split; [rewrite length_upd; exact Hl2|].
      apply at_upd_eq. lia.
Qed.

(** [FillNodeMeanValues] on a tree of one root whose cache has not the
    size of the node array: the cache then holds the mean at the root. *)
Lemma FillNodeMeanValues_spec (t : RegTree F) (feat : FVec F)
  (h : nat) (pred mean : F) (fuel : nat) :
  subtree_eval t feat 0 h pred mean -> (h < fuel)%nat ->
  num_roots (param (model t)) = 1%Z ->
  num_nodes (param (model t)) = Z.of_nat (length (nodes (model t))) ->
  (Z.of_nat (length (nodes (model t))) < 2 ^ 64)%Z ->
  length (node_mean_values t) <> length (nodes (model t)) ->
  exists t',
    FillNodeMeanValues fuel t = Done t' /\ model t' = model t /\
    at_ (node_mean_values t') 0 = Done mean.
Proof.
  intros Hev Hfuel Hroots Hnodes Hsmall Hne.
  unfold FillNodeMeanValues. rewrite Hroots, Hnodes, Z.mod_small by lia.
  destruct (Z.eqb_spec (Z.of_nat (length (node_mean_values t)))
              (Z.of_nat (length (nodes (model t))))) as [E|_]; [lia|].
  unfold resize. destruct (Z.ltb_spec (Z.of_nat (length (nodes (model t)))) 0);
    [lia|].
  cbn [bind]. change (Z.to_nat 1) with 1%nat. cbn [FillNodeMeanValues_loop].
  destruct (FillNodeMeanValue_spec t feat 0%Z h pred mean Hev fuel
              (with_node_mean_values t
                 (firstn (Z.to_nat (Z.of_nat (length (nodes (model t)))))
                    (node_mean_values t)
                  ++ repeat 0
                       (Z.to_nat (Z.of_nat (length (nodes (model t))))
                        - length (node_mean_values t)))) Hfuel eq_refl)
    as (t2 & HF & Hm & _ & Hat).
  { cbn [node_mean_values with_node_mean_values].
    rewrite length_resized. apply Nat2Z.id. }
  rewrite HF. cbn [bind]. exists t2. auto.
Qed.



End Attribution.

(* ================================================================= *)
(** ** What [TreeShap] does in any arithmetic

    The control flow of the attribution engine does not depend on the
    weights it computes: which elements of the path buffer a call reads
    and writes, and which attributions it adds to, are decided by the
    links of the tree and by the features on the path.  This section
    follows them in any arithmetic in which [1 == 0] is false, single
    precision included. *)

Section Shape.
Context {F : Type} {SF : Scalar F}.
Implicit Types (buf : list (PathElement F)) (e : PathElement F).
Implicit Types (phi : list F) (t : RegTree F) (feat : FVec F).

Hypothesis one_is_not_zero : feqb (of_int 1) (of_int 0) = false.

(** Some split of the tree tests feature [f]. *)
Definition splits_on t (f : Z) : Prop :=
  exists i n, node_at t i = Done n /\ is_leaf n = false /\ split_index n = f.













End Shape.

(** *** The scenario of the specification *)

Module DemoShap.

Section Scenario.
Context {F : Type} {SF : Scalar F}.

Definition ratio (a b : Z) : F := fdiv (of_int a) (of_int b).

Definition node_stat (h : Z) : RTreeNodeStat F :=
  {| loss_chg := of_int 0; sum_hess := of_int h; base_weight := of_int 0;
     leaf_child_cnt := 0 |}.

Definition split (parent left right feature : Z) (cond : F) : Node F :=
  {| parent_ := parent; cleft_ := left; cright_ := right; sindex_ := feature;
     info_ := cond |}.

Definition leaf (parent : Z) (value : Z) : Node F :=
  {| parent_ := parent; cleft_ := -1; cright_ := -1; sindex_ := 0;
     info_ := of_int value |}.

(** A split on feature 0 at 0.5, then on the left a split on feature 1 at
    1.5; leaves 1, 2 and 3; the hessian sums are those given, in the order
    of the nodes; the cache is empty. *)
Definition tree_with (hess : list Z) : RegTree F :=
  {| model :=
       {| nodes := [split (-1) 1 2 0 (ratio 1 2); split 0 3 4 1 (ratio 3 2);
                    leaf 0 3; leaf 1 1; leaf 1 2];
          deleted_nodes := [];
          stats := map node_stat hess;
          leaf_vector := []; param := Demo.param_of 5 |};
     node_mean_values := [] |}.

(** The tree once [FillNodeMeanValues] has run. *)
Definition filled (t : RegTree F) : RegTree F :=
  match FillNodeMeanValues 3 t with
  | Done t' => t'
  | Abort _ => t
  end.

(** Hessian sums 10 at the root, 6 and 4 below it, 1 and 5 at the two left
    leaves. *)
Definition scenario : RegTree F := filled (tree_with [10; 6; 4; 1; 5]).


(** Feature 0 is 0.2 and feature 1 is 2. *)
Definition input : FVec F := {| data := [present (ratio 1 5); present (of_int 2)] |}.

Definition zeros : list F := [of_int 0; of_int 0; of_int 0].

End Scenario.

End DemoShap.


Module DemoCancel.

Section Scenario.
Context {F : Type} {SF : Scalar F}.

(** A split on feature 0 at 0.5 with the leaves 1 and 100000000; the
    hessian sums are 2 at the root and 1 at each leaf; the cache is
    empty. *)
Definition stump : RegTree F :=
  {| model :=
       {| nodes := [DemoShap.split (-1) 1 2 0 (DemoShap.ratio 1 2);
                    DemoShap.leaf 0 1; DemoShap.leaf 0 100000000];
          deleted_nodes := [];
          stats := map DemoShap.node_stat [2; 1; 1];
          leaf_vector := []; param := Demo.param_of 3 |};
     node_mean_values := [] |}.

(** The tree once [FillNodeMeanValues] has run. *)
Definition scenario : RegTree F := DemoShap.filled stump.

End Scenario.

End DemoCancel.



(* ================================================================= *)
(** ** The two packed words of a node *)

Lemma land_pow31_small (a : Z) : 0 <= a < 2 ^ 31 -> Z.land a (2 ^ 31) = 0.
Proof.
  intros H. apply Z.bits_inj'. intros k Hk.
  rewrite Z.land_spec, Z.bits_0, Z.pow2_bits_eqb by lia.
  destruct (Z.eqb_spec 31 k) as [<-|Hne]; [|apply andb_false_r].
  destruct (Z.eq_dec a 0) as [->|Ha]; [now rewrite Z.bits_0|].
  rewrite Z.bits_above_log2; [reflexivity | lia|].
  apply Z.log2_lt_pow2; lia.
Qed.

Lemma lor_pow31_small (a : Z) : 0 <= a < 2 ^ 31 -> Z.lor a (2 ^ 31) = a + 2 ^ 31.
Proof.
  intros H. pose proof (Z.add_lor_land a (2 ^ 31)) as E.
  rewrite land_pow31_small in E by exact H. lia.
Qed.

Lemma land_ones31 (a : Z) : 0 <= a -> Z.land a (2 ^ 31 - 1) = a mod 2 ^ 31.
Proof.
  intros H. change (2 ^ 31 - 1) with (Z.ones 31). apply Z.land_ones. lia.
Qed.

Section PackedWords.
Context {bst_float : Type}.
Implicit Types (n : Node bst_float).

(** X1.  [set_split] packs the feature index and the default direction
    into [sindex_]: for an index below [2^31] the getters give back what
    was set, and the children and the parent word are as before.  The
    packed word is the deletion mark exactly when the index is [2^31 - 1]
    and the default direction is left. *)
Theorem set_split_getters n (idx : Z) (cond : bst_float) (dl : bool) :
  0 <= idx < 2 ^ 31 ->
  split_index (set_split n idx cond dl) = idx /\
  default_left (set_split n idx cond dl) = dl /\
  split_cond (set_split n idx cond dl) = cond /\
  cleft (set_split n idx cond dl) = cleft n /\
  cright (set_split n idx cond dl) = cright n /\
  parent_ (set_split n idx cond dl) = parent_ n /\
  (is_deleted (set_split n idx cond dl) = true <-> idx = 2 ^ 31 - 1 /\ dl = true).
Proof.
  intros H. split; [|split; [now apply default_left_set_split|]].
  - unfold split_index, set_split. cbn [sindex_].
    change (Z.shiftl 1 31) with (2 ^ 31).
    destruct dl.
    + rewrite lor_pow31_small, land_ones31 by lia.
      rewrite <- Zplus_mod_idemp_r, Z.mod_same, Z.add_0_r by lia.
      apply Z.mod_small. lia.
    + rewrite land_ones31 by lia. apply Z.mod_small. lia.
  - do 4 (split; [reflexivity|]).
    unfold is_deleted, set_split, UINT_MAX. cbn [sindex_].
    change (Z.shiftl 1 31) with (2 ^ 31). split.
    + intros E. apply Z.eqb_eq in E.
      destruct dl; [rewrite lor_pow31_small in E by lia|]; split;
        try reflexivity; lia.
    + intros [-> ->]. reflexivity.
Qed.

Lemma set_parent_fields n (pidx : Z) (left : bool) :
  0 <= pidx < 2 ^ 31 - 1 ->
  parent (set_parent n pidx left) = pidx /\
  is_left_child (set_parent n pidx left) = left /\
  is_root (set_parent n pidx left) = false /\
  is_root (set_parent n (-1) left) = true /\
  cleft (set_parent n pidx left) = cleft n /\
  cright (set_parent n pidx left) = cright n /\
  sindex_ (set_parent n pidx left) = sindex_ n.
Proof.
  intros H.
  assert (E : parent_ (set_parent n pidx left)
              = if left then pidx - 2 ^ 31 else pidx).
  { unfold set_parent. cbn [parent_]. destruct left; [|reflexivity].
    change (Z.shiftl 1 31) with (2 ^ 31).
    rewrite to_unsigned_id by (unfold UINT_MAX; lia).
    rewrite lor_pow31_small by lia. unfold to_int.
    replace (pidx + 2 ^ 31 + 2 ^ 31) with (pidx + 1 * 2 ^ 32) by lia.
    rewrite Z.mod_add, Z.mod_small by lia. lia. }
  assert (U : to_unsigned (parent_ (set_parent n pidx left))
              = if left then pidx + 2 ^ 31 else pidx).
  { rewrite E. unfold to_unsigned. destruct left.
    - replace (pidx - 2 ^ 31) with (pidx + 2 ^ 31 + (-1) * 2 ^ 32) by lia.
      rewrite Z.mod_add, Z.mod_small by lia. reflexivity.
    - apply Z.mod_small. lia. }
  repeat split.
  - unfold parent. rewrite U. change (Z.shiftl 1 31 - 1) with (2 ^ 31 - 1).
    destruct left.
    + rewrite land_ones31 by lia.
      rewrite <- Zplus_mod_idemp_r, Z.mod_same, Z.add_0_r by lia.
      rewrite Z.mod_small by lia. apply to_int_id. unfold INT_MIN, INT_MAX. lia.
    + rewrite land_ones31 by lia. rewrite Z.mod_small by lia.
      apply to_int_id. unfold INT_MIN, INT_MAX. lia.
  - unfold is_left_child. rewrite U. change (Z.shiftl 1 31) with (2 ^ 31).
    destruct left.
    + rewrite <- lor_pow31_small, Z.land_lor_distr_l by lia.
      rewrite land_pow31_small by lia. reflexivity.
    + rewrite land_pow31_small by lia. reflexivity.
  - unfold is_root. rewrite E. destruct left; apply Z.eqb_neq; lia.
  - destruct left; reflexivity.
Qed.

(** X2.  [set_parent] packs the parent and the side into [parent_]: for a
    parent below [2^31 - 1] the getters give back what was set and the node
    is not a root; the parent [-1] marks a root on either side. *)
Theorem set_parent_getters n (pidx : Z) (left : bool) :
  0 <= pidx < 2 ^ 31 - 1 ->
  parent (set_parent n pidx left) = pidx /\
  is_left_child (set_parent n pidx left) = left /\
  is_root (set_parent n pidx left) = false /\
  is_root (set_parent n (-1) left) = true /\
  cleft (set_parent n pidx left) = cleft n /\
  cright (set_parent n pidx left) = cright n /\
  sindex_ (set_parent n pidx left) = sindex_ n.
Proof.
  intros H.
  destruct (set_parent_fields n pidx left H) as (H1 & H2 & H3 & H4 & H5).
  repeat (split; [assumption|]). exact H5.
Qed.

End PackedWords.

Lemma set_split_getters_witness :
  split_index (set_split (Demo.leaf 0 (Demo.f32 1)) 7 (Demo.f32 2) true) = 7 /\
  default_left (set_split (Demo.leaf 0 (Demo.f32 1)) 7 (Demo.f32 2) true) = true.
Proof.
  pose proof (set_split_getters (Demo.leaf 0 (Demo.f32 1)) 7 (Demo.f32 2) true
                ltac:(lia)) as (H1 & H2 & _).
  exact (conj H1 H2).
Defined.

Lemma set_parent_getters_witness :
  parent (set_parent (Demo.leaf 0 (Demo.f32 1)) 5 true) = 5 /\
  is_left_child (set_parent (Demo.leaf 0 (Demo.f32 1)) 5 true) = true.
Proof.
  pose proof (set_parent_getters (Demo.leaf 0 (Demo.f32 1)) 5 true
                ltac:(lia)) as (H1 & H2 & _).
  exact (conj H1 H2).
Defined.

(* ================================================================= *)
(** ** Building a tree: [InitModel], [AddChilds], [num_extra_nodes] *)

Section BuildFacts.
Context {bst_float : Type} {TNodeStat : Type}.
Variable float_zero : bst_float.
Variable stat_zero : TNodeStat.
Variable uninit_int : Z.
Variable uninit_info : bst_float.

Local Abbreviation Tree := (TreeModel bst_float TNodeStat).
Local Abbreviation AllocNode' := (AllocNode float_zero stat_zero uninit_int uninit_info).
Local Abbreviation InitModel' := (InitModel float_zero stat_zero uninit_int uninit_info).
Local Abbreviation AddChilds' := (AddChilds float_zero stat_zero uninit_int uninit_info).
Local Abbreviation Node_new' := (Node_new uninit_int uninit_info).
Implicit Types (t : Tree) (n : Node bst_float).

(** The node [InitModel] makes of [n]. *)
Definition root_leaf n : Node bst_float :=
  set_parent (set_leaf n float_zero (-1)) (-1) true.

Lemma root_leaf_fields n :
  is_leaf (root_leaf n) = true /\ is_root (root_leaf n) = true /\
  leaf_value (root_leaf n) = float_zero /\ cright (root_leaf n) = -1 /\
  sindex_ (root_leaf n) = sindex_ n.
Proof. repeat split. Qed.

Lemma InitModel_loop_spec (count : nat) :
  forall (ns : list (Node bst_float)) (i : Z),
    0 <= i -> i + Z.of_nat count <= Z.of_nat (length ns) ->
    exists ns',
      InitModel_loop float_zero count ns i = Done ns' /\
      length ns' = length ns /\
      forall j, at_ ns' j =
                if (i <=? j) && (j <? i + Z.of_nat count)
                then n <- at_ ns j ;; Done (root_leaf n)
                else at_ ns j.
Proof.
  induction count as [|c IH]; intros ns i Hi Hlen.
  - exists ns. cbn [InitModel_loop]. repeat split. intros j.
    zcases; try lia; reflexivity.
  - cbn [InitModel_loop].
    destruct (at_total ns i ltac:(lia)) as [n Hn]. rewrite Hn. cbn [bind].
    rewrite set_at_in by lia. cbn [bind].
    rewrite at_upd, Z.eqb_refl by lia. cbn [bind].
    rewrite set_at_in by (rewrite length_upd; lia). cbn [bind].
    fold (root_leaf n).
    set (ns1 := upd (upd ns _ _) _ _).
    assert (L1 : length ns1 = length ns) by (unfold ns1; now rewrite !length_upd).
    assert (A1 : forall j, at_ ns1 j = if j =? i then Done (root_leaf n)
                                       else at_ ns j).
    { intros j. unfold ns1. rewrite !at_upd by (rewrite ?length_upd; lia).
      destruct (j =? i); reflexivity. }
    destruct (IH ns1 (i + 1)) as (ns' & HL & L' & A'); try lia.
    exists ns'. split; [exact HL|]. split; [lia|].
    intros j. rewrite A', A1.
    zcases; subst; try lia; try reflexivity.
    rewrite Hn. reflexivity.
Qed.

(** X3.  [InitModel()] on a tree with [num_roots] roots, when the sizes
    fit: the tree has exactly its roots as nodes, each a leaf holding 0.0
    whose parent word marks a root; it has one stat per node and
    [size_leaf_vector] leaf-vector entries per node; the free list and the
    deleted count are not touched. *)
Theorem InitModel_roots t :
  0 <= num_roots (param t) ->
  0 <= size_leaf_vector (param t) ->
  num_roots (param t) * size_leaf_vector (param t) <= INT_MAX ->
  exists t',
    InitModel' t = Done t' /\
    num_nodes (param t') = num_roots (param t) /\
    num_roots (param t') = num_roots (param t) /\
    Z.of_nat (length (nodes t')) = num_roots (param t) /\
    Z.of_nat (length (stats t')) = num_roots (param t) /\
    Z.of_nat (length (leaf_vector t'))
    = num_roots (param t) * size_leaf_vector (param t) /\
    deleted_nodes t' = deleted_nodes t /\
    num_deleted (param t') = num_deleted (param t) /\
    forall i, 0 <= i < num_roots (param t) ->
              exists n, at_ (nodes t') i = Done n /\
                        is_leaf n = true /\ is_root n = true /\
                        leaf_value n = float_zero /\ cright n = -1.
Proof.
  intros Hr Hs Hm. unfold InitModel. cbn [num_nodes set_num_nodes
    size_leaf_vector num_roots].
  unfold resize, int_mul.
  replace (num_roots (param t) <? 0) with false by (symmetry; apply Z.ltb_ge; lia).
  cbn [bind].
  rewrite int_of_in by (unfold INT_MIN; nia). cbn [bind].
  replace (num_roots (param t) * size_leaf_vector (param t) <? 0) with false
    by (symmetry; apply Z.ltb_ge; nia).
  cbn [bind].
  set (k := Z.to_nat (num_roots (param t))).
  destruct (InitModel_loop_spec k
              (firstn k (nodes t) ++ repeat Node_new' (k - length (nodes t))) 0)
    as (ns' & HL & L' & A'); try lia.
  { rewrite length_resized. lia. }
  rewrite HL. cbn [bind]. eexists. split; [reflexivity|].
  cbn [nodes stats leaf_vector deleted_nodes param num_nodes num_roots
       num_deleted set_num_nodes].
  rewrite L', !length_resized.
  repeat split; try lia.
  intros i Hi. rewrite A'.
  destruct (at_total (firstn k (nodes t) ++ repeat Node_new' (k - length (nodes t))) i)
    as [n Hn].
  { rewrite length_resized. lia. }
  rewrite Hn. zcases; try lia. cbn [bind].
  exists (root_leaf n). split; [reflexivity|]. repeat split.
Qed.

(** The two branches of [AllocNode], from their conditions. *)
Lemma AllocNode_reuse_in t (dn : list Z) (nd : Z) :
  deleted_nodes t = dn ++ [nd] ->
  num_deleted (param t) <> 0 -> INT_MIN < num_deleted (param t) <= INT_MAX ->
  AllocNode' t = Done (nd, with_deleted t dn (num_deleted (param t) - 1)).
Proof.
  intros Hd Hnz Hr. unfold AllocNode.
  replace (num_deleted (param t) =? 0) with false
    by (symmetry; apply Z.eqb_neq; exact Hnz).
  cbn [negb]. rewrite Hd.
  change (dn ++ [nd]) with (push_back dn nd).
  rewrite back_push_back, pop_back_push_back. cbn [bind].
  unfold int_sub. rewrite int_of_in by lia. reflexivity.
Qed.

Lemma AllocNode_mint_in t :
  num_deleted (param t) = 0 ->
  Z.of_nat (length (nodes t)) = num_nodes (param t) ->
  num_nodes (param t) + 1 < INT_MAX ->
  0 <= size_leaf_vector (param t) ->
  (num_nodes (param t) + 1) * size_leaf_vector (param t) <= INT_MAX ->
  exists ss lv,
    AllocNode' t
    = Done (num_nodes (param t),
            {| nodes := nodes t ++ [Node_new']; deleted_nodes := deleted_nodes t;
               stats := ss; leaf_vector := lv;
               param := set_num_nodes (param t) (num_nodes (param t) + 1) |}) /\
    Z.of_nat (length ss) = num_nodes (param t) + 1.
Proof.
  intros Hd Ln Hn Hs Hm. unfold AllocNode. rewrite Hd. cbn [Z.eqb negb].
  unfold int_add, int_mul, resize.
  rewrite int_of_in by (unfold INT_MIN; lia). cbn [bind].
  replace (num_nodes (param t) + 1 <? INT_MAX) with true
    by (symmetry; apply Z.ltb_lt; exact Hn).
  cbn [CHECK bind].
  replace (num_nodes (param t) + 1 <? 0) with false
    by (symmetry; apply Z.ltb_ge; lia).
  cbn [bind]. rewrite int_of_in by (unfold INT_MIN; nia). cbn [bind].
  replace ((num_nodes (param t) + 1) * size_leaf_vector (param t) <? 0)
    with false by (symmetry; apply Z.ltb_ge; nia).
  cbn [bind]. do 2 eexists. split.
  - do 3 f_equal. rewrite firstn_all2 by lia. f_equal.
    replace (Z.to_nat (num_nodes (param t) + 1) - length (nodes t))%nat
      with 1%nat by lia.
    reflexivity.
  - rewrite length_resized. lia.
Qed.

Lemma AddChilds_fresh_spec t (nid : Z) n0 :
  num_deleted (param t) = 0 ->
  Z.of_nat (length (nodes t)) = num_nodes (param t) ->
  num_nodes (param t) + 2 < INT_MAX ->
  0 <= size_leaf_vector (param t) ->
  (num_nodes (param t) + 2) * size_leaf_vector (param t) <= INT_MAX ->
  at_ (nodes t) nid = Done n0 ->
  let N := num_nodes (param t) in
  exists t' l c,
    AddChilds' t nid = Done t' /\
    num_nodes (param t') = N + 2 /\
    Z.of_nat (length (nodes t')) = N + 2 /\
    Z.of_nat (length (stats t')) = N + 2 /\
    deleted_nodes t' = deleted_nodes t /\ num_deleted (param t') = 0 /\
    at_ (nodes t') nid = Done (set_right_child (set_left_child n0 N) (N + 1)) /\
    at_ (nodes t') N = Done l /\ at_ (nodes t') (N + 1) = Done c /\
    parent l = nid /\ is_left_child l = true /\ is_root l = false /\
    parent c = nid /\ is_left_child c = false /\ is_root c = false /\
    cleft l = uninit_int /\ cleft c = uninit_int /\
    is_deleted l = false /\ is_deleted c = false /\
    (forall i, i <> nid -> i < N -> at_ (nodes t') i = at_ (nodes t) i).
Proof.
  intros Hd Ln Hn Hs Hm Hn0 N.
  pose proof (at_Done_lt _ _ _ Hn0) as Hnid.
  destruct (AllocNode_mint_in t Hd Ln) as (ss1 & lv1 & A1 & Ls1); try lia.
  fold N in A1, Ls1. set (t1 := {| nodes := _ |}) in A1.
  destruct (AllocNode_mint_in t1) as (ss2 & lv2 & A2 & Ls2);
    try (unfold t1; cbn [param nodes num_deleted num_nodes set_num_nodes
                         size_leaf_vector]; fold N; try assumption;
         rewrite ?length_app; cbn [length]; try lia; try nia).
  unfold t1 in A2, Ls2.
  cbn [param nodes num_nodes set_num_nodes deleted_nodes] in A2, Ls2.
  fold N in A2, Ls2.
  set (ns2 := (nodes t ++ [Node_new']) ++ [Node_new']) in *.
  assert (L2 : Z.of_nat (length ns2) = N + 2).
  { unfold ns2. rewrite !length_app. cbn [length]. lia. }
  assert (At2 : forall i, at_ ns2 i =
                          if i <? N then at_ (nodes t) i
                          else if i <? N + 2 then Done Node_new'
                          else Abort OutOfBounds).
  { intros i. unfold ns2, at_. rewrite <- app_assoc. cbn [app].
    destruct (Z.ltb_spec i 0) as [H0|H0].
    - zcases; try lia; reflexivity.
    - destruct (Z.ltb_spec i N) as [H1|H1].
      + rewrite nth_error_app1 by lia. reflexivity.
      + rewrite nth_error_app2 by lia.
        destruct (Z.ltb_spec i (N + 2)) as [H2|H2].
        * destruct (Z.to_nat i - length (nodes t))%nat as [|[|k]] eqn:E;
            try reflexivity. lia.
        * destruct (Z.to_nat i - length (nodes t))%nat as [|[|k]] eqn:E;
            try lia. destruct k; reflexivity. }
  set (nA := set_left_child n0 N).
  set (nB := set_right_child nA (N + 1)).
  set (l := set_parent Node_new' nid true).
  set (c := set_parent Node_new' nid false).
  exists (with_nodes
            {| nodes := ns2; deleted_nodes := deleted_nodes t; stats := ss2;
               leaf_vector := lv2;
               param := set_num_nodes (set_num_nodes (param t) (N + 1)) (N + 1 + 1) |}
            (upd (upd (upd (upd ns2 (Z.to_nat nid) nA) (Z.to_nat nid) nB)
                    (Z.to_nat N) l) (Z.to_nat (N + 1)) c)), l, c.
  pose proof (set_parent_fields Node_new' nid true ltac:(unfold INT_MAX in *; lia))
    as (Pl & Il & Rl & _).
  pose proof (set_parent_fields Node_new' nid false ltac:(unfold INT_MAX in *; lia))
    as (Pc & Ic & Rc & _).
  split.
  { unfold AddChilds. rewrite A1. cbn [bind]. fold t1. unfold t1 at 1.
    rewrite A2. cbn [bind nodes].
    rewrite At2. replace (nid <? N) with true by (symmetry; apply Z.ltb_lt; lia).
    rewrite Hn0. cbn [bind]. rewrite set_at_in by lia. cbn [bind].
    rewrite at_upd_eq by lia. cbn [bind].
    rewrite set_at_in by (rewrite length_upd; lia). cbn [bind].
    rewrite at_upd_eq by (rewrite length_upd; lia). cbn [bind].
    fold nA nB. change (cleft nB) with N. change (cright nB) with (N + 1).
    rewrite !at_upd by (rewrite ?length_upd; lia).
    replace (N =? nid) with false by (symmetry; apply Z.eqb_neq; lia).
    rewrite At2. replace (N <? N) with false by (symmetry; apply Z.ltb_ge; lia).
    replace (N <? N + 2) with true by (symmetry; apply Z.ltb_lt; lia).
    cbn [bind]. rewrite set_at_in by (rewrite !length_upd; lia). cbn [bind].
    rewrite !at_upd by (rewrite ?length_upd; lia).
    replace (nid =? N) with false by (symmetry; apply Z.eqb_neq; lia).
    rewrite Z.eqb_refl. cbn [bind]. change (cright nB) with (N + 1).
    rewrite !at_upd by (rewrite ?length_upd; lia).
    replace (N + 1 =? N) with false by (symmetry; apply Z.eqb_neq; lia).
    replace (N + 1 =? nid) with false by (symmetry; apply Z.eqb_neq; lia).
    rewrite At2.
    replace (N + 1 <? N) with false by (symmetry; apply Z.ltb_ge; lia).
    replace (N + 1 <? N + 2) with true by (symmetry; apply Z.ltb_lt; lia).
    cbn [bind]. rewrite set_at_in by (rewrite !length_upd; lia). reflexivity. }
  cbn [with_nodes nodes param num_nodes set_num_nodes stats deleted_nodes
       num_deleted].
  rewrite !length_upd.
  assert (At' : forall i,
             at_ (upd (upd (upd (upd ns2 (Z.to_nat nid) nA) (Z.to_nat nid) nB)
                         (Z.to_nat N) l) (Z.to_nat (N + 1)) c) i
             = if i =? N + 1 then Done c
               else if i =? N then Done l
               else if i =? nid then Done nB else at_ ns2 i).
  { intros i. rewrite !at_upd by (rewrite ?length_upd; lia).
    destruct (i =? N + 1), (i =? N), (i =? nid); reflexivity. }
  split; [lia|]. split; [exact L2|]. split; [lia|].
  split; [reflexivity|]. split; [exact Hd|].
  split. { rewrite At'. zcases; try lia. reflexivity. }
  split. { rewrite At'. zcases; try lia. reflexivity. }
  split. { rewrite At'. zcases; try lia. reflexivity. }
  split; [exact Pl|]. split; [exact Il|]. split; [exact Rl|].
  split; [exact Pc|]. split; [exact Ic|]. split; [exact Rc|].
  split; [reflexivity|]. split; [reflexivity|].
  split; [reflexivity|]. split; [reflexivity|].
  intros i Hi HiN. rewrite At', At2. zcases; try lia. reflexivity.
Qed.

(** X4.  [AddChilds(nid)] on a tree without deleted nodes whose node array
    has [num_nodes] entries: the two children are the new ids [num_nodes]
    and [num_nodes + 1]; [nid] points to them, left then right; each child
    names [nid] as its parent and knows its side; and no other node
    changes.  A child is as [Node()] left it apart from the parent word:
    its left link is not initialised, so whether it reads as a leaf is not
    determined. *)
Theorem AddChilds_fresh t (nid : Z) n0 :
  num_deleted (param t) = 0 ->
  Z.of_nat (length (nodes t)) = num_nodes (param t) ->
  num_nodes (param t) + 2 < INT_MAX ->
  0 <= size_leaf_vector (param t) ->
  (num_nodes (param t) + 2) * size_leaf_vector (param t) <= INT_MAX ->
  at_ (nodes t) nid = Done n0 ->
  let N := num_nodes (param t) in
  exists t' l c,
    AddChilds' t nid = Done t' /\
    num_nodes (param t') = N + 2 /\
    Z.of_nat (length (nodes t')) = N + 2 /\
    deleted_nodes t' = deleted_nodes t /\
    at_ (nodes t') nid = Done (set_right_child (set_left_child n0 N) (N + 1)) /\
    at_ (nodes t') N = Done l /\ at_ (nodes t') (N + 1) = Done c /\
    parent l = nid /\ is_left_child l = true /\ is_root l = false /\
    parent c = nid /\ is_left_child c = false /\ is_root c = false /\
    cleft l = uninit_int /\ cleft c = uninit_int /\
    is_deleted l = false /\ is_deleted c = false /\
    (forall i, i <> nid -> i < N -> at_ (nodes t') i = at_ (nodes t) i).
Proof.
  intros Hd Ln Hn Hs Hm Hn0 N.
  destruct (AddChilds_fresh_spec t nid n0 Hd Ln Hn Hs Hm Hn0)
    as (t' & l & c & HA & H1 & H2 & _ & H4 & _ & H6 & H7 & H8 & H9 & H10 & H11
        & H12 & H13 & H14 & H15 & H16 & H17 & H18 & H19).
  exists t', l, c. fold N in H1, H2, H6, H7, H8, H19.
  repeat (split; [assumption|]). exact H19.
Qed.

(** X5.  [ChangeToLeaf(rid, value)] followed by [AddChilds(rid)]: the two
    nodes just deleted are handed out again, the right one first, so they
    come back with their sides swapped; the free list and the deleted
    count are as before the two calls; and both children still carry the
    deletion mark that [DeleteNode] put on them. *)
Theorem ChangeToLeaf_AddChilds t (rid : Z) (value : bst_float) r l c :
  at_ (nodes t) rid = Done r ->
  at_ (nodes t) (cleft r) = Done l -> is_leaf l = true ->
  at_ (nodes t) (cright r) = Done c -> is_leaf c = true ->
  cleft r <> cright r -> cleft r <> rid -> cright r <> rid ->
  num_roots (param t) <= cleft r -> num_roots (param t) <= cright r ->
  0 <= num_deleted (param t) -> num_deleted (param t) + 2 <= INT_MAX ->
  rid < INT_MAX ->
  exists t1 t2 r2 l2 c2,
    ChangeToLeaf t rid value = Done t1 /\
    AddChilds' t1 rid = Done t2 /\
    deleted_nodes t2 = deleted_nodes t /\
    num_deleted (param t2) = num_deleted (param t) /\
    num_nodes (param t2) = num_nodes (param t) /\
    length (nodes t2) = length (nodes t) /\
    at_ (nodes t2) rid = Done r2 /\
    cleft r2 = cright r /\ cright r2 = cleft r /\
    at_ (nodes t2) (cright r) = Done c2 /\
    parent c2 = rid /\ is_left_child c2 = true /\ is_deleted c2 = true /\
    at_ (nodes t2) (cleft r) = Done l2 /\
    parent l2 = rid /\ is_left_child l2 = false /\ is_deleted l2 = true.
Proof.
  intros Hr Hl Ll Hc Lc Hlc Hlr Hcr Rl Rc D0 D2 Hrid.
  pose proof (at_Done_lt _ _ _ Hr) as Brid.
  pose proof (at_Done_lt _ _ _ Hl) as Bl.
  pose proof (at_Done_lt _ _ _ Hc) as Bc.
  destruct (ChangeToLeaf_spec t rid value r l c Hr Hl Ll Hc Lc Hlc Hlr Hcr Rl Rc)
    as (t1 & C1 & F1 & P1 & S1 & V1 & N1); try (unfold INT_MIN; lia).
  assert (L1 : length (nodes t1) = length (nodes t)).
  { unfold ChangeToLeaf in C1. apply ChangeToLeaf_Done in C1.
    destruct C1 as (r' & l' & c' & ta & tb & rb & _ & _ & _ & _ & _ & Da
                    & (ra & _ & Db) & _ & ->).
    apply DeleteNode_Done in Da as (na & _ & _ & _ & ->).
    apply DeleteNode_Done in Db as (nb & _ & _ & _ & ->).
    cbn [with_nodes nodes deleted_tree]. now rewrite !length_upd. }
  set (k := num_deleted (param t)) in *.
  assert (A1 : AllocNode' t1
               = Done (cright r,
                       with_deleted t1 (deleted_nodes t ++ [cleft r]) (k + 2 - 1))).
  { replace (k + 2) with (num_deleted (param t1)) by (rewrite P1; reflexivity).
    apply AllocNode_reuse_in.
    - rewrite F1, <- app_assoc. reflexivity.
    - rewrite P1. cbn [num_deleted set_num_deleted]. lia.
    - rewrite P1. cbn [num_deleted set_num_deleted]. unfold INT_MIN. lia. }
  set (ta := with_deleted t1 (deleted_nodes t ++ [cleft r]) (k + 2 - 1)) in *.
  assert (A2 : AllocNode' ta
               = Done (cleft r, with_deleted ta (deleted_nodes t) (k + 2 - 1 - 1))).
  { replace (k + 2 - 1) with (num_deleted (param ta)) at 2 by reflexivity.
    apply AllocNode_reuse_in.
    - reflexivity.
    - cbn [ta with_deleted param num_deleted set_num_deleted]. lia.
    - cbn [ta with_deleted param num_deleted set_num_deleted]. unfold INT_MIN. lia. }
  set (tb := with_deleted ta (deleted_nodes t) (k + 2 - 1 - 1)) in *.
  set (r1 := set_leaf r value (-1)).
  set (rA := set_left_child r1 (cright r)).
  set (rB := set_right_child rA (cleft r)).
  set (c2 := set_parent (mark_delete c) rid true).
  set (l2 := set_parent (mark_delete l) rid false).
  set (ns := nodes t1) in *.
  assert (Nr : at_ ns rid = Done r1) by (rewrite N1, Z.eqb_refl; reflexivity).
  assert (Nc : at_ ns (cright r) = Done (mark_delete c)).
  { rewrite N1. zcases; try lia. reflexivity. }
  assert (Nl : at_ ns (cleft r) = Done (mark_delete l)).
  { rewrite N1. zcases; try lia. reflexivity. }
  pose proof (set_parent_fields (mark_delete c) rid true
                ltac:(unfold INT_MAX in *; lia)) as (Pc & Ic & _).
  pose proof (set_parent_fields (mark_delete l) rid false
                ltac:(unfold INT_MAX in *; lia)) as (Pl & Il & _).
  exists t1,
    (with_nodes tb
       (upd (upd (upd (upd ns (Z.to_nat rid) rA) (Z.to_nat rid) rB)
               (Z.to_nat (cright r)) c2) (Z.to_nat (cleft r)) l2)),
    rB, l2, c2.
  split; [exact C1|]. split.
  { unfold AddChilds. rewrite A1. cbn [bind]. rewrite A2. cbn [bind].
    change (nodes tb) with ns. rewrite Nr. cbn [bind].
    rewrite set_at_in by lia. cbn [bind].
    rewrite at_upd_eq by lia. cbn [bind].
    rewrite set_at_in by (rewrite length_upd; lia). cbn [bind].
    rewrite at_upd_eq by (rewrite length_upd; lia). cbn [bind].
    fold rA rB. change (cleft rB) with (cright r).
    rewrite !at_upd by (rewrite ?length_upd; lia).
    replace (cright r =? rid) with false by (symmetry; apply Z.eqb_neq; lia).
    rewrite Nc. cbn [bind].
    rewrite set_at_in by (rewrite !length_upd; lia). cbn [bind].
    rewrite !at_upd by (rewrite ?length_upd; lia).
    replace (rid =? cright r) with false by (symmetry; apply Z.eqb_neq; lia).
    rewrite Z.eqb_refl. cbn [bind]. change (cright rB) with (cleft r).
    rewrite !at_upd by (rewrite ?length_upd; lia).
    replace (cleft r =? cright r) with false by (symmetry; apply Z.eqb_neq; lia).
    replace (cleft r =? rid) with false by (symmetry; apply Z.eqb_neq; lia).
    rewrite Nl. cbn [bind].
    rewrite set_at_in by (rewrite !length_upd; lia). reflexivity. }
  cbn [with_nodes nodes param deleted_nodes tb ta with_deleted num_deleted
       num_nodes set_num_deleted].
  rewrite !length_upd, P1.
  split; [reflexivity|]. split; [lia|]. split; [reflexivity|].
  split; [exact L1|].
  split.
  { rewrite !at_upd by (rewrite ?length_upd; lia).
    zcases; try lia. reflexivity. }
  split; [reflexivity|]. split; [reflexivity|].
  split.
  { rewrite !at_upd by (rewrite ?length_upd; lia).
    zcases; try lia. reflexivity. }
  split; [exact Pc|]. split; [exact Ic|]. split; [reflexivity|].
  split.
  { rewrite !at_upd by (rewrite ?length_upd; lia).
    zcases; try lia. reflexivity. }
  split; [exact Pl|]. split; [exact Il|]. reflexivity.
Qed.

(** X6.  [DeleteNode] does not look at the deletion mark: a second
    [DeleteNode(x)] succeeds and puts [x] on the free list again, and the
    next two calls of [AllocNode()] both return [x]. *)
Theorem DeleteNode_twice t (x : Z) t1 :
  DeleteNode t x = Done t1 ->
  0 <= num_deleted (param t) -> num_deleted (param t) + 2 <= INT_MAX ->
  exists t2 t3 t4,
    DeleteNode t1 x = Done t2 /\
    deleted_nodes t2 = deleted_nodes t ++ [x; x] /\
    AllocNode' t2 = Done (x, t3) /\
    AllocNode' t3 = Done (x, t4) /\
    deleted_nodes t4 = deleted_nodes t /\
    num_deleted (param t4) = num_deleted (param t) /\
    nodes t4 = nodes t1.
Proof.
  intros HD D0 D2.
  apply DeleteNode_Done in HD as (n & Hr & Hn & _ & ->).
  pose proof (at_Done_lt _ _ _ Hn) as Bx.
  set (t1 := deleted_tree t x n).
  assert (Hn1 : at_ (nodes t1) x = Done (mark_delete n)).
  { unfold t1. cbn [nodes deleted_tree]. apply at_upd_eq. lia. }
  destruct (DeleteNode_spec t1 x (mark_delete n)) as (t2 & D2' & F2 & P2 & _ & _ & N2);
    auto.
  { cbn [t1 deleted_tree param num_deleted set_num_deleted]. unfold INT_MIN. lia. }
  assert (E2 : nodes t2 = nodes t1).
  { apply DeleteNode_Done in D2' as (n' & _ & Hn' & _ & ->).
    rewrite Hn1 in Hn'. injection Hn' as <-.
    cbn [deleted_tree nodes t1].
    clear. generalize (Z.to_nat x), (nodes t). intros k ns. revert k.
    induction ns as [|a ns IH]; intros [|k]; cbn [upd]; try reflexivity.
    f_equal. apply IH. }
  set (k := num_deleted (param t)) in *.
  assert (K2 : num_deleted (param t2) = k + 1 + 1) by (rewrite P2; reflexivity).
  assert (A1 : AllocNode' t2
               = Done (x, with_deleted t2 (deleted_nodes t ++ [x])
                            (num_deleted (param t2) - 1))).
  { apply AllocNode_reuse_in.
    - rewrite F2. reflexivity.
    - lia.
    - unfold INT_MIN. lia. }
  set (t3 := with_deleted t2 _ _) in A1.
  assert (A2 : AllocNode' t3
               = Done (x, with_deleted t3 (deleted_nodes t)
                            (num_deleted (param t3) - 1))).
  { apply AllocNode_reuse_in.
    - reflexivity.
    - cbn [t3 with_deleted param num_deleted set_num_deleted]. lia.
    - cbn [t3 with_deleted param num_deleted set_num_deleted]. unfold INT_MIN. lia. }
  exists t2, t3, (with_deleted t3 (deleted_nodes t) (num_deleted (param t3) - 1)).
  split; [exact D2'|]. split.
  { rewrite F2. cbn [t1 deleted_tree deleted_nodes]. now rewrite <- app_assoc. }
  split; [exact A1|]. split; [exact A2|].
  cbn [with_deleted deleted_nodes param num_deleted set_num_deleted nodes t3].
  split; [reflexivity|]. split; [lia | exact E2].
Qed.

(** X7.  [num_extra_nodes()] counts the nodes in use besides the roots: a
    call of [AllocNode()] raises it by one whether it takes a node off the
    free list or makes a new one, [DeleteNode] lowers it by one and
    [ChangeToLeaf] by two. *)
Theorem num_extra_nodes_counts t (k : Z) :
  0 <= num_roots (param t) <= num_nodes (param t) ->
  0 <= num_deleted (param t) ->
  num_extra_nodes t = Done k ->
  (forall nd t', AllocNode' t = Done (nd, t') ->
                 num_extra_nodes t' = Done (k + 1)) /\
  (forall nid t', DeleteNode t nid = Done t' ->
                  num_extra_nodes t' = Done (k - 1)) /\
  (forall rid value t', ChangeToLeaf t rid value = Done t' ->
                        num_extra_nodes t' = Done (k - 2)).
Proof.
  intros Hr Hd Hk. unfold num_extra_nodes, int_sub in Hk.
  inv_bind Hk. apply int_of_Done in E as [-> R1].
  apply int_of_Done in Hk as [-> R2].
  assert (Del : forall (s : Tree) nid s',
             DeleteNode s nid = Done s' ->
             num_nodes (param s') = num_nodes (param s) /\
             num_roots (param s') = num_roots (param s) /\
             num_deleted (param s') = num_deleted (param s) + 1 /\
             num_deleted (param s) + 1 <= INT_MAX).
  { intros s nid s' H. apply DeleteNode_Done in H as (n & _ & _ & Hb & ->).
    cbn [deleted_tree param num_nodes num_roots num_deleted set_num_deleted].
    repeat split; lia. }
  split; [|split].
  - intros nd t' HA. unfold num_extra_nodes, int_sub.
    destruct (Z.eq_dec (num_deleted (param t)) 0) as [E0|E0].
    + pose proof (AllocNode_mint _ _ _ _ _ _ _ E0 HA) as (_ & Hlt & _ & _ & _ & _ & ->).
      cbn [num_nodes num_roots num_deleted set_num_nodes].
      rewrite int_of_in by (unfold INT_MIN, INT_MAX in *; lia). cbn [bind].
      rewrite int_of_in by (unfold INT_MIN, INT_MAX in *; lia). f_equal. lia.
    + destruct (AllocNode_reuse _ _ _ _ _ _ _ E0 HA) as (_ & ->).
      cbn [with_deleted param num_nodes num_roots num_deleted set_num_deleted].
      rewrite int_of_in by lia. cbn [bind].
      rewrite int_of_in by (unfold INT_MIN, INT_MAX in *; lia). f_equal. lia.
  - intros nid t' HD. destruct (Del _ _ _ HD) as (Na & Ra & Ka & Hb).
    unfold num_extra_nodes, int_sub. rewrite Na, Ra, Ka.
    rewrite int_of_in by lia. cbn [bind].
    rewrite int_of_in by (unfold INT_MIN, INT_MAX in *; lia). f_equal. lia.
  - intros rid value t' HC. apply ChangeToLeaf_Done in HC.
    destruct HC as (r' & l' & c' & ta & tb & rb & _ & _ & _ & _ & _ & Da
                    & (ra & _ & Db) & _ & ->).
    destruct (Del _ _ _ Da) as (Na & Ra & Ka & Ba).
    destruct (Del _ _ _ Db) as (Nb & Rb & Kb & Bb).
    unfold num_extra_nodes, int_sub. cbn [with_nodes param].
    rewrite Nb, Rb, Kb, Na, Ra, Ka.
    rewrite int_of_in by lia. cbn [bind].
    rewrite int_of_in by (unfold INT_MIN, INT_MAX in *; lia). f_equal. lia.
Qed.

End BuildFacts.

(* ================================================================= *)
(** ** Parent links and [GetDepth] *)

Section LinkFacts.
Context {bst_float : Type} {TNodeStat : Type}.
Variable float_zero : bst_float.
Variable stat_zero : TNodeStat.
Variable uninit_int : Z.
Variable uninit_info : bst_float.

Local Abbreviation Tree := (TreeModel bst_float TNodeStat).
Local Abbreviation CollapseToLeaf' := (CollapseToLeaf (TNodeStat := TNodeStat) float_zero).
Local Abbreviation AddChilds' := (AddChilds float_zero stat_zero uninit_int uninit_info).
Implicit Types (t : Tree) (n : Node bst_float).

(** Every node of [t] is a node of [t'] with the same parent word. *)
Definition keeps_links t t' : Prop :=
  forall i n, at_ (nodes t) i = Done n ->
              exists n', at_ (nodes t') i = Done n' /\ parent_ n' = parent_ n.

Lemma keeps_links_refl t : keeps_links t t.
Proof. intros i n H. eauto. Qed.

Lemma keeps_links_trans t1 t2 t3 :
  keeps_links t1 t2 -> keeps_links t2 t3 -> keeps_links t1 t3.
Proof.
  intros H12 H23 i n H. destruct (H12 i n H) as (n2 & H2 & E2).
  destruct (H23 i n2 H2) as (n3 & H3 & E3). exists n3. split; [exact H3|].
  congruence.
Qed.

Lemma keeps_links_upd t t' (i : Z) n n' :
  at_ (nodes t) i = Done n -> parent_ n' = parent_ n ->
  nodes t' = upd (nodes t) (Z.to_nat i) n' ->
  keeps_links t t'.
Proof.
  intros Hn E Hu j m Hm. rewrite Hu.
  pose proof (at_Done_lt _ _ _ Hn) as Hi.
  rewrite at_upd by lia. destruct (Z.eqb_spec j i) as [->|Hne].
  - exists n'. split; [reflexivity|]. congruence.
  - exists m. auto.
Qed.

Lemma DeleteNode_keeps_links t nid t' :
  DeleteNode t nid = Done t' -> keeps_links t t'.
Proof.
  intros H. apply DeleteNode_Done in H as (n & _ & Hn & _ & ->).
  now apply (keeps_links_upd t _ nid n (mark_delete n)).
Qed.

Lemma ChangeToLeaf_keeps_links t rid value t' :
  ChangeToLeaf t rid value = Done t' -> keeps_links t t'.
Proof.
  intros H. apply ChangeToLeaf_Done in H.
  destruct H as (r & l & c & ta & tb & rb & _ & _ & _ & _ & _ & Da
                 & (ra & _ & Db) & Hrb & ->).
  eapply keeps_links_trans; [eapply DeleteNode_keeps_links; exact Da|].
  eapply keeps_links_trans; [eapply DeleteNode_keeps_links; exact Db|].
  now apply (keeps_links_upd tb _ rid rb (set_leaf rb value (-1))).
Qed.

Lemma CollapseToLeaf_keeps_links (fuel : nat) :
  forall t rid value t',
    CollapseToLeaf' fuel t rid value = Done t' -> keeps_links t t'.
Proof.
  induction fuel as [|fuel IH]; intros t rid value t' H; [discriminate|].
  cbn [CollapseToLeaf] in H. inv_bind H.
  destruct (is_leaf a).
  { injection H as <-. apply keeps_links_refl. }
  inv_bind H. inv_bind H. inv_bind H. inv_bind H. inv_bind H.
  assert (K1 : keeps_links t a1).
  { destruct (negb (is_leaf a0)); [eapply IH; exact E1|].
    injection E1 as <-. apply keeps_links_refl. }
  assert (K2 : keeps_links a1 a4).
  { destruct (negb (is_leaf a3)); [eapply IH; exact E4|].
    injection E4 as <-. apply keeps_links_refl. }
  eapply keeps_links_trans; [exact K1|].
  eapply keeps_links_trans; [exact K2|].
  eapply ChangeToLeaf_keeps_links. exact H.
Qed.

(** [GetDepth] reads parent words only. *)
Lemma GetDepth_loop_frame t t' :
  keeps_links t t' ->
  forall (fuel : nat) (nid : Z) (pass_rchild : bool) (depth d : Z),
    GetDepth_loop fuel t nid pass_rchild depth = Done d ->
    GetDepth_loop fuel t' nid pass_rchild depth = Done d.
Proof.
  intros K. induction fuel as [|fuel IH]; intros nid b depth d H; [discriminate|].
  cbn [GetDepth_loop] in *. inv_bind H.
  destruct (K nid a E) as (a' & E' & P). rewrite E'. cbn [bind].
  unfold is_root, is_left_child, parent in *. rewrite P.
  destruct (parent_ a =? -1); [exact H|].
  rewrite E in H. cbn [bind] in H. inv_bind H.
  rewrite E0. cbn [bind]. apply IH. exact H.
Qed.

(** X8.  [DeleteNode], [ChangeToLeaf] and [CollapseToLeaf] keep every node
    in place with its parent word, the nodes they delete too: the depth
    [GetDepth] finds for a node before the call is the depth it finds
    after it. *)
Theorem GetDepth_after_collapse t t' :
  (exists nid, DeleteNode t nid = Done t') \/
  (exists rid value, ChangeToLeaf t rid value = Done t') \/
  (exists fuel rid value, CollapseToLeaf' fuel t rid value = Done t') ->
  (forall i n, at_ (nodes t) i = Done n ->
               exists n', at_ (nodes t') i = Done n' /\ parent_ n' = parent_ n) /\
  (forall fuel nid pass_rchild d,
      GetDepth fuel t nid pass_rchild = Done d ->
      GetDepth fuel t' nid pass_rchild = Done d).
Proof.
  intros H.
  assert (K : keeps_links t t').
  { destruct H as [(nid & H) | [(rid & value & H) | (fuel & rid & value & H)]].
    - eapply DeleteNode_keeps_links; exact H.
    - eapply ChangeToLeaf_keeps_links; exact H.
    - eapply CollapseToLeaf_keeps_links; exact H. }
  split; [exact K|].
  intros fuel nid b d. unfold GetDepth. now apply GetDepth_loop_frame.
Qed.

(** X9.  After [AddChilds(nid)] on a tree without deleted nodes, both
    children are one level below [nid]; when right children are not
    counted, the left child is one level below and the right child on the
    level of [nid]. *)
Theorem AddChilds_depth t (nid : Z) n0 (fuel : nat) (d dp : Z) :
  num_deleted (param t) = 0 ->
  Z.of_nat (length (nodes t)) = num_nodes (param t) ->
  num_nodes (param t) + 2 < INT_MAX ->
  0 <= size_leaf_vector (param t) ->
  (num_nodes (param t) + 2) * size_leaf_vector (param t) <= INT_MAX ->
  at_ (nodes t) nid = Done n0 ->
  GetDepth fuel t nid false = Done d -> 0 <= d < INT_MAX ->
  GetDepth fuel t nid true = Done dp -> 0 <= dp < INT_MAX ->
  let N := num_nodes (param t) in
  exists t',
    AddChilds' t nid = Done t' /\
    GetDepth (S fuel) t' N false = Done (d + 1) /\
    GetDepth (S fuel) t' (N + 1) false = Done (d + 1) /\
    GetDepth (S fuel) t' N true = Done (dp + 1) /\
    GetDepth (S fuel) t' (N + 1) true = Done dp.
Proof.
  intros Hd Ln Hn Hs Hm Hn0 G Rd Gp Rdp N.
  destruct (AddChilds_fresh_spec float_zero stat_zero uninit_int uninit_info
              t nid n0 Hd Ln Hn Hs Hm Hn0)
    as (t' & l & c & HA & _ & _ & _ & _ & _ & Hnid & Hl & Hc & Pl & Il & Rl
        & Pc & Ic & Rc & _ & _ & _ & _ & Fr).
  fold N in Hnid, Hl, Hc, Fr.
  pose proof (at_Done_lt _ _ _ Hn0) as Bnid.
  assert (K : keeps_links t t').
  { intros i n Hi. pose proof (at_Done_lt _ _ _ Hi) as Bi.
    destruct (Z.eq_dec i nid) as [->|Hne].
    - rewrite Hnid. eexists. split; [reflexivity|].
      rewrite Hn0 in Hi. injection Hi as <-. reflexivity.
    - rewrite Fr by lia. eauto. }
  exists t'. split; [exact HA|].
  unfold GetDepth in *.
  apply (GetDepth_loop_frame t t' K) in G, Gp.
  assert (Step : forall (x : Z) (nx : Node bst_float) (b : bool) (e0 e1 : Z),
             at_ (nodes t') x = Done nx -> is_root nx = false -> parent nx = nid ->
             (if negb b then int_add 0 1
              else if is_left_child nx then int_add 0 1 else Done 0) = Done e1 ->
             GetDepth_loop fuel t' nid b e1 = Done (e0 + e1) ->
             GetDepth_loop (S fuel) t' x b 0 = Done (e0 + e1)).
  { intros x nx b e0 e1 Hx Rx Px He HG. cbn [GetDepth_loop].
    rewrite Hx. cbn [bind]. rewrite Rx.
    destruct (negb b) eqn:Eb.
    - rewrite He. cbn [bind]. rewrite Px. exact HG.
    - cbn [bind]. rewrite He. cbn [bind]. rewrite Px. exact HG. }
  assert (Shift : forall (f : nat) (x : Z) (b : bool) (e k r : Z),
             GetDepth_loop f t' x b e = Done r -> INT_MIN <= r + k <= INT_MAX ->
             0 <= k -> 0 <= e ->
             GetDepth_loop f t' x b (e + k) = Done (r + k)).
  { induction f as [|f IHf]; intros x b e k r H Hr Hk He; [discriminate|].
    cbn [GetDepth_loop] in *. inv_bind H. rewrite E. cbn [bind].
    destruct (is_root a); [injection H as <-; reflexivity|].
    rewrite E in *. cbn [bind] in *.
    assert (Mono : forall (f' : nat) (y : Z) (e' r' : Z),
               GetDepth_loop f' t' y b e' = Done r' -> e' <= r').
    { induction f' as [|f' IH']; intros y e' r' H'; [discriminate|].
      cbn [GetDepth_loop] in H'. inv_bind H'.
      destruct (is_root a0); [injection H' as <-; lia|].
      rewrite E0 in H'. cbn [bind] in H'. inv_bind H'.
      apply IH' in H'.
      destruct (negb b).
      - unfold int_add in E1. apply int_of_Done in E1 as [-> _]. lia.
      - destruct (is_left_child a0).
        + unfold int_add in E1. apply int_of_Done in E1 as [-> _]. lia.
        + injection E1 as <-. lia. }
    inv_bind H. pose proof (Mono _ _ _ _ H) as Hle.
    destruct (negb b).
    + unfold int_add in *. apply int_of_Done in E0 as [-> R].
      rewrite int_of_in by (unfold INT_MIN in *; lia). cbn [bind].
      replace (e + k + 1) with (e + 1 + k) by lia. apply IHf; auto; lia.
    + destruct (is_left_child a).
      * unfold int_add in *. apply int_of_Done in E0 as [-> R].
        rewrite int_of_in by (unfold INT_MIN in *; lia). cbn [bind].
        replace (e + k + 1) with (e + 1 + k) by lia. apply IHf; auto; lia.
      * injection E0 as <-. cbn [bind]. apply IHf; auto. }
  assert (One : int_add 0 1 = Done 1) by reflexivity.
  repeat split.
  - apply (Step N l false d 1 Hl Rl Pl); [exact One|].
    apply (Shift fuel nid false 0 1 d G); unfold INT_MIN; lia.
  - apply (Step (N + 1) c false d 1 Hc Rc Pc); [exact One|].
    apply (Shift fuel nid false 0 1 d G); unfold INT_MIN; lia.
  - apply (Step N l true dp 1 Hl Rl Pl); [cbn [negb]; rewrite Il; exact One|].
    apply (Shift fuel nid true 0 1 dp Gp); unfold INT_MIN; lia.
  - pose proof (Step (N + 1) c true dp 0 Hc Rc Pc) as S0.
    rewrite Z.add_0_r in S0. apply S0; [cbn [negb]; rewrite Ic; reflexivity|].
    exact Gp.
Qed.

End LinkFacts.

(* ================================================================= *)
(** ** [CollapseToLeaf] on a subtree of any shape *)

Section CollapseFacts.
Context {bst_float : Type} {TNodeStat : Type}.
Variable float_zero : bst_float.

Local Abbreviation Tree := (TreeModel bst_float TNodeStat).
Local Abbreviation CollapseToLeaf' := (CollapseToLeaf (TNodeStat := TNodeStat) float_zero).
Implicit Types (t : Tree) (n : Node bst_float).

(** [subtree t rid below h]: the links of [t] below [rid] form a tree of
    height [h]; [below] lists the nodes under [rid] in the order in which
    [CollapseToLeaf(rid)] deletes them: those under the left child, those
    under the right child, then the two children. *)
Inductive subtree t : Z -> list Z -> nat -> Prop :=
| subtree_leaf rid n :
    at_ (nodes t) rid = Done n -> is_leaf n = true ->
    subtree t rid [] O
| subtree_inner rid n bl br hl hr :
    at_ (nodes t) rid = Done n -> is_leaf n = false ->
    subtree t (cleft n) bl hl -> subtree t (cright n) br hr ->
    subtree t rid (bl ++ br ++ [cleft n; cright n]) (S (Nat.max hl hr)).

Lemma subtree_root t rid below h :
  subtree t rid below h ->
  exists n, at_ (nodes t) rid = Done n /\
            (is_leaf n = true -> h = O /\ below = []) /\
            (is_leaf n = false -> h <> O).
Proof.
  intros [r n Hn Hl | r n bl br hl hr Hn Hl _ _]; exists n;
    (split; [exact Hn|]); split; intros H; try congruence; auto.
Qed.

Lemma NoDup_app_disjoint {A : Type} (l1 l2 : list A) :
  NoDup (l1 ++ l2) -> forall a, In a l1 -> ~ In a l2.
Proof.
  induction l1 as [|x l1 IH]; intros H a Ha; [contradiction|].
  cbn [app] in H. inversion H as [|? ? Hx Hn]; subst.
  destruct Ha as [<-|Ha].
  - intros Ha2. apply Hx. apply in_or_app. now right.
  - now apply IH.
Qed.

(** What [NoDup] says of the nodes of a subtree. *)
Lemma NoDup_subtree (rid cl cr : Z) (bl br : list Z) :
  NoDup (rid :: bl ++ br ++ [cl; cr]) ->
  NoDup (cl :: bl) /\ NoDup (cr :: br) /\
  (forall i, In i (cl :: bl) -> ~ In i (cr :: br)) /\
  ~ In rid (cl :: bl) /\ ~ In rid (cr :: br).
Proof.
  intros H.
  assert (P : Permutation (rid :: bl ++ br ++ [cl; cr])
                (rid :: (cl :: bl) ++ (cr :: br))).
  { apply perm_skip. cbn [app].
    apply Permutation_trans with (bl ++ cl :: cr :: br).
    - apply Permutation_app_head. apply (Permutation_app_comm br [cl; cr]).
    - apply Permutation_sym, Permutation_middle. }
  apply (Permutation_NoDup P) in H.
  inversion H as [|? ? Hrid Hrest]; subst.
  change (cl :: bl ++ cr :: br) with ((cl :: bl) ++ (cr :: br)) in Hrid, Hrest.
  split; [apply (NoDup_app_remove_r _ _ Hrest)|].
  split; [apply (NoDup_app_remove_l _ _ Hrest)|].
  split; [apply NoDup_app_disjoint; exact Hrest|].
  split; intros Hin; apply Hrid; apply in_or_app; auto.
Qed.

Lemma CollapseToLeaf_subtree_spec t rid below h :
  subtree t rid below h ->
  forall (fuel : nat) (t1 : Tree) (value : bst_float),
    (h < fuel)%nat ->
    (forall i, In i (rid :: below) -> at_ (nodes t1) i = at_ (nodes t) i) ->
    NoDup (rid :: below) ->
    Forall (fun i => num_roots (param t1) <= i) below ->
    0 <= num_deleted (param t1) ->
    num_deleted (param t1) + Z.of_nat (length below) <= INT_MAX ->
    exists t',
      CollapseToLeaf' fuel t1 rid value = Done t' /\
      deleted_nodes t' = deleted_nodes t1 ++ below /\
      param t' = set_num_deleted (param t1)
                   (num_deleted (param t1) + Z.of_nat (length below)) /\
      stats t' = stats t1 /\ leaf_vector t' = leaf_vector t1 /\
      (forall i, In i below ->
                 exists n', at_ (nodes t') i = Done n' /\ is_deleted n' = true) /\
      (forall i, ~ In i (rid :: below) -> at_ (nodes t') i = at_ (nodes t1) i) /\
      (h = O -> t' = t1) /\
      (h <> O -> exists r, at_ (nodes t) rid = Done r /\
                           at_ (nodes t') rid = Done (set_leaf r value (-1))).
Proof.
  induction 1 as [rid n Hn Hl | rid n bl br hl hr Hn Hl Sl IHl Sr IHr];
    intros fuel t1 value Hfuel Agree ND Roots D0 Dmax;
    (destruct fuel as [|fuel]; [lia|]).
  - exists t1. cbn [CollapseToLeaf].
    rewrite (Agree rid (or_introl eq_refl)), Hn. cbn [bind]. rewrite Hl.
    split; [reflexivity|]. split; [now rewrite app_nil_r|].
    split.
    { cbn [length Z.of_nat]. rewrite Z.add_0_r. now destruct (param t1). }
    repeat split; auto; try contradiction; congruence.
  - set (cl := cleft n) in *. set (cr := cright n) in *.
    destruct (NoDup_subtree rid cl cr bl br ND) as (NDl & NDr & Disj & Ridl & Ridr).
    rewrite !length_app in Dmax. cbn [length] in Dmax.
    apply Forall_app in Roots as [Rl Roots].
    apply Forall_app in Roots as [Rr Roots].
    assert (Rcl : num_roots (param t1) <= cl) by (inversion Roots; assumption).
    assert (Rcr : num_roots (param t1) <= cr).
    { inversion Roots as [|? ? _ R2]; subst. inversion R2; assumption. }
    assert (Inl : forall i, In i (cl :: bl) -> In i (rid :: bl ++ br ++ [cl; cr])).
    { intros i [<-|Hi]; right; rewrite !in_app_iff; cbn [In]; auto. }
    assert (Inr : forall i, In i (cr :: br) -> In i (rid :: bl ++ br ++ [cl; cr])).
    { intros i [<-|Hi]; right; rewrite !in_app_iff; cbn [In]; auto. }
    destruct (subtree_root _ _ _ _ Sl) as (ln & Hln & Lleaf & Linner).
    destruct (subtree_root _ _ _ _ Sr) as (cn & Hcn & Cleaf & Cinner).
    (* the left child *)
    destruct (IHl fuel t1 float_zero) as
      (tA & CA & FA & PA & SA & VA & DelA & FrA & ZA & NA); auto; try lia;
      try (intros i Hi; apply Agree; now apply Inl).
    (* the right child *)
    destruct (IHr fuel tA float_zero) as
      (tB & CB & FB & PB & SB & VB & DelB & FrB & ZB & NB); auto; try lia;
      try (rewrite PA; cbn [num_deleted num_roots set_num_deleted]; auto; lia);
      try (intros i Hi; rewrite FrA;
           [apply Agree; now apply Inr | intros Hi'; exact (Disj i Hi' Hi)]).
    (* the nodes [ChangeToLeaf] reads *)
    assert (HrB : at_ (nodes tB) rid = Done n).
    { rewrite FrB, FrA by assumption.
      rewrite (Agree rid (or_introl eq_refl)). exact Hn. }
    assert (HlB : exists l', at_ (nodes tB) cl = Done l' /\ is_leaf l' = true).
    { rewrite FrB by (intros Hi; exact (Disj cl (or_introl eq_refl) Hi)).
      destruct (is_leaf ln) eqn:El.
      - destruct (Lleaf eq_refl) as [-> _]. rewrite (ZA eq_refl).
        rewrite (Agree cl (Inl cl (or_introl eq_refl))), Hln. eauto.
      - destruct (NA (Linner eq_refl)) as (r & Hr & ->). eauto. }
    assert (HcB : exists c', at_ (nodes tB) cr = Done c' /\ is_leaf c' = true).
    { destruct (is_leaf cn) eqn:Ec.
      - destruct (Cleaf eq_refl) as [-> _]. rewrite (ZB eq_refl).
        rewrite FrA by (intros Hi; exact (Disj cr Hi (or_introl eq_refl))).
        rewrite (Agree cr (Inr cr (or_introl eq_refl))), Hcn. eauto.
      - destruct (NB (Cinner eq_refl)) as (r & Hr & ->). eauto. }
    destruct HlB as (l' & HlB & Ll'). destruct HcB as (c' & HcB & Lc').
    assert (Nlr : cl <> cr).
    { intros E. apply (Disj cl (or_introl eq_refl)). left. now symmetry. }
    assert (Nl : cl <> rid) by (intros E; apply Ridl; left; exact E).
    assert (Nr : cr <> rid) by (intros E; apply Ridr; left; exact E).
    destruct (ChangeToLeaf_spec tB rid value n l' c' HrB HlB Ll' HcB Lc')
      as (tC & CC & FC & PC & SC & VC & NC); auto;
      try (rewrite PB, PA; cbn [num_deleted num_roots set_num_deleted];
           unfold INT_MIN; lia).
    exists tC.
    (* the call *)
    split.
    { cbn [CollapseToLeaf].
      rewrite (Agree rid (or_introl eq_refl)), Hn. cbn [bind]. rewrite Hl.
      fold cl cr. rewrite (Agree cl (Inl cl (or_introl eq_refl))), Hln.
      cbn [bind].
      assert (E1 : (if negb (is_leaf ln)
                    then CollapseToLeaf' fuel t1 cl float_zero else Done t1)
                   = Done tA).
      { destruct (is_leaf ln) eqn:El; cbn [negb]; [|exact CA].
        destruct (Lleaf eq_refl) as [-> _]. now rewrite (ZA eq_refl). }
      rewrite E1. cbn [bind].
      rewrite FrA by assumption.
      rewrite (Agree rid (or_introl eq_refl)), Hn. cbn [bind]. fold cr.
      rewrite FrA by (intros Hi; exact (Disj cr Hi (or_introl eq_refl))).
      rewrite (Agree cr (Inr cr (or_introl eq_refl))), Hcn. cbn [bind].
      assert (E2 : (if negb (is_leaf cn)
                    then CollapseToLeaf' fuel tA cr float_zero else Done tA)
                   = Done tB).
      { destruct (is_leaf cn) eqn:Ec; cbn [negb]; [|exact CB].
        destruct (Cleaf eq_refl) as [-> _]. now rewrite (ZB eq_refl). }
      rewrite E2. cbn [bind]. exact CC. }
    split. { rewrite FC, FB, FA. now rewrite <- !app_assoc. }
    split.
    { rewrite PC, PB, PA. cbn [num_deleted set_num_deleted].
      unfold set_num_deleted.
      cbn [num_roots num_nodes num_deleted max_depth num_feature
           size_leaf_vector reserved].
      f_equal. rewrite !length_app. cbn [length]. lia. }
    split; [congruence|]. split; [congruence|].
    split.
    { intros i Hi. rewrite NC. fold cl cr.
      destruct (Z.eqb_spec i rid) as [->|Hir].
      { exfalso. inversion ND as [|? ? Hnot _]; subst. exact (Hnot Hi). }
      destruct (Z.eqb_spec i cr) as [->|Hicr];
        [eexists; split; [reflexivity | apply is_deleted_mark_delete]|].
      destruct (Z.eqb_spec i cl) as [->|Hicl];
        [eexists; split; [reflexivity | apply is_deleted_mark_delete]|].
      rewrite !in_app_iff in Hi. cbn [In] in Hi.
      destruct Hi as [Hi | [Hi | [Hi | [Hi | []]]]]; try congruence.
      - rewrite FrB; [apply DelA; exact Hi|].
        intros Hi'. exact (Disj i (or_intror Hi) Hi').
      - apply DelB. exact Hi. }
    split.
    { intros i Hi. rewrite NC. fold cl cr.
      assert (i <> rid) by (intros ->; apply Hi; now left).
      assert (~ In i (cl :: bl)) by (intros Hi'; apply Hi; now apply Inl).
      assert (~ In i (cr :: br)) by (intros Hi'; apply Hi; now apply Inr).
      assert (i <> cl) by (intros ->; apply H0; now left).
      assert (i <> cr) by (intros ->; apply H1; now left).
      zcases; try lia. rewrite FrB, FrA by assumption. reflexivity. }
    split; [intros H; discriminate|].
    intros _. exists n. split; [exact Hn|]. rewrite NC, Z.eqb_refl. reflexivity.
Qed.

(** X10.  [CollapseToLeaf(rid, value)] on a subtree of any shape whose
    nodes are distinct and, [rid] apart, not roots: every node below [rid]
    is marked deleted and put on the free list, left subtree first, then
    right subtree, then the two children of [rid]; the deleted count grows
    by their number; [rid] becomes a leaf holding [value]; and no node
    outside the subtree changes. *)
Theorem CollapseToLeaf_subtree t rid below h (fuel : nat) (value : bst_float) :
  subtree t rid below h -> h <> O -> (h < fuel)%nat ->
  NoDup (rid :: below) ->
  Forall (fun i => num_roots (param t) <= i) below ->
  0 <= num_deleted (param t) ->
  num_deleted (param t) + Z.of_nat (length below) <= INT_MAX ->
  exists t' r,
    CollapseToLeaf' fuel t rid value = Done t' /\
    deleted_nodes t' = deleted_nodes t ++ below /\
    num_deleted (param t') = num_deleted (param t) + Z.of_nat (length below) /\
    num_nodes (param t') = num_nodes (param t) /\
    at_ (nodes t) rid = Done r /\
    at_ (nodes t') rid = Done (set_leaf r value (-1)) /\
    (forall i, In i below ->
               exists n', at_ (nodes t') i = Done n' /\ is_deleted n' = true) /\
    (forall i, ~ In i (rid :: below) -> at_ (nodes t') i = at_ (nodes t) i).
Proof.
  intros S Hh Hfuel ND Roots D0 Dmax.
  destruct (CollapseToLeaf_subtree_spec t rid below h S fuel t value Hfuel)
    as (t' & C & Fl & P & _ & _ & Del & Fr & _ & N); auto.
  destruct (N Hh) as (r & Hr & Hr').
  exists t', r. split; [exact C|]. split; [exact Fl|].
  rewrite P. cbn [num_deleted num_nodes set_num_deleted]. auto 10.
Qed.

End CollapseFacts.

(* ================================================================= *)
(** ** Filling and dropping a feature vector *)

Section FVecFacts.
Context {F : Type} {SF : Scalar F}.

(** The value of the last entry of [inst] whose index is [i]. *)
Fixpoint last_value (inst : @Inst F) (i : Z) : option (Entry F) :=
  match inst with
  | [] => None
  | (index, fvalue) :: inst' =>
      match last_value inst' i with
      | Some v => Some v
      | None => if index =? i then Some fvalue else None
      end
  end.

Lemma at_ext {A : Type} (v w : list A) :
  length v = length w ->
  (forall i, 0 <= i < Z.of_nat (length v) -> at_ v i = at_ w i) ->
  v = w.
Proof.
  revert w. induction v as [|a v IH]; intros [|b w] L H; try discriminate L.
  - reflexivity.
  - cbn [length] in *. f_equal.
    + specialize (H 0 ltac:(lia)). now injection H.
    + apply IH; [lia|]. intros i Hi.
      specialize (H (i + 1) ltac:(lia)). unfold at_ in *.
      replace (i + 1 <? 0) with false in H by (symmetry; apply Z.ltb_ge; lia).
      replace (i <? 0) with false by (symmetry; apply Z.ltb_ge; lia).
      replace (Z.to_nat (i + 1)) with (S (Z.to_nat i)) in H by lia.
      exact H.
Qed.

Lemma at_repeat {A : Type} (a : A) (n : nat) (i : Z) :
  0 <= i < Z.of_nat n -> at_ (repeat a n) i = Done a.
Proof.
  intros H. apply at_in; [lia|].
  rewrite nth_error_repeat by lia. reflexivity.
Qed.

Lemma Fill_spec (inst : @Inst F) : forall feat : FVec F,
  Forall (fun e => 0 <= fst e) inst ->
  exists f,
    Fill feat inst = Done f /\
    length (data f) = length (data feat) /\
    forall i, 0 <= i < FVec_size feat ->
      at_ (data f) i = match last_value inst i with
                       | Some e => Done e
                       | None => at_ (data feat) i
                       end.
Proof.
  induction inst as [|[index fvalue] inst IH]; intros feat Hpos.
  - exists feat. repeat split.
  - inversion Hpos as [|? ? H0 Hpos']; subst. cbn [fst] in H0.
    cbn [Fill last_value]. unfold FVec_size.
    destruct (Z.leb_spec (Z.of_nat (length (data feat))) index) as [Hge|Hlt].
    + destruct (IH feat Hpos') as (f & HF & L & H).
      exists f. split; [exact HF|]. split; [exact L|].
      intros i Hi. rewrite (H i Hi).
      destruct (last_value inst i); [reflexivity|].
      destruct (Z.eqb_spec index i); [lia | reflexivity].
    + rewrite set_at_in by lia. cbn [bind].
      destruct (IH {| data := upd (data feat) (Z.to_nat index) fvalue |}
                  Hpos') as (f & HF & L & H).
      cbn [data] in *. rewrite length_upd in L.
      exists f. split; [exact HF|]. split; [exact L|].
      intros i Hi. unfold FVec_size in H. cbn [data] in H.
      rewrite length_upd in H. rewrite (H i Hi).
      destruct (last_value inst i); [reflexivity|].
      rewrite at_upd by lia. rewrite (Z.eqb_sym index i).
      destruct (i =? index); reflexivity.
Qed.

Lemma Drop_spec (inst : @Inst F) : forall feat : FVec F,
  Forall (fun e => 0 <= fst e) inst ->
  exists f,
    Drop feat inst = Done f /\
    length (data f) = length (data feat) /\
    forall i, 0 <= i < FVec_size feat ->
      at_ (data f) i = match last_value inst i with
                       | Some _ => Done missing
                       | None => at_ (data feat) i
                       end.
Proof.
  induction inst as [|[index fvalue] inst IH]; intros feat Hpos.
  - exists feat. repeat split.
  - inversion Hpos as [|? ? H0 Hpos']; subst. cbn [fst] in H0.
    cbn [Drop last_value]. unfold FVec_size.
    destruct (Z.leb_spec (Z.of_nat (length (data feat))) index) as [Hge|Hlt].
    + destruct (IH feat Hpos') as (f & HF & L & H).
      exists f. split; [exact HF|]. split; [exact L|].
      intros i Hi. rewrite (H i Hi).
      destruct (last_value inst i); [reflexivity|].
      destruct (Z.eqb_spec index i); [lia | reflexivity].
    + rewrite set_at_in by lia. cbn [bind].
      destruct (IH {| data := upd (data feat) (Z.to_nat index) missing |}
                  Hpos') as (f & HF & L & H).
      cbn [data] in *. rewrite length_upd in L.
      exists f. split; [exact HF|]. split; [exact L|].
      intros i Hi. unfold FVec_size in H. cbn [data] in H.
      rewrite length_upd in H. rewrite (H i Hi).
      destruct (last_value inst i); [reflexivity|].
      rewrite at_upd by lia. rewrite (Z.eqb_sym index i).
      destruct (i =? index); reflexivity.
Qed.

(** X11.  [Fill] on a vector of [n] missing entries never fails, whatever
    the (unsigned) indices of [inst]: an entry whose index is [n] or more
    is skipped, a feature that [inst] names reads back the value of its
    last entry, and is missing exactly when the bits of that value are
    those of the flag [-1]; a feature that it does not name stays missing.
    [Drop] with the same [inst] then gives the vector of [n] missing
    entries again. *)
Theorem Fill_then_Drop (n : nat) (inst : @Inst F) :
  Forall (fun e => 0 <= fst e) inst ->
  exists f,
    Fill (FVec_Init n) inst = Done f /\
    FVec_size f = Z.of_nat n /\
    (forall i e, 0 <= i < Z.of_nat n -> last_value inst i = Some e ->
                 FVec_fvalue f i
                 = Done (match e with missing => fmissing | present v => v end)
                 /\ FVec_is_missing f i
                    = Done (match e with missing => true | present _ => false end)) /\
    (forall i, 0 <= i < Z.of_nat n -> last_value inst i = None ->
               FVec_is_missing f i = Done true) /\
    Drop f inst = Done (FVec_Init n).
Proof.
  intros Hpos.
  destruct (Fill_spec inst (FVec_Init n) Hpos) as (f & HF & L & H).
  unfold FVec_size in *. cbn [FVec_Init data] in *.
  rewrite repeat_length in *.
  exists f. split; [exact HF|]. split; [now rewrite L|].
  split; [|split].
  - intros i e Hi E. unfold FVec_fvalue, FVec_is_missing.
    rewrite (H i Hi), E. split; reflexivity.
  - intros i Hi E. unfold FVec_is_missing.
    rewrite (H i Hi), E, at_repeat by exact Hi. reflexivity.
  - destruct (Drop_spec inst f Hpos) as (f' & HD & L' & H').
    rewrite HD. f_equal. destruct f' as [d']. unfold FVec_Init. f_equal.
    cbn [data] in *. apply at_ext.
    + rewrite repeat_length. lia.
    + intros i Hi. unfold FVec_size in H'. rewrite H' by lia.
      rewrite at_repeat by lia. rewrite H by lia.
      destruct (last_value inst i); [reflexivity|].
      apply at_repeat. lia.
Qed.

End FVecFacts.

(* ================================================================= *)
(** ** Walking a tree: [MaxDepth], [GetLeafIndex], [Predict] *)

Section WalkFacts.
Context {F : Type} {SF : Scalar F}.

Lemma GetNext_child (t : RegTree F) (pid : Z) (n : Node F) (fv : F) (um : bool) :
  node_at t pid = Done n ->
  exists c, GetNext t pid fv um = Done c /\ (c = cleft n \/ c = cright n).
Proof.
  intros Hn. unfold GetNext. rewrite Hn. cbn [bind].
  destruct um; [|destruct (fltb fv (split_cond n))]; cbn [bind]; eauto.
  unfold cdefault. destruct (default_left n); eauto.
Qed.

(** Where [GetLeafIndex] stops is a leaf. *)
Lemma GetLeafIndex_loop_leaf (t : RegTree F) (feat : FVec F) (fuel : nat) :
  forall pid lid,
    GetLeafIndex_loop fuel t feat pid = Done lid ->
    exists n, node_at t lid = Done n /\ is_leaf n = true.
Proof.
  induction fuel as [|fuel IH]; intros pid lid H; [discriminate|].
  cbn [GetLeafIndex_loop] in H. inv_bind H.
  destruct (is_leaf a) eqn:El.
  - injection H as <-. eauto.
  - inv_bind H. inv_bind H. inv_bind H. eauto.
Qed.

Lemma MaxDepth_bounds_loop (t : RegTree F) (feat : FVec F) :
  Forall (fun n => is_leaf n = false -> split_index n < FVec_size feat)
    (nodes (model t)) ->
  forall (fuel : nat) nid d,
    MaxDepth fuel t nid = Done d ->
    0 <= d /\
    forall fuel' : nat, (Z.to_nat d < fuel')%nat ->
      exists lid, GetLeafIndex_loop fuel' t feat nid = Done lid.
Proof.
  intros Hall.
  assert (Hfeat : forall i n, node_at t i = Done n -> is_leaf n = false ->
                              split_index n < FVec_size feat).
  { intros i n Hn. apply at_Done in Hn as [_ Hn].
    exact (proj1 (Forall_forall _ _) Hall n (nth_error_In _ _ Hn)). }
  clear Hall.
  induction fuel as [|fuel IH]; intros nid d H; [discriminate|].
  cbn [MaxDepth] in H. inv_bind H. rename a into n, E into Hn.
  destruct (is_leaf n) eqn:El.
  - injection H as <-. split; [lia|].
    intros [|fuel'] Hf; [lia|]. cbn [GetLeafIndex_loop].
    rewrite Hn. cbn [bind]. rewrite El. eauto.
  - inv_bind H. rename a into dl0, E into Hl.
    inv_bind H. apply int_of_Done in E as [-> Rl].
    inv_bind H. rename a into dr0, E into Hr.
    inv_bind H. apply int_of_Done in E as [-> Rr].
    injection H as <-.
    destruct (IH _ _ Hl) as [Pl Wl]. destruct (IH _ _ Hr) as [Pr Wr].
    split; [lia|].
    intros [|fuel'] Hf; [lia|]. cbn [GetLeafIndex_loop].
    rewrite Hn. cbn [bind]. rewrite El.
    pose proof (split_index_range n) as Rs.
    pose proof (Hfeat nid n Hn El) as Hs.
    destruct (at_total (data feat) (split_index n)) as [x Hx];
      [unfold FVec_size in Hs; lia|].
    unfold FVec_fvalue, FVec_is_missing. rewrite Hx. cbn [bind].
    match goal with
    | |- context [GetNext t nid ?fv ?um] =>
        destruct (GetNext_child t nid n fv um Hn) as (c & -> & [-> | ->])
    end; cbn [bind]; [apply Wl | apply Wr]; lia.
Qed.

(** X12.  When [MaxDepth(root_id)] returns [d], then [d] is not negative
    and, on a feature vector that has the features of every split,
    [GetLeafIndex] stops within [d] steps, at a leaf, and [Predict] is the
    value of this leaf. *)
Theorem MaxDepth_bounds_GetLeafIndex (t : RegTree F) (feat : FVec F)
  (root_id : Z) (fuel : nat) (d : Z) :
  MaxDepth fuel t (to_int root_id) = Done d ->
  Forall (fun n => is_leaf n = false -> split_index n < FVec_size feat)
    (nodes (model t)) ->
  0 <= d /\
  forall fuel' : nat, (Z.to_nat d < fuel')%nat ->
    exists lid n,
      GetLeafIndex fuel' t feat root_id = Done lid /\
      node_at t lid = Done n /\ is_leaf n = true /\
      Predict fuel' t feat root_id = Done (leaf_value n).
Proof.
  intros Hd Hfeat.
  destruct (MaxDepth_bounds_loop t feat Hfeat fuel _ d Hd) as [Pd W].
  split; [exact Pd|].
  intros fuel' Hf. destruct (W fuel' Hf) as (lid & Hl).
  destruct (GetLeafIndex_loop_leaf t feat fuel' _ lid Hl) as (n & Hn & Ln).
  exists lid, n. unfold Predict, GetLeafIndex. rewrite Hl. cbn [bind].
  rewrite Hn. cbn [bind]. auto.
Qed.

End WalkFacts.

(* ================================================================= *)
(** ** The approximate attributions *)

Section ApproxFacts.
Context {F : Type} {SF : Scalar F}.

Local Open Scope scalar_scope.

(** The loop of [CalculateContributionsApprox] follows the walk of
    [GetLeafIndex]; it adds to the contributions of the features it splits
    on and to no other, and once it has taken a step nothing is left of
    the [split_index] it was entered with. *)
Lemma Approx_loop_spec (t : RegTree F) (feat : FVec F) :
  length (node_mean_values t) = length (nodes (model t)) ->
  forall (fuel : nat) (pid lid : Z) (node_value : F) (last_split : Z)
         (out : list F),
    GetLeafIndex_loop fuel t feat pid = Done lid ->
    (Z.of_nat (length out) = FVec_size feat + 1)%Z ->
    exists value split out',
      Approx_loop fuel t feat pid node_value last_split out
      = Done (lid, value, split, out') /\
      length out' = length out /\
      at_ out' (FVec_size feat) = at_ out (FVec_size feat) /\
      (forall j, ~ splits_on t j -> at_ out' j = at_ out j) /\
      (forall n, node_at t pid = Done n -> is_leaf n = true ->
                 value = node_value /\ split = last_split /\ out' = out) /\
      (forall n, node_at t pid = Done n -> is_leaf n = false ->
                 (0 <= split < FVec_size feat)%Z /\ splits_on t split /\
                 forall u, Approx_loop fuel t feat pid node_value u out
                           = Done (lid, value, split, out')).
Proof.
  intros Lc. induction fuel as [|fuel IH];
    intros pid lid nv ls out H Lo; [discriminate|].
  cbn [GetLeafIndex_loop] in H. inv_bind H. rename a into n, E into Hn.
  cbn [Approx_loop]. rewrite Hn. cbn [bind].
  destruct (is_leaf n) eqn:El.
  - injection H as <-. exists nv, ls, out.
    split; [reflexivity|]. split; [reflexivity|]. split; [reflexivity|].
    split; [reflexivity|]. split; intros n' Hn' El'.
    + auto.
    + congruence.
  - inv_bind H. rename a into fv, E into Hfv.
    inv_bind H. rename a into um, E into Hum.
    inv_bind H. rename a into pid', E into Hnext.
    rewrite Hfv, Hum. cbn [bind]. rewrite Hnext. cbn [bind].
    (* the child is a node, so it has a mean value *)
    assert (Hc : exists c, node_at t pid' = Done c).
    { destruct fuel as [|fuel']; [discriminate|].
      cbn [GetLeafIndex_loop] in H. inv_bind H. eauto. }
    destruct Hc as (c & Hc).
    pose proof (at_Done_lt _ _ _ Hc) as Rc.
    destruct (at_total (node_mean_values t) pid') as [new Hnew];
      [rewrite Lc; exact Rc|].
    rewrite Hnew. cbn [bind].
    (* the feature of the split indexes the contributions *)
    assert (Rs : (0 <= split_index n < FVec_size feat)%Z).
    { unfold FVec_fvalue in Hfv. inv_bind Hfv.
      exact (at_Done_lt _ _ _ E). }
    destruct (at_total out (split_index n)) as [x Hx]; [lia|].
    rewrite Hx. cbn [bind].
    rewrite set_at_in by lia. cbn [bind].
    set (out1 := upd out _ _).
    assert (L1 : length out1 = length out) by apply length_upd.
    destruct (IH pid' lid new (split_index n) out1 H ltac:(lia))
      as (value & split & out' & HA & L' & B' & N' & Lf' & In').
    exists value, split, out'.
    split; [exact HA|]. split; [congruence|]. split; [|split; [|split]].
    + rewrite B'. unfold out1. rewrite at_upd by lia.
      destruct (Z.eqb_spec (FVec_size feat) (split_index n)); [lia|reflexivity].
    + intros j Hj. rewrite (N' j Hj). unfold out1. rewrite at_upd by lia.
      destruct (Z.eqb_spec j (split_index n)) as [->|]; [|reflexivity].
      exfalso. apply Hj. exists pid, n. auto.
    + intros n' Hn' El'. congruence.
    + intros n' Hn' El'.
      assert (Rsp : (0 <= split < FVec_size feat)%Z /\ splits_on t split).
      { destruct (is_leaf c) eqn:Ec.
        - destruct (Lf' c Hc Ec) as (_ & -> & _).
          split; [exact Rs|]. exists pid, n. auto.
        - destruct (In' c Hc Ec) as (A & B & _). auto. }
      split; [apply Rsp|]. split; [apply Rsp|].
      intros _. exact HA.
Qed.

(** X13.  On a tree whose cache has an entry for every node, with one
    contribution for every feature and one for the bias,
    [CalculateContributionsApprox] returns whenever [Predict] does, in any
    arithmetic.  It adds the cached mean of the root to the bias, and
    leaves the contribution of every feature that no split of the tree
    tests as it was.  When the root is a leaf it changes the bias alone;
    when the root is a split, the result does not depend on what the local
    [split_index] held before the loop. *)
Theorem CalculateContributionsApprox_returns (uninit_split : Z) (fuel : nat)
  (t : RegTree F) (feat : FVec F) (root_id : Z) (out : list F) (v : F) :
  Predict fuel t feat root_id = Done v ->
  length (node_mean_values t) = length (nodes (model t)) ->
  (Z.of_nat (length out) = FVec_size feat + 1)%Z ->
  exists r m x out',
    node_at t (to_int root_id) = Done r /\
    at_ (node_mean_values t) (to_int root_id) = Done m /\
    at_ out (FVec_size feat) = Done x /\
    CalculateContributionsApprox uninit_split fuel t feat root_id out
    = Done out' /\
    length out' = length out /\
    at_ out' (FVec_size feat) = Done (x + m) /\
    (forall j, j <> FVec_size feat -> ~ splits_on t j ->
               at_ out' j = at_ out j) /\
    (is_leaf r = true ->
     forall j, j <> FVec_size feat -> at_ out' j = at_ out j) /\
    (is_leaf r = false ->
     forall u, CalculateContributionsApprox u fuel t feat root_id out
               = Done out').
Proof.
  intros HP Lc Lo. unfold Predict, GetLeafIndex in HP.
  inv_bind HP. rename a into lid, E into HG.
  inv_bind HP. rename a into ln, E into Hln. injection HP as <-.
  assert (Hr : exists r, node_at t (to_int root_id) = Done r).
  { destruct fuel as [|fuel']; [discriminate|].
    cbn [GetLeafIndex_loop] in HG. inv_bind HG. eauto. }
  destruct Hr as (r & Hr).
  pose proof (at_Done_lt _ _ _ Hr) as Rr.
  destruct (at_total (node_mean_values t) (to_int root_id)) as [m Hm];
    [rewrite Lc; exact Rr|].
  assert (Hsz : (0 <= FVec_size feat)%Z) by (unfold FVec_size; lia).
  destruct (at_total out (FVec_size feat)) as [x Hx]; [lia|].
  exists r, m, x.
  unfold CalculateContributionsApprox.
  replace (0 <? Z.of_nat (length (node_mean_values t)))%Z with true
    by (symmetry; apply Z.ltb_lt; lia).
  cbn [CHECK bind]. rewrite Hm. cbn [bind]. rewrite Hx. cbn [bind].
  rewrite set_at_in by lia. cbn [bind].
  set (out1 := upd out _ _).
  assert (L1 : length out1 = length out) by apply length_upd.
  assert (B1 : at_ out1 (FVec_size feat) = Done (x + m)).
  { unfold out1. rewrite at_upd, Z.eqb_refl by lia. reflexivity. }
  assert (N1 : forall j, j <> FVec_size feat -> at_ out1 j = at_ out j).
  { intros j Hj. unfold out1. rewrite at_upd by lia.
    destruct (Z.eqb_spec j (FVec_size feat)); [contradiction|reflexivity]. }
  rewrite Hr. cbn [bind].
  destruct (is_leaf r) eqn:El.
  - exists out1. split; [reflexivity|]. split; [reflexivity|].
    split; [reflexivity|]. split; [reflexivity|]. split; [exact L1|].
    split; [exact B1|]. split; [auto|]. split; [auto|]. discriminate.
  - destruct (Approx_loop_spec t feat Lc fuel (to_int root_id) lid m
                uninit_split out1 HG ltac:(lia))
      as (value & split & out2 & HA & L2 & B2 & N2 & _ & Rs).
    destruct (Rs r Hr El) as (Rsp & Son & Ind).
    rewrite HA. cbn [bind]. rewrite Hln. cbn [bind].
    destruct (at_total out2 split) as [y Hy]; [lia|].
    rewrite Hy. cbn [bind]. rewrite set_at_in by lia.
    set (out3 := upd out2 _ _).
    exists out3. split; [reflexivity|]. split; [reflexivity|].
    split; [reflexivity|]. split; [reflexivity|].
    split; [unfold out3; rewrite length_upd; congruence|].
    split; [|split; [|split; [discriminate|]]].
    + unfold out3. rewrite at_upd by lia.
      destruct (Z.eqb_spec (FVec_size feat) split); [lia|].
      now rewrite B2.
    + intros j Hj Hn. unfold out3. rewrite at_upd by lia.
      destruct (Z.eqb_spec j split) as [->|].
      * (* the last split tested is a split of the tree *)
        contradiction.
      * rewrite (N2 j Hn). now apply N1.
    + intros _ u. rewrite (Ind u). cbn [bind]. rewrite Hln. cbn [bind].
      rewrite Hy. cbn [bind]. rewrite set_at_in by lia. reflexivity.
Qed.

End ApproxFacts.

(* ================================================================= *)
(** ** The cache of node mean values is filled once *)

Section CacheFacts.
Context {F : Type} {SF : Scalar F}.

(** [FillNodeMeanValue] changes nothing but entries of the cache, and
    stores at [nid] the value it returns. *)
Lemma FillNodeMeanValue_frame (fuel : nat) :
  forall (t : RegTree F) (nid : Z) (v : F) (t' : RegTree F),
    FillNodeMeanValue fuel t nid = Done (v, t') ->
    model t' = model t /\
    length (node_mean_values t') = length (node_mean_values t) /\
    at_ (node_mean_values t') nid = Done v.
Proof.
  induction fuel as [|fuel IH]; intros t nid v t' H; [discriminate|].
  cbn [FillNodeMeanValue] in H. inv_bind H. rename a into node.
  inv_bind H. destruct a as [result t1]. rename E0 into Hres.
  inv_bind H. injection H as <- <-.
  cbn [model node_mean_values with_node_mean_values].
  apply set_at_Done in E0 as [Ri ->]. rewrite length_upd.
  assert (Fr : model t1 = model t /\
               length (node_mean_values t1) = length (node_mean_values t)).
  { destruct (is_leaf node).
    - injection Hres as _ <-. auto.
    - apply bind_Done in Hres as ([ml ta] & Ha & Hres).
      apply IH in Ha as (Ma & La & _).
      apply bind_Done in Hres as (sl & _ & Hres).
      apply bind_Done in Hres as ([mr tb] & Hb & Hres).
      apply IH in Hb as (Mb & Lb & _).
      apply bind_Done in Hres as (sr & _ & Hres).
      apply bind_Done in Hres as (sn & _ & Hres).
      injection Hres as _ <-. split; congruence. }
  destruct Fr as [M L]. split; [exact M|]. split; [exact L|].
  apply at_upd_eq. exact Ri.
Qed.

Lemma FillNodeMeanValues_loop_frame (fuel : nat) (count : nat) :
  forall (t : RegTree F) (root_id : Z) (t' : RegTree F),
    FillNodeMeanValues_loop fuel t root_id count = Done t' ->
    model t' = model t /\
    length (node_mean_values t') = length (node_mean_values t).
Proof.
  induction count as [|count IH]; intros t root_id t' H.
  - injection H as <-. auto.
  - cbn [FillNodeMeanValues_loop] in H. inv_bind H. destruct a as [v t1].
    apply FillNodeMeanValue_frame in E as (M1 & L1 & _).
    apply IH in H as (M & L). split; congruence.
Qed.

(** X14.  When [FillNodeMeanValues] returns, the tree is the same but for
    the cache, which has [num_nodes] entries; and from then on a call
    returns at once and leaves the cache as it is, also on a tree whose
    nodes and statistics were changed since, as long as [num_nodes] is the
    same. *)
Theorem FillNodeMeanValues_once (fuel : nat) (t t' : RegTree F) :
  FillNodeMeanValues fuel t = Done t' ->
  model t' = model t /\
  Z.of_nat (length (node_mean_values t'))
  = num_nodes (param (model t)) mod 2 ^ 64 /\
  forall (m : TreeModel F (RTreeNodeStat F)) (fuel' : nat),
    num_nodes (param m) = num_nodes (param (model t)) ->
    FillNodeMeanValues fuel'
      {| model := m; node_mean_values := node_mean_values t' |}
    = Done {| model := m; node_mean_values := node_mean_values t' |}.
Proof.
  intros H.
  assert (Fr : model t' = model t /\
               Z.of_nat (length (node_mean_values t'))
               = num_nodes (param (model t)) mod 2 ^ 64).
  { unfold FillNodeMeanValues in H.
    destruct (Z.eqb_spec (Z.of_nat (length (node_mean_values t)))
                (num_nodes (param (model t)) mod 2 ^ 64)) as [E|E].
    - injection H as <-. auto.
    - inv_bind H. apply resize_Done in E0 as [Pn ->].
      apply FillNodeMeanValues_loop_frame in H as (M & L).
      cbn [model node_mean_values with_node_mean_values] in *.
      split; [exact M|]. rewrite L, length_resized. lia. }
  destruct Fr as [M L]. split; [exact M|]. split; [exact L|].
  intros m fuel' Hm. unfold FillNodeMeanValues.
  cbn [model node_mean_values]. rewrite Hm, L, Z.eqb_refl. reflexivity.
Qed.

End CacheFacts.

(* ================================================================= *)
(** ** [Load] on a truncated image *)

(** [Read] of [n] bytes from a stream cut after [k] bytes, when the stream
    starts with the [n] bytes [a]. *)
Lemma Read_cut (a rest : list byte) (n k : nat) :
  length a = n ->
  Read (firstn k (a ++ rest)) n
  = if (n <=? k)%nat then (a, firstn (k - n) rest) else (firstn k a, []).
Proof.
  intros <-. unfold Read. rewrite firstn_app.
  destruct (Nat.leb_spec (length a) k) as [H|H].
  - rewrite (firstn_all2 a) by exact H.
    now rewrite firstn_exact, skipn_exact.
  - replace (k - length a)%nat with O by lia. cbn [firstn].
    rewrite app_nil_r.
    assert (L : length (firstn k a) = k) by (rewrite length_firstn; lia).
    rewrite firstn_all2, skipn_all2 by lia. reflexivity.
Qed.

Lemma Read_vec_cut {T : Type} {RT : Raw T} (v : list T) (k : nat) :
  Forall raw_ok v -> Z.of_nat (length v) < 2 ^ 64 ->
  (k < length (Write_vec [] v))%nat ->
  Read_vec (firstn k (Write_vec [] v)) = None.
Proof.
  intros Hv Hlen Hk.
  assert (HL : Forall (fun x => length (to_raw x) = sizeof) v)
    by (eapply Forall_impl; [|exact Hv]; intros x [H _]; exact H).
  set (hdr := uint64_to_raw (Z.of_nat (length v))).
  set (body := if (length v =? 0)%nat then [] else flat_map to_raw v).
  assert (L8 : length hdr = 8%nat) by apply length_le_split.
  assert (Hs : Write_vec [] v = hdr ++ body).
  { unfold Write_vec, Write, body, hdr.
    destruct (length v =? 0)%nat; cbn [app]; rewrite ?app_nil_r; reflexivity. }
  rewrite Hs in *. rewrite length_app, L8 in Hk.
  unfold Read_vec. rewrite (Read_cut hdr body 8 k L8).
  destruct (Nat.leb_spec 8 k) as [H8|H8].
  - rewrite L8. cbn [Nat.eqb negb]. unfold hdr.
    rewrite uint64_raw_roundtrip, Nat2Z.id by lia.
    unfold body in *. destruct (length v =? 0)%nat eqn:E.
    + cbn [length] in Hk. lia.
    + assert (LB : length (flat_map to_raw v) = (sizeof * length v)%nat)
        by (apply length_flat_map_const; exact HL).
      rewrite <- (app_nil_r (flat_map to_raw v)).
      rewrite (Read_cut _ [] _ (k - 8) LB).
      destruct (Nat.leb_spec (sizeof * length v) (k - 8)) as [Hb|Hb]; [lia|].
      rewrite length_firstn.
      replace (_ =? _)%nat with false; [reflexivity|].
      symmetry. apply Nat.eqb_neq. lia.
  - rewrite length_firstn.
    replace (_ =? _)%nat with false; [reflexivity|].
    symmetry. apply Nat.eqb_neq. lia.
Qed.

Section TruncatedImage.
Context {bst_float : Type} {TNodeStat : Type}.
Context {Raw_float : Raw bst_float} {Raw_stat : Raw TNodeStat}.
Variable stat_zero : TNodeStat.
Variable uninit_int : Z.
Variable uninit_info : bst_float.

Local Abbreviation Tree := (TreeModel bst_float TNodeStat).
Local Abbreviation Load' := (Load stat_zero uninit_int uninit_info).

(** X17.  [Load] never accepts a truncated image: on the image that
    [Save] writes for a well-formed tree, cut anywhere before its end,
    [Load] aborts on a failed check. *)
Theorem Load_truncated (t t0 : Tree) (k : nat) :
  TreeModel_ok t ->
  Z.of_nat (length (nodes t)) = num_nodes (param t) ->
  Z.of_nat (length (stats t)) = num_nodes (param t) ->
  num_nodes (param t) <> 0 ->
  (k < length (image t))%nat ->
  Load' t0 (firstn k (image t)) = Abort CheckFailed.
Proof.
  intros (HP & HN & HS & HV & HVL) Ln Ls Hnz Hk.
  pose proof HP as (_ & Hn & Hd & _ & _ & _ & _ & HRL).
  assert (LP : length (TreeParam_to_raw (param t)) = sizeof_TreeParam)
    by (apply TreeParam_raw_length; exact HRL).
  assert (HNL : Forall (fun n => length (Node_to_raw n) = sizeof_Node bst_float)
                  (nodes t))
    by (eapply Forall_impl; [|exact HN]; intros n; apply Node_raw_length).
  assert (HSL : Forall (fun x => length (to_raw x) = sizeof (T := TNodeStat))
                  (stats t))
    by (eapply Forall_impl; [|exact HS]; intros x [H _]; exact H).
  assert (N0 : 0 <= num_nodes (param t)) by lia.
  set (c := Z.to_nat (num_nodes (param t))).
  assert (Kn : length (nodes t) = c) by (unfold c; lia).
  assert (Ks : length (stats t) = c) by (unfold c; lia).
  assert (LN : length (flat_map Node_to_raw (nodes t))
               = (sizeof_Node bst_float * c)%nat)
    by (rewrite <- Kn; apply length_flat_map_const; exact HNL).
  assert (LS : length (flat_map to_raw (stats t)) = (sizeof * c)%nat)
    by (rewrite <- Ks; apply length_flat_map_const; exact HSL).
  unfold image in *. rewrite !length_app, LP, LN, LS in Hk.
  unfold Load, Load_records.
  rewrite (Read_cut _ _ _ k LP).
  destruct (Nat.leb_spec sizeof_TreeParam k) as [H1|H1].
  2:{ rewrite length_firstn, LP.
      replace (_ =? _)%nat with false; [reflexivity|].
      symmetry. apply Nat.eqb_neq. lia. }
  rewrite LP, Nat.eqb_refl. cbn [CHECK bind].
  rewrite TreeParam_raw_roundtrip by exact HP.
  unfold resize.
  replace (num_nodes (param t) <? 0) with false
    by (symmetry; apply Z.ltb_ge; lia).
  cbn [bind].
  replace (num_nodes (param t) =? 0) with false
    by (symmetry; apply Z.eqb_neq; exact Hnz).
  cbn [negb CHECK bind]. rewrite !length_resized. fold c.
  rewrite (Read_cut _ _ _ (k - sizeof_TreeParam) LN).
  destruct (Nat.leb_spec (sizeof_Node bst_float * c) (k - sizeof_TreeParam))
    as [H2|H2].
  2:{ rewrite length_firstn, LN.
      replace (_ =? _)%nat with false; [reflexivity|].
      symmetry. apply Nat.eqb_neq. lia. }
  rewrite LN, Nat.eqb_refl. cbn [CHECK bind].
  rewrite (Read_cut _ _ _ _ LS).
  destruct (Nat.leb_spec (sizeof * c)
              (k - sizeof_TreeParam - sizeof_Node bst_float * c)) as [H3|H3].
  2:{ rewrite length_firstn, LS.
      replace (_ =? _)%nat with false; [reflexivity|].
      symmetry. apply Nat.eqb_neq. lia. }
  rewrite LS, Nat.eqb_refl. cbn [CHECK bind].
  destruct (size_leaf_vector (param t) =? 0) eqn:E; cbn [negb] in *.
  - cbn [length] in Hk. lia.
  - rewrite Read_vec_cut by (assumption || lia). reflexivity.
Qed.

End TruncatedImage.

(* ================================================================= *)
(** ** The properties above on concrete trees *)

Module DemoBuild.

Definition InitModel_ : Demo.Tree -> outcome Demo.Tree :=
  InitModel (Demo.f32 0) Demo.stat0 0 (Demo.f32 0).
Definition AddChilds_ : Demo.Tree -> Z -> outcome Demo.Tree :=
  AddChilds (Demo.f32 0) Demo.stat0 0 (Demo.f32 0).

(** An instance with a repeated feature, an index out of range, and for
    feature 1 a float whose bits are all ones. *)
Definition inst : @Inst binary32 :=
  [(0, present (Demo.f32 3)); (5, present (Demo.f32 1));
   (0, present (Demo.f32 4)); (1, missing)].

End DemoBuild.

Lemma InitModel_roots_witness :
  exists t',
    DemoBuild.InitModel_ Demo.tree3 = Done t' /\
    num_nodes (param t') = 1 /\
    Z.of_nat (length (nodes t')) = 1.
Proof.
  destruct (InitModel_roots (Demo.f32 0) Demo.stat0 0 (Demo.f32 0) Demo.tree3)
    as (t' & HI & Hn & _ & Ln & _); try (simpl; lia).
  { unfold INT_MAX. simpl. lia. }
  exists t'. auto.
Defined.

Lemma AddChilds_fresh_witness :
  exists t' l c,
    DemoBuild.AddChilds_ Demo.tree3 1 = Done t' /\
    num_nodes (param t') = 5 /\
    at_ (nodes t') 3 = Done l /\ at_ (nodes t') 4 = Done c /\
    parent l = 1 /\ is_left_child l = true /\
    parent c = 1 /\ is_left_child c = false.
Proof.
  destruct (AddChilds_fresh (Demo.f32 0) Demo.stat0 0 (Demo.f32 0) Demo.tree3 1
              (Demo.leaf 0 (Demo.f32 10)))
    as (t' & l & c & HA & Hn & _ & _ & _ & Hl & Hc & Pl & Il & _ & Pc & Ic & _);
    try reflexivity; try (unfold INT_MAX; simpl; lia).
  exists t', l, c. auto 10.
Defined.

Lemma ChangeToLeaf_AddChilds_witness :
  exists t1 t2 r2,
    ChangeToLeaf Demo.tree3 0 (Demo.f32 5) = Done t1 /\
    DemoBuild.AddChilds_ t1 0 = Done t2 /\
    deleted_nodes t2 = [] /\
    at_ (nodes t2) 0 = Done r2 /\ cleft r2 = 2 /\ cright r2 = 1.
Proof.
  destruct (ChangeToLeaf_AddChilds (Demo.f32 0) Demo.stat0 0 (Demo.f32 0)
              Demo.tree3 0 (Demo.f32 5)
              (Demo.inner (-1) 1 2 0 (Demo.f32 1))
              (Demo.leaf 0 (Demo.f32 10)) (Demo.leaf 0 (Demo.f32 20)))
    as (t1 & t2 & r2 & l2 & c2 & HC & HA & Hd & _ & _ & _ & Hr & Hl & Hc & _);
    try reflexivity; try (unfold INT_MAX; simpl; lia).
  exists t1, t2, r2. auto 10.
Defined.

Lemma DeleteNode_twice_witness :
  exists t2 t3 t4,
    DeleteNode Demo.tree3_deleted 2 = Done t2 /\
    deleted_nodes t2 = [2; 2] /\
    Demo.AllocNode_ t2 = Done (2, t3) /\
    Demo.AllocNode_ t3 = Done (2, t4).
Proof.
  destruct (DeleteNode_twice (Demo.f32 0) Demo.stat0 0 (Demo.f32 0)
              Demo.tree3 2 Demo.tree3_deleted)
    as (t2 & t3 & t4 & H2 & Hd & H3 & H4 & _);
    try reflexivity; try (unfold INT_MAX; simpl; lia).
  exists t2, t3, t4. auto.
Defined.

Lemma num_extra_nodes_counts_witness :
  num_extra_nodes Demo.tree3 = Done 2 /\
  num_extra_nodes Demo.tree3_deleted = Done 1 /\
  num_extra_nodes Demo.tree3_changed = Done 0.
Proof.
  destruct (num_extra_nodes_counts (Demo.f32 0) Demo.stat0 0 (Demo.f32 0)
              Demo.tree3 2) as (_ & HD & HC);
    try reflexivity; try (simpl; lia).
  split; [reflexivity|]. split.
  - exact (HD 2 Demo.tree3_deleted eq_refl).
  - exact (HC 0 (Demo.f32 5) Demo.tree3_changed eq_refl).
Defined.

Lemma GetDepth_after_collapse_witness :
  GetDepth 2 Demo.tree3 2 false = Done 1 /\
  GetDepth 2 Demo.tree3_changed 2 false = Done 1.
Proof.
  destruct (GetDepth_after_collapse (Demo.f32 0) Demo.tree3 Demo.tree3_changed)
    as (_ & HG).
  { right. left. exists 0, (Demo.f32 5). reflexivity. }
  split; [reflexivity|]. apply HG. reflexivity.
Defined.

Lemma AddChilds_depth_witness :
  exists t',
    DemoBuild.AddChilds_ Demo.tree3 1 = Done t' /\
    GetDepth 3 t' 3 false = Done 2 /\
    GetDepth 3 t' 4 false = Done 2 /\
    GetDepth 3 t' 3 true = Done 1 /\
    GetDepth 3 t' 4 true = Done 0.
Proof.
  exact (AddChilds_depth (Demo.f32 0) Demo.stat0 0 (Demo.f32 0) Demo.tree3 1
           (Demo.leaf 0 (Demo.f32 10)) 2 1 0
           eq_refl eq_refl ltac:(unfold INT_MAX; simpl; lia)
           ltac:(simpl; lia) ltac:(unfold INT_MAX; simpl; lia)
           eq_refl eq_refl ltac:(unfold INT_MAX; lia)
           eq_refl ltac:(unfold INT_MAX; lia)).
Defined.

Lemma CollapseToLeaf_subtree_witness :
  exists t' r,
    Demo.CollapseToLeaf_ 3 Demo.tree7 0 (Demo.f32 9) = Done t' /\
    deleted_nodes t' = [3; 4; 5; 6; 1; 2] /\
    num_deleted (param t') = 6 /\
    at_ (nodes Demo.tree7) 0 = Done r /\
    at_ (nodes t') 0 = Done (set_leaf r (Demo.f32 9) (-1)).
Proof.
  pose proof (subtree_leaf Demo.tree7 3 _ eq_refl eq_refl) as S3.
  pose proof (subtree_leaf Demo.tree7 4 _ eq_refl eq_refl) as S4.
  pose proof (subtree_leaf Demo.tree7 5 _ eq_refl eq_refl) as S5.
  pose proof (subtree_leaf Demo.tree7 6 _ eq_refl eq_refl) as S6.
  pose proof (subtree_inner Demo.tree7 1 _ _ _ _ _ eq_refl eq_refl S3 S4) as S1.
  pose proof (subtree_inner Demo.tree7 2 _ _ _ _ _ eq_refl eq_refl S5 S6) as S2.
  pose proof (subtree_inner Demo.tree7 0 _ _ _ _ _ eq_refl eq_refl S1 S2) as S0.
  destruct (CollapseToLeaf_subtree (Demo.f32 0) Demo.tree7 0 _ _ 3 (Demo.f32 9) S0)
    as (t' & r & HC & Hd & Hn & _ & Hr & Hr' & _).
  - discriminate.
  - simpl. lia.
  - repeat (apply NoDup_cons; [simpl; lia|]). apply NoDup_nil.
  - repeat (apply Forall_cons; [simpl; lia|]). apply Forall_nil.
  - simpl. lia.
  - unfold INT_MAX. simpl. lia.
  - exists t', r. auto.
Defined.

Lemma Fill_then_Drop_witness :
  exists f : FVec binary32,
    Fill (FVec_Init 3) DemoBuild.inst = Done f /\
    FVec_fvalue f 0 = Done (Demo.f32 4) /\
    FVec_is_missing f 0 = Done false /\
    FVec_is_missing f 1 = Done true /\
    FVec_is_missing f 2 = Done true /\
    Drop f DemoBuild.inst = Done (FVec_Init 3).
Proof.
  destruct (Fill_then_Drop 3 DemoBuild.inst) as (f & HF & _ & Hv & Hm & HD).
  { repeat (apply Forall_cons; [simpl; lia|]). apply Forall_nil. }
  exists f. split; [exact HF|].
  destruct (Hv 0 (present (Demo.f32 4)) ltac:(lia) eq_refl) as (V0 & M0).
  destruct (Hv 1 missing ltac:(lia) eq_refl) as (_ & M1).
  split; [exact V0|]. split; [exact M0|]. split; [exact M1|].
  split; [|exact HD].
  apply Hm; [lia | reflexivity].
Defined.

Lemma MaxDepth_bounds_GetLeafIndex_witness :
  MaxDepth 3 DemoReg.tree5 0 = Done 2 /\
  exists lid n,
    GetLeafIndex 3 DemoReg.tree5 (FVec_Init 2) 0 = Done lid /\
    node_at DemoReg.tree5 lid = Done n /\ is_leaf n = true /\
    Predict 3 DemoReg.tree5 (FVec_Init 2) 0 = Done (leaf_value n).
Proof.
  assert (HM : MaxDepth 3 DemoReg.tree5 (to_int 0) = Done 2) by reflexivity.
  split; [exact HM|].
  refine (proj2 (MaxDepth_bounds_GetLeafIndex DemoReg.tree5 (FVec_Init 2) 0 3 2
                   HM _) 3%nat _).
  - unfold DemoReg.tree5. cbn [model nodes].
    repeat (apply Forall_cons; [intros _; vm_compute; reflexivity|]).
    apply Forall_nil.
  - simpl. lia.
Defined.

Lemma CalculateContributionsApprox_returns_witness :
  exists out : list binary32,
    CalculateContributionsApprox 0 3 DemoCancel.scenario DemoShap.input 0
      DemoShap.zeros = Done out /\
    length out = 3%nat /\
    at_ out 2 = Done (fadd (of_int 0) (S754_finite false 12500000 2)) /\
    CalculateContributionsApprox 7 3 DemoCancel.scenario DemoShap.input 0
      DemoShap.zeros = Done out.
Proof.
  assert (HP : Predict (F:=binary32) 3 DemoCancel.scenario DemoShap.input 0
               = Done (of_int 1)) by (vm_compute; reflexivity).
  destruct (CalculateContributionsApprox_returns (F:=binary32) 0 3
              DemoCancel.scenario DemoShap.input 0 DemoShap.zeros (of_int 1) HP)
    as (r & m & x & out & Hr & Hm & Hx & HA & L & B & _ & _ & Ind).
  - vm_compute. reflexivity.
  - vm_compute. reflexivity.
  - exists out. split; [exact HA|]. split; [exact L|].
    vm_compute in Hm. injection Hm as <-.
    vm_compute in Hx. injection Hx as <-.
    split; [exact B|]. apply Ind.
    assert (E : node_at (F:=binary32) DemoCancel.scenario (to_int 0)
                = Done (DemoShap.split (-1) 1 2 0 (DemoShap.ratio 1 2)))
      by (vm_compute; reflexivity).
    rewrite E in Hr. injection Hr as <-. reflexivity.
Defined.

Lemma FillNodeMeanValues_once_witness :
  exists t' : RegTree binary32,
    FillNodeMeanValues 3 DemoReg.tree5 = Done t' /\
    length (node_mean_values t') = 5%nat /\
    FillNodeMeanValues 0 t' = Done t'.
Proof.
  destruct (FillNodeMeanValues 3 DemoReg.tree5) as [t'|] eqn:E;
    [|discriminate E].
  destruct (FillNodeMeanValues_once 3 DemoReg.tree5 t' E) as (M & L & H).
  exists t'. split; [reflexivity|]. split.
  - apply Nat2Z.inj. rewrite L. reflexivity.
  - specialize (H (model t') O ltac:(now rewrite M)).
    destruct t'. exact H.
Defined.

Lemma Load_truncated_witness :
  Demo.Load_ Demo.new_tree (firstn 200 (image Demo.tree3)) = Abort CheckFailed.
Proof.
  apply (Load_truncated Demo.stat0 0 (Demo.f32 0) Demo.tree3 Demo.new_tree 200).
  - concrete_ok.
  - reflexivity.
  - reflexivity.
  - simpl. lia.
  - vm_compute. lia.
Defined.
